(** * ConfigLoader (powerline/lib/config.py): registries, cache and worker loop

    A shallow embedding of the [ConfigLoader] class.  The registries
    [self.watched] and [self.missing] are finite maps to finite sets,
    [self.loaded] is a finite map, and every method is a computation in a
    small state-and-exception monad that also records the calls made to
    the collaborators (detector, callbacks, condition functions, loader,
    logger, shutdown event) in an event log.

    What the model takes for granted:
    - every method body that runs under [self.lock], and every phase of
      a cycle, is one step: the interleaving of threads is not modelled,
      a thread's calls follow one another;
    - callbacks and condition functions run while the lock is held, so
      they cannot call the registration API; they act on the world
      outside the loader, and may raise;
    - the detector's check, the detector's [watch] and the logger
      return;
    - of an exception the model keeps its text and whether it is an
      instance of [Exception], which is what [except Exception] asks;
    - the order in which Python visits a dict or a set is the order of
      [map_to_list] and [elements]; no statement below depends on it;
    - [run] is given fuel, one unit per cycle. *)

From stdpp Require Import gmap strings list fin_maps.

Set Default Proof Using "Type".

(** ** Python values that the loader handles *)

Abbreviation Path := string (only parsing).
Abbreviation Key := string (only parsing).
(** Functions are compared by identity; a name stands for the object. *)
Abbreviation Fn := string (only parsing).
(** The exception that is in flight.  [except Exception] catches the
    instances of [Exception]; [KeyboardInterrupt], [SystemExit] and the
    like are instances of [BaseException] that are not instances of
    [Exception], and it lets them pass.  [text] is [str(e)]. *)
Inductive Exn : Type :=
| Exception (text : string)
| BaseException (text : string).

Definition str (e : Exn) : string :=
  match e with Exception text | BaseException text => text end.

(** [isinstance(e, Exception)] *)
Definition is_Exception (e : Exn) : bool :=
  match e with Exception _ => true | BaseException _ => false end.
(** Seconds; the loader only tests it against [None] and hands it to
    [Event.wait]. *)
Abbreviation Interval := Z (only parsing).

Inductive Res (A : Type) : Type :=
| Ret (a : A)
| Raise (e : Exn).
Arguments Ret {A} a.
Arguments Raise {A} e.

(** What a condition function may return: [None] or a string. *)
Inductive PyVal : Type :=
| PyNone
| PyStr (s : string).

(** [if path:] — [None] and the empty string are falsy. *)
Definition truthy (v : PyVal) : option Path :=
  match v with
  | PyNone => None
  | PyStr s => if decide (s = "") then None else Some s
  end.

Inductive Logger : Type :=
| PowerlineLogger (name : string).

(** ** Calls that are visible from outside *)

Inductive Event (V : Type) : Type :=
| EvWatch (p : Path)                        (* self.watcher.watch(path) *)
| EvCheck (p : Path) (changed : bool)       (* self.watcher(path) *)
| EvNotify (f : Fn) (p : Path)              (* function(path), change detection *)
| EvPoll (k : Key) (c f : Fn) (r : Res PyVal) (* condition_function(key) *)
| EvFound (k : Key) (c f : Fn) (p : Path)   (* function(path), missing resolution *)
| EvLoad (p : Path) (r : Res V)             (* self._load(path) *)
| EvReport (msg pfx : string) (args : list string) (* self.pl.exception(...) *)
| EvWait (i : option Interval).             (* self.shutdown_event.wait(...) *)
Arguments EvWatch {V} p.
Arguments EvCheck {V} p changed.
Arguments EvNotify {V} f p.
Arguments EvPoll {V} k c f r.
Arguments EvFound {V} k c f p.
Arguments EvLoad {V} p r.
Arguments EvReport {V} msg pfx args.
Arguments EvWait {V} i.

(** ** Collaborators

    The detector, the registered functions, the loader and the shutdown
    event are supplied by the caller.  [W] is the state of everything
    outside the loader; each call may change it.  [shutdown_blocked] is
    what the world does while the worker is blocked in
    [shutdown_event.wait(timeout)], until the event is set or the
    timeout has elapsed. *)

Class Collaborators (W V : Type) : Type := {
  watcher_watch : Path → W → W;
  watcher_check : Path → W → bool * W;
  call_function : Fn → Path → W → Res unit * W;
  call_condition : Fn → Key → W → Res PyVal * W;
  call_load : Path → W → Res V * W;
  shutdown_is_set : W → bool;
  shutdown_blocked : option Interval → W → W;
}.

(** ** The object *)

Record ConfigLoader (V : Type) : Type := {
  pl : option Logger;
  interval : option Interval;
  watched : gmap Path (gset Fn);
  missing : gmap Key (gset (Fn * Fn));
  loaded : gmap Path V;
}.
Arguments pl {V} _.
Arguments interval {V} _.
Arguments watched {V} _.
Arguments missing {V} _.
Arguments loaded {V} _.

(** [ConfigLoader.__init__] *)
Definition init {V : Type} : ConfigLoader V :=
  {| pl := None; interval := None; watched := ∅; missing := ∅; loaded := ∅ |}.

Definition with_pl {V : Type} (x : option Logger) (c : ConfigLoader V) :=
  {| pl := x; interval := interval c; watched := watched c;
     missing := missing c; loaded := loaded c |}.
Definition with_interval {V : Type} (x : option Interval) (c : ConfigLoader V) :=
  {| pl := pl c; interval := x; watched := watched c;
     missing := missing c; loaded := loaded c |}.
Definition with_watched {V : Type} (x : gmap Path (gset Fn)) (c : ConfigLoader V) :=
  {| pl := pl c; interval := interval c; watched := x;
     missing := missing c; loaded := loaded c |}.
Definition with_missing {V : Type} (x : gmap Key (gset (Fn * Fn))) (c : ConfigLoader V) :=
  {| pl := pl c; interval := interval c; watched := watched c;
     missing := x; loaded := loaded c |}.
Definition with_loaded {V : Type} (x : gmap Path V) (c : ConfigLoader V) :=
  {| pl := pl c; interval := interval c; watched := watched c;
     missing := missing c; loaded := x |}.

(** ** State, exceptions and the event log *)

Record Sys (W V : Type) : Type := {
  self : ConfigLoader V;
  world : W;
}.
Arguments self {W V} _.
Arguments world {W V} _.
Arguments Build_Sys {W V} _ _.

Record Out (W V A : Type) : Type := {
  out_res : Res A;
  out_sys : Sys W V;
  out_log : list (Event V);
}.
Arguments out_res {W V A} _.
Arguments out_sys {W V A} _.
Arguments out_log {W V A} _.
Arguments Build_Out {W V A} _ _ _.

Definition M (W V A : Type) : Type := Sys W V → Out W V A.

Section Monad.
Context {W V : Type}.

Definition ret {A} (a : A) : M W V A :=
  λ s, Build_Out (Ret a) s [].

Definition raise {A} (e : Exn) : M W V A :=
  λ s, Build_Out (Raise e) s [].

Definition bind {A B} (m : M W V A) (k : A → M W V B) : M W V B :=
  λ s,
    let o := m s in
    match out_res o with
    | Ret a =>
        let o' := k a (out_sys o) in
        Build_Out (out_res o') (out_sys o') (out_log o ++ out_log o')
    | Raise e => Build_Out (Raise e) (out_sys o) (out_log o)
    end.

(** [try: body / except Exception as e: handler / else: els] — the
    handler takes the instances of [Exception] only, any other
    exception leaves the statement; the [else] suite runs outside the
    protection of the [try]. *)
Definition try_except_else {A B} (body : M W V A)
    (handler : Exn → M W V B) (els : A → M W V B) : M W V B :=
  λ s,
    let o := body s in
    match out_res o with
    | Ret a =>
        let o' := els a (out_sys o) in
        Build_Out (out_res o') (out_sys o') (out_log o ++ out_log o')
    | Raise e =>
        if is_Exception e
        then let o' := handler e (out_sys o) in
             Build_Out (out_res o') (out_sys o') (out_log o ++ out_log o')
        else Build_Out (Raise e) (out_sys o) (out_log o)
    end.

Definition try_except {A} (body : M W V A) (handler : Exn → M W V A)
    : M W V A :=
  try_except_else body handler ret.

Definition get_self : M W V (ConfigLoader V) :=
  λ s, Build_Out (Ret (self s)) s [].

Definition update (f : ConfigLoader V → ConfigLoader V) : M W V unit :=
  λ s, Build_Out (Ret tt) (Build_Sys (f (self s)) (world s)) [].

(** A call to a collaborator: the world moves on, the call is logged,
    and a raised exception propagates. *)
Definition extern {A} (f : W → Res A * W) (ev : Res A → Event V)
    : M W V A :=
  λ s,
    let '(r, w) := f (world s) in
    Build_Out r (Build_Sys (self s) w) [ev r].

(** [for x in l: body], collecting what each iteration appends to
    [toload]. *)
Fixpoint foreach {A B} (l : list A) (body : A → M W V (list B))
    : M W V (list B) :=
  match l with
  | [] => ret []
  | x :: l' =>
      bind (body x) (λ ys, bind (foreach l' body) (λ zs, ret (ys ++ zs)))
  end.
End Monad.

#[global] Instance M_ret {W V} : MRet (M W V) := @ret W V.
#[global] Instance M_bind {W V} : MBind (M W V) := λ A B k m, bind m k.

(** ** Methods of [ConfigLoader] *)

Section Methods.
Context {W V : Type} `{!Collaborators W V}.

(** *** Calls to the collaborators *)

Definition watch (path : Path) : M W V unit :=
  extern (λ w, (Ret tt, watcher_watch path w)) (λ _, EvWatch path).

Definition watcher (path : Path) : M W V bool :=
  extern (λ w, let '(b, w') := watcher_check path w in (Ret b, w'))
         (λ r, EvCheck path (match r with Ret b => b | Raise _ => false end)).

(** [function(path)] at line 121 and at line 134: the call is logged
    first, then made. *)
Definition notify (function : Fn) (path : Path) : M W V unit :=
  λ s,
    let '(r, w) := call_function function path (world s) in
    Build_Out r (Build_Sys (self s) w) [EvNotify function path].

Definition found (key : Key) (condition_function function : Fn)
    (path : Path) : M W V unit :=
  λ s,
    let '(r, w) := call_function function path (world s) in
    Build_Out r (Build_Sys (self s) w)
              [EvFound key condition_function function path].

Definition condition (key : Key) (condition_function function : Fn)
    : M W V PyVal :=
  extern (call_condition condition_function key)
         (EvPoll key condition_function function).

Definition _load (path : Path) : M W V V :=
  extern (call_load path) (EvLoad path).

Definition emit (ev : Event V) : M W V unit :=
  λ s, Build_Out (Ret tt) s [ev].

(** *** [set_pl], [set_interval] *)

Definition set_pl (x : option Logger) : M W V unit :=
  update (with_pl x).

Definition set_interval (x : option Interval) : M W V unit :=
  update (with_interval x).

(** *** [register] (lines 43-53) *)

Definition register (function : Fn) (path : Path) : M W V unit :=
  update (λ c, with_watched
    (<[path := default ∅ (watched c !! path) ∪ {[function]}]> (watched c)) c);;
  watch path.

(** *** [register_missing] (lines 55-74) *)

Definition register_missing (condition_function function : Fn) (key : Key)
    : M W V unit :=
  update (λ c, with_missing
    (<[key := default ∅ (missing c !! key) ∪ {[(condition_function, function)]}]>
       (missing c)) c).

(** *** [unregister_functions] (lines 76-88)

    One iteration of the loop over [list(self.watched.items())]:
    [functions -= removed_functions] changes the set held by the
    registry, and an emptied set takes its path out of [self.watched]
    and out of [self.loaded]. *)
Definition unregister_functions_step (removed_functions : gset Fn)
    (c : ConfigLoader V) (item : Path * gset Fn) : ConfigLoader V :=
  let '(path, functions) := item in
  let functions' := functions ∖ removed_functions in
  if decide (functions' = ∅)
  then with_loaded (delete path (loaded c))
         (with_watched (delete path (watched c)) c)
  else with_watched (<[path := functions']> (watched c)) c.

Definition unregister_functions (removed_functions : gset Fn) : M W V unit :=
  update (λ c, foldl (unregister_functions_step removed_functions) c
                     (map_to_list (watched c))).

(** *** [unregister_missing] (lines 90-102) *)

Definition unregister_missing_step (removed_functions : gset (Fn * Fn))
    (c : ConfigLoader V) (item : Key * gset (Fn * Fn)) : ConfigLoader V :=
  let '(key, functions) := item in
  let functions' := functions ∖ removed_functions in
  if decide (functions' = ∅)
  then with_missing (delete key (missing c)) c
  else with_missing (<[key := functions']> (missing c)) c.

Definition unregister_missing (removed_functions : gset (Fn * Fn))
    : M W V unit :=
  update (λ c, foldl (unregister_missing_step removed_functions) c
                     (map_to_list (missing c))).

(** *** [load] (lines 104-112) *)

Definition load (path : Path) : M W V V :=
  c ← get_self;
  match loaded c !! path with
  | Some v => mret v
  | None =>
      r ← _load path;
      c ← get_self;
      (if interval c is Some _
       then update (λ c, with_loaded (<[path := r]> (loaded c)) c)
       else mret tt);;
      mret r
  end.

(** *** [exception] (lines 145-149)

    The bare [raise] re-raises the exception that is being handled,
    [e]. *)
Definition exception (e : Exn) (msg : string) (args : list string)
    : M W V unit :=
  c ← get_self;
  if pl c is Some _
  then emit (EvReport msg "config_loader" args)
  else raise e.

(** *** [run] (lines 114-143) *)

(** Lines 120-122, the body of [for function in functions]. *)
Definition detect_function (path : Path) (function : Fn)
    : M W V (list Path) :=
  changed ← watcher path;
  if changed : bool
  then notify function path;; mret [path]
  else mret [].

(** Lines 119-122, the body of [for path, functions in ...]. *)
Definition detect_path (item : Path * gset Fn) : M W V (list Path) :=
  let '(path, functions) := item in
  foreach (elements functions) (detect_function path).

(** Lines 117-122. *)
Definition detect_changes : M W V (list Path) :=
  c ← get_self;
  foreach (map_to_list (watched c)) detect_path.

(** [functions.remove((condition_function, function))] — [functions]
    is the set that [self.missing] holds for [key]. *)
Definition remove_pair (key : Key) (pair : Fn * Fn) : M W V unit :=
  update (λ c, with_missing (alter (λ fs, fs ∖ {[pair]}) key (missing c)) c).

(** Lines 136-137. *)
Definition pop_if_empty (key : Key) : M W V unit :=
  c ← get_self;
  match missing c !! key with
  | Some functions =>
      if decide (functions = ∅)
      then update (λ c, with_missing (delete key (missing c)) c)
      else mret tt
  | None => mret tt
  end.

(** Lines 127-135. *)
Definition resolve_pair (key : Key) (pair : Fn * Fn) : M W V (list Path) :=
  let '(condition_function, function) := pair in
  try_except_else (condition key condition_function function)
    (λ e,
      exception e "Error while running condition function for key {0}: {1}"
                [key; str e];;
      mret [])
    (λ path,
      match truthy path with
      | Some p =>
          found key condition_function function p;;
          remove_pair key (condition_function, function);;
          mret [p]
      | None => mret []
      end).

(** Lines 125-137, the body of [for key, functions in ...].  The set
    that the snapshot holds for [key] is the one in [self.missing]; only
    this iteration changes it. *)
Definition resolve_key (item : Key * gset (Fn * Fn)) : M W V (list Path) :=
  let '(key, functions) := item in
  found_paths ← foreach (elements functions) (resolve_pair key);
  pop_if_empty key;;
  mret found_paths.

(** Lines 123-137. *)
Definition resolve_missing : M W V (list Path) :=
  c ← get_self;
  foreach (map_to_list (missing c)) resolve_key.

(** Lines 139-142. *)
Definition reload_path (path : Path) : M W V (list unit) :=
  try_except
    (r ← _load path;
     update (λ c, with_loaded (<[path := r]> (loaded c)) c);;
     mret [])
    (λ e, exception e "Error while loading {0}: {1}" [path; str e];;
          mret []).

(** Lines 138-142. *)
Definition reload (toload : list Path) : M W V unit :=
  foreach toload reload_path;; mret tt.

(** Line 143.  [Event.wait(timeout)] returns at once when the event is
    set on entry; otherwise the thread blocks until the event is set or
    the timeout has elapsed. *)
Definition wait : M W V unit :=
  c ← get_self;
  extern (λ w, (Ret tt, if shutdown_is_set w then w
                        else shutdown_blocked (interval c) w))
         (λ _, EvWait (interval c)).

(** Lines 116-142: the three phases that do the work of a cycle. *)
Definition work : M W V unit :=
  changed ← detect_changes;
  resolved ← resolve_missing;
  reload (changed ++ resolved).

(** One iteration of the [while] loop, lines 116-143. *)
Definition cycle : M W V unit :=
  work;;
  wait.

(** Line 115. *)
Definition running (s : Sys W V) : bool :=
  bool_decide (is_Some (interval (self s)))
  && negb (shutdown_is_set (world s)).

Inductive Status : Type :=
| Returned      (* the [while] condition was false: [run] returned *)
| Looping.      (* the condition holds and there is no fuel left *)

Fixpoint run (fuel : nat) : M W V Status :=
  λ s,
    if running s
    then match fuel with
         | O => ret Looping s
         | S fuel' => (cycle;; run fuel') s
         end
    else ret Returned s.
End Methods.

(** ** Vocabulary of the specification *)

Section Vocabulary.
Context {V : Type}.
Implicit Types c : ConfigLoader V.

(** A path is in the Registry iff its callback set is non-empty. *)
Definition registry_ok c : Prop :=
  ∀ path functions, watched c !! path = Some functions → functions ≠ ∅.

(** A key is in the MissingRegistry iff its pair set is non-empty. *)
Definition missing_ok c : Prop :=
  ∀ key functions, missing c !! key = Some functions → functions ≠ ∅.

(** [function] is registered on [path]. *)
Definition registered (function : Fn) (path : Path) c : Prop :=
  ∃ functions, watched c !! path = Some functions ∧ function ∈ functions.

(** [(condition_function, function)] is pending under [key]. *)
Definition pending (key : Key) (pair : Fn * Fn) c : Prop :=
  ∃ functions, missing c !! key = Some functions ∧ pair ∈ functions.

(** What missing resolution may do to the loader: nothing, or take
    pairs out of the pending sets. *)
Definition settles c c' : Prop :=
  pl c' = pl c ∧ interval c' = interval c ∧
  watched c' = watched c ∧ loaded c' = loaded c ∧
  ∀ key pair, pending key pair c' → pending key pair c.

(** Selecting events from a log. *)
Definition is_notify (f : Fn) (p : Path) (ev : Event V) : bool :=
  match ev with
  | EvNotify f' p' => bool_decide (f' = f ∧ p' = p)
  | _ => false
  end.

Definition is_poll (k : Key) (c f : Fn) (ev : Event V) : bool :=
  match ev with
  | EvPoll k' c' f' _ => bool_decide (k' = k ∧ c' = c ∧ f' = f)
  | _ => false
  end.

Definition is_found (k : Key) (c f : Fn) (ev : Event V) : bool :=
  match ev with
  | EvFound k' c' f' _ => bool_decide (k' = k ∧ c' = c ∧ f' = f)
  | _ => false
  end.

Definition is_load (p : Path) (ev : Event V) : bool :=
  match ev with EvLoad p' _ => bool_decide (p' = p) | _ => false end.

(** Everything in a log that concerns one pending pair. *)
Definition concerns (k : Key) (c f : Fn) (ev : Event V) : bool :=
  is_poll k c f ev || is_found k c f ev.

(** Only pairs that are pending in [c] have their condition function
    and their callback called. *)
Definition polls_pending c (ev : Event V) : Prop :=
  match ev with
  | EvPoll k cf f _ | EvFound k cf f _ => pending k (cf, f) c
  | _ => True
  end.

(** What a cycle has done about the pair [(cf, f)] under [k] when its
    condition function gave [r]: [log] is the log of the cycle and [c']
    the loader after it. *)
Definition poll_outcome (k : Key) (cf f : Fn) (r : Res PyVal)
    (log : list (Event V)) c' : Prop :=
  match r with
  | Ret v =>
      match truthy v with
      | Some p =>
          List.filter (concerns k cf f) log
            = [EvPoll k cf f r; EvFound k cf f p] ∧
          ¬ pending k (cf, f) c'
      | None =>
          List.filter (concerns k cf f) log = [EvPoll k cf f r] ∧
          pending k (cf, f) c'
      end
  | Raise e =>
      List.filter (concerns k cf f) log = [EvPoll k cf f r] ∧
      pending k (cf, f) c' ∧
      EvReport "Error while running condition function for key {0}: {1}"
               "config_loader" [k; str e] ∈ log
  end.

(** An exception of a condition function or of the loader, which the
    worker loop hands to [exception]. *)
Definition failure (ev : Event V) : option Exn :=
  match ev with
  | EvPoll _ _ _ (Raise e) => Some e
  | EvLoad _ (Raise e) => Some e
  | _ => None
  end.

(** A failure that the loop takes care of: [except Exception] catches
    it and a logger takes the report. *)
Definition reported (e : Exn) c : bool :=
  is_Exception e && bool_decide (is_Some (pl c)).



(** The events of each phase of a cycle. *)
Definition from_detection (ev : Event V) : bool :=
  match ev with EvCheck _ _ | EvNotify _ _ => true | _ => false end.

Definition from_resolution (ev : Event V) : bool :=
  match ev with
  | EvPoll _ _ _ _ | EvFound _ _ _ _ | EvReport _ _ _ => true
  | _ => false
  end.

Definition from_reload (ev : Event V) : bool :=
  match ev with EvLoad _ _ | EvReport _ _ _ => true | _ => false end.

Definition count (P : Event V → bool) (log : list (Event V)) : nat :=
  length (List.filter P log).

(** How often a path was recorded in [toload]. *)
Definition occurrences (p : Path) (toload : list Path) : nat :=
  length (List.filter (λ q, bool_decide (q = p)) toload).

(** The exception that a result carries. *)
Definition raised {A} (r : Res A) : option Exn :=
  match r with Ret _ => None | Raise e => Some e end.

(** A log is fatal to the call that produced it, with [r] the exception
    the call raised, when every failure in the log is the last thing
    that happened and is that exception. *)
Definition fatal (r : option Exn) (log : list (Event V)) : Prop :=
  ∀ ev e, ev ∈ log → failure ev = Some e →
          r = Some e ∧ ∃ log', log = log' ++ [ev].

(** The value of the last successful [self._load(p)] in a log. *)
Fixpoint last_loaded (p : Path) (log : list (Event V)) : option V :=
  match log with
  | [] => None
  | ev :: log' =>
      match last_loaded p log' with
      | Some v => Some v
      | None =>
          match ev with
          | EvLoad p' (Ret v) => if decide (p' = p) then Some v else None
          | _ => None
          end
      end
  end.
End Vocabulary.

Section Cycles.
Context {W V : Type} `{!Collaborators W V}.

(** The state in which cycle number [n] (counting from 0) starts, when
    the loop started in [s].  A cycle that is left by an exception ends
    [run]; the cycle after it is the first one of the next [run]. *)
Fixpoint after (n : nat) (s : Sys W V) : Sys W V :=
  match n with
  | O => s
  | S n' => out_sys (cycle (after n' s))
  end.


(** [m], started in [s], returns without an exception. *)
Definition completes {A} (m : M W V A) (s : Sys W V) : Prop :=
  ∃ a, out_res (m s) = Ret a.


(** What a cycle, or a part of one, has done about the pair [(c, f)]
    that was pending under [k] when it started: [q] is what its log
    says about the pair, [still] says that the pair is pending
    afterwards. *)



(** Handling the pair raised [e]: the callback did, when it was called
    with the path found, or the condition function did and nothing took
    care of it.  The pair is still pending. *)
Definition pair_failed (k : Key) (c f : Fn) (e : Exn) (q : list (Event V))
    (still : Prop) : Prop :=
  still ∧
  ((∃ v p w, truthy v = Some p ∧
             q = [EvPoll k c f (Ret v); EvFound k c f p] ∧
             (call_function f p w).1 = Raise e)
   ∨ q = [EvPoll k c f (Raise e)]).
End Cycles.

(** ** Collaborators for the scenarios *)

Module Scenario.

(** Modelled from the spec: the Detector ([powerline.lib.file_watcher]
    is not part of this unit).  [watch(path)] is an idempotent
    registration; [check(path)] says whether [path] changed since the
    last check and consumes that change. *)
Record Detector : Type := {
  watches : gset Path;
  modified : gset Path;
}.

Definition detector_watch (path : Path) (d : Detector) : Detector :=
  {| watches := {[path]} ∪ watches d; modified := modified d |}.

Definition detector_check (path : Path) (d : Detector) : bool * Detector :=
  (bool_decide (path ∈ modified d),
   {| watches := watches d; modified := modified d ∖ {[path]} |}).

(** The world of the scenarios: a detector, how often each key has
    been polled, the files that can be read, and after how many more
    waits another thread will have set the shutdown event ([None]:
    never). *)
Record World : Type := {
  detector : Detector;
  attempts : gmap Key nat;
  files : gmap Path string;
  stop_after : option nat;
}.

Definition with_detector (d : Detector) (w : World) : World :=
  {| detector := d; attempts := attempts w; files := files w;
     stop_after := stop_after w |}.

Definition attempts_so_far (key : Key) (w : World) : nat :=
  default 0 (attempts w !! key).

Definition count_attempt (key : Key) (w : World) : World :=
  {| detector := detector w;
     attempts := <[key := S (attempts_so_far key w)]> (attempts w);
     files := files w; stop_after := stop_after w |}.

(** A file changes on disk. *)
Definition write_file (path : Path) (content : string) (w : World) : World :=
  {| detector := {| watches := watches (detector w);
                    modified := {[path]} ∪ modified (detector w) |};
     attempts := attempts w;
     files := <[path := content]> (files w);
     stop_after := stop_after w |}.

(** Another thread will set the shutdown event during the [n]-th wait
    from now ([0]: it has set it). *)
Definition stop_in (n : nat) (w : World) : World :=
  {| detector := detector w; attempts := attempts w; files := files w;
     stop_after := Some n |}.

Definition event_is_set (w : World) : bool :=
  bool_decide (stop_after w = Some 0).

Definition event_blocked (timeout : option Interval) (w : World) : World :=
  {| detector := detector w; attempts := attempts w; files := files w;
     stop_after := pred <$> stop_after w |}.

(** Callbacks return. *)
Definition scenario_function (function : Fn) (path : Path) (w : World)
    : Res unit * World :=
  (Ret tt, w).

(** [find] is the condition function of the second scenario,
    [lambda k: "/etc/found.json" if attemptsSoFar(k) >= 2 else None];
    [broken] always raises; while [slow] runs, another thread sets the
    shutdown event; any other never finds anything. *)
Definition scenario_condition (condition_function : Fn) (key : Key)
    (w : World) : Res PyVal * World :=
  let w' := count_attempt key w in
  if decide (condition_function = "find") then
    (Ret (if decide (2 ≤ attempts_so_far key w')
          then PyStr "/etc/found.json" else PyNone), w')
  else if decide (condition_function = "broken") then
    (Raise (Exception "broken"), w')
  else if decide (condition_function = "slow") then
    (Ret PyNone, stop_in 0 w')
  else (Ret PyNone, w').

Definition scenario_load (path : Path) (w : World) : Res string * World :=
  match files w !! path with
  | Some content => (Ret content, w)
  | None => (Raise (Exception "No such file"), w)
  end.

#[export] Instance scenario : Collaborators World string := {|
  watcher_watch path w := with_detector (detector_watch path (detector w)) w;
  watcher_check path w :=
    let '(b, d) := detector_check path (detector w) in (b, with_detector d w);
  call_function := scenario_function;
  call_condition := scenario_condition;
  call_load := scenario_load;
  shutdown_is_set := event_is_set;
  shutdown_blocked := event_blocked;
|}.

(** The same collaborators, except that the callback [crash] raises. *)
Definition crashing : Collaborators World string := {|
  watcher_watch path w := with_detector (detector_watch path (detector w)) w;
  watcher_check path w :=
    let '(b, d) := detector_check path (detector w) in (b, with_detector d w);
  call_function function path w :=
    if decide (function = "crash") then (Raise (Exception "crash"), w)
    else (Ret tt, w);
  call_condition := scenario_condition;
  call_load := scenario_load;
  shutdown_is_set := event_is_set;
  shutdown_blocked := event_blocked;
|}.

(** The same collaborators, except that the condition function
    [interrupt] and the loader, for [interrupt.json], raise
    [KeyboardInterrupt], which is not an instance of [Exception]. *)
Definition interrupted : Collaborators World string := {|
  watcher_watch path w := with_detector (detector_watch path (detector w)) w;
  watcher_check path w :=
    let '(b, d) := detector_check path (detector w) in (b, with_detector d w);
  call_function := scenario_function;
  call_condition condition_function key w :=
    if decide (condition_function = "interrupt")
    then (Raise (BaseException "KeyboardInterrupt"), count_attempt key w)
    else scenario_condition condition_function key w;
  call_load path w :=
    if decide (path = "interrupt.json")
    then (Raise (BaseException "KeyboardInterrupt"), w)
    else scenario_load path w;
  shutdown_is_set := event_is_set;
  shutdown_blocked := event_blocked;
|}.

Definition world0 : World :=
  {| detector := {| watches := ∅; modified := ∅ |};
     attempts := ∅;
     files := {[ "theme.json" := "dark"; "/etc/found.json" := "solarized" ]};
     stop_after := None |}.

Definition logger : Logger := PowerlineLogger "powerline".

(** The state that the calls [m] leave when made in [s]. *)
Definition then_ {A} (s : Sys World string) (m : M World string A)
    : Sys World string :=
  out_sys (m s).

(** Something happens outside the loader. *)
Definition meanwhile (f : World → World) (s : Sys World string)
    : Sys World string :=
  Build_Sys (self s) (f (world s)).

(** A fresh loader: no logger, no interval. *)
Definition start : Sys World string := Build_Sys init world0.

(** Polling every five seconds, without and with a logger. *)
Definition polling : Sys World string :=
  then_ start (set_interval (Some 5%Z)).

Definition polling_logged : Sys World string :=
  then_ polling (set_pl (Some logger)).

(** Two callbacks on one path, and the file has changed. *)
Definition two_callbacks : Sys World string :=
  meanwhile (write_file "theme.json" "light")
    (then_ (then_ polling (register "markDirty" "theme.json"))
           (register "reloadTheme" "theme.json")).

(** The first scenario of the specification: [markDirty] watches
    [theme.json], which changes between the first and the second
    cycle. *)
Definition theme_watched : Sys World string :=
  then_ polling (register "markDirty" "theme.json").

Definition theme_changed : Sys World string :=
  meanwhile (write_file "theme.json" "light") (then_ theme_watched cycle).

(** One callback on a path whose value has been loaded. *)
Definition theme_loaded : Sys World string :=
  then_ (then_ polling (register "markDirty" "theme.json"))
        (load "theme.json").

(** A value was cached while an interval was configured; then the
    interval was taken away and the file rewritten. *)
Definition interval_cleared : Sys World string :=
  meanwhile (write_file "theme.json" "light")
    (then_ (then_ polling (load "theme.json")) (set_interval None)).

(** The second scenario of the specification, next to a pair whose
    condition function always raises. *)
Definition colorscheme_missing : Sys World string :=
  then_ (then_ polling_logged (register_missing "broken" "onTheme" "theme"))
        (register_missing "find" "onFound" "colorscheme").

(** The same without a logger. *)
Definition colorscheme_unlogged : Sys World string :=
  then_ (then_ polling (register_missing "broken" "onTheme" "theme"))
        (register_missing "find" "onFound" "colorscheme").

(** A logger is attached, the callback [crash] waits for the path that
    [find] will give, next to the pair that always raises. *)
Definition crash_pending : Sys World string :=
  then_ (then_ polling_logged (register_missing "broken" "onTheme" "theme"))
        (register_missing "find" "crash" "colorscheme").


(** A populated loader that is asked to stop during its next wait. *)
Definition stopping : Sys World string :=
  meanwhile (stop_in 1) colorscheme_missing.

(** A loader that is asked to stop while it polls. *)
Definition stopped_at_work : Sys World string :=
  then_ polling_logged (register_missing "slow" "onSlow" "slow").
End Scenario.

(** ** More vocabulary: what a cycle calls *)

Section MoreVocabulary.
Context {V : Type}.

(** The detector was asked about [p]. *)
Definition is_check (p : Path) (ev : Event V) : bool :=
  match ev with EvCheck p' _ => bool_decide (p' = p) | _ => false end.

(** The detector said that [p] has changed. *)
Definition is_change (p : Path) (ev : Event V) : bool :=
  match ev with EvCheck p' true => bool_decide (p' = p) | _ => false end.

(** A callback was told that [p] has changed. *)
Definition is_notify_at (p : Path) (ev : Event V) : bool :=
  match ev with EvNotify _ p' => bool_decide (p' = p) | _ => false end.

(** A callback was told that [p] has been found. *)
Definition is_found_at (p : Path) (ev : Event V) : bool :=
  match ev with EvFound _ _ _ p' => bool_decide (p' = p) | _ => false end.

(** The wait on the shutdown event. *)
Definition is_wait (ev : Event V) : bool :=
  match ev with EvWait _ => true | _ => false end.

(** The events that follow the first load of a cycle. *)
Definition from_reload_or_wait (ev : Event V) : bool :=
  from_reload ev || is_wait ev.

(** Only registered paths are checked, and only functions registered on
    a path are told that it changed. *)
Definition checks_registered (c : ConfigLoader V) (ev : Event V) : Prop :=
  match ev with
  | EvCheck p _ => is_Some (watched c !! p)
  | EvNotify f p => registered f p c
  | _ => True
  end.

(** How many callbacks a path has. *)
Definition callbacks (p : Path) (c : ConfigLoader V) : nat :=
  size (default ∅ (watched c !! p)).

(** A call of the loader, for any path. *)
Definition is_loading (ev : Event V) : bool :=
  match ev with EvLoad _ _ => true | _ => false end.

(** Where an exception can leave missing resolution: at the call of a
    callback, whose pair is then still pending in [c], or at a condition
    function whose failure nothing takes care of. *)
Definition resolution_left_at (c : ConfigLoader V) (ev : Event V) : Prop :=
  match ev with
  | EvFound k cf f _ => pending k (cf, f) c
  | EvPoll _ _ _ (Raise e) => reported e c = false
  | _ => False
  end.

(** A call of the logger. *)
Definition is_report (ev : Event V) : bool :=
  match ev with EvReport _ _ _ => true | _ => false end.

(** Every error report in [log] is the report of a failure in [log]:
    it carries the source tag of the loader, and its message and
    arguments are those of a condition function or of a loader call that
    raised. *)
Definition reports_explained (log : list (Event V)) : Prop :=
  ∀ msg pfx args, EvReport msg pfx args ∈ log →
    pfx = "config_loader" ∧
    ((∃ k c f e,
        msg = "Error while running condition function for key {0}: {1}" ∧
        args = [k; str e] ∧ EvPoll k c f (Raise e) ∈ log) ∨
     (∃ p e,
        msg = "Error while loading {0}: {1}" ∧
        args = [p; str e] ∧ EvLoad p (Raise e) ∈ log)).
End MoreVocabulary.

Section MoreCycles.
Context {W V : Type} `{!Collaborators W V}.

(** What the first [n] cycles log, when the loop starts in [s]. *)
Fixpoint cycle_logs (n : nat) (s : Sys W V) : list (Event V) :=
  match n with
  | O => []
  | S n' => cycle_logs n' s ++ out_log (cycle (after n' s))
  end.
End MoreCycles.

(** ** The methods of a loader, as calls *)

Inductive Call : Type :=
| CallSetPl (x : option Logger)
| CallSetInterval (x : option Interval)
| CallRegister (function : Fn) (path : Path)
| CallRegisterMissing (condition_function function : Fn) (key : Key)
| CallUnregisterFunctions (removed_functions : gset Fn)
| CallUnregisterMissing (removed_functions : gset (Fn * Fn))
| CallLoad (path : Path)
| CallRun (fuel : nat)
| CallException (e : Exn) (msg : string) (args : list string).

Section Calls.
Context {W V : Type} `{!Collaborators W V}.

(** The state that a call leaves, whether it returns or raises. *)
Definition perform (call : Call) (s : Sys W V) : Sys W V :=
  match call with
  | CallSetPl x => out_sys (set_pl x s)
  | CallSetInterval x => out_sys (set_interval x s)
  | CallRegister function path => out_sys (register function path s)
  | CallRegisterMissing condition_function function key =>
      out_sys (register_missing condition_function function key s)
  | CallUnregisterFunctions removed_functions =>
      out_sys (unregister_functions removed_functions s)
  | CallUnregisterMissing removed_functions =>
      out_sys (unregister_missing removed_functions s)
  | CallLoad path => out_sys (load path s)
  | CallRun fuel => out_sys (run fuel s)
  | CallException e msg args => out_sys (exception e msg args s)
  end.

(** A loader made by [ConfigLoader()] in the world [w], after the
    calls [calls]. *)
Definition history (calls : list Call) (w : W) : Sys W V :=
  foldl (λ s call, perform call s) (Build_Sys init w) calls.
End Calls.

(** ** More scenarios *)

Module MoreScenarios.
Import Scenario.

(** A value is cached for a path that nobody has registered. *)
Definition cached_only : Sys World string :=
  then_ polling (load "theme.json").

(** The callback [crash] watches [theme.json], which has changed. *)
Definition crash_watched : Sys World string :=
  meanwhile (write_file "theme.json" "light")
    (then_ polling_logged (register "crash" "theme.json")).

(** A loader that is used without ever being given an interval. *)
Definition calls_without_interval : list Call :=
  [CallSetPl (Some logger);
   CallRegister "markDirty" "theme.json";
   CallRegisterMissing "find" "onFound" "colorscheme";
   CallLoad "theme.json";
   CallSetInterval None;
   CallRun 3;
   CallUnregisterFunctions {[ "markDirty" ]}].
End MoreScenarios.

(** * Reasoning about computations *)

Section MonadFacts.
Context {W V : Type}.
Implicit Types s : Sys W V.
Implicit Types log : list (Event V).

Lemma bind_unfold {A B} (m : M W V A) (k : A → M W V B) s :
  (m ≫= k) s =
  match out_res (m s) with
  | Ret a =>
      Build_Out (out_res (k a (out_sys (m s)))) (out_sys (k a (out_sys (m s))))
                (out_log (m s) ++ out_log (k a (out_sys (m s))))
  | Raise e => Build_Out (Raise e) (out_sys (m s)) (out_log (m s))
  end.
Proof. reflexivity. Qed.

Lemma mret_unfold {A} (a : A) s : (mret a : M W V A) s = Build_Out (Ret a) s [].
Proof. reflexivity. Qed.

Lemma foreach_cons {A B} (x : A) l (body : A → M W V (list B)) s :
  foreach (x :: l) body s =
  let o := body x s in
  match out_res o with
  | Ret ys =>
      let o' := foreach l body (out_sys o) in
      Build_Out (match out_res o' with
                 | Ret zs => Ret (ys ++ zs)
                 | Raise e => Raise e
                 end)
                (out_sys o') (out_log o ++ out_log o')
  | Raise e => Build_Out (Raise e) (out_sys o) (out_log o)
  end.
Proof.
  cbn [foreach]. unfold bind at 1. cbn zeta.
  destruct (out_res (body x s)) as [ys|e]; [|done].
  unfold bind. cbn zeta.
  destruct (foreach l body (out_sys (body x s))) as [[zs|e] s' log']; cbn;
    by rewrite ?app_nil_r.
Qed.

(** The rule for [for] loops: [I rest s log] holds when [rest] is still
    to be visited, the state is [s] and the loop has logged [log] so
    far; [E e] is what holds when an iteration raises [e]. *)
Lemma foreach_inv {A B} (I : list A → Sys W V → list (Event V) → Prop)
    (E : Exn → Sys W V → list (Event V) → Prop)
    (l : list A) (body : A → M W V (list B)) s :
  I l s [] →
  (∀ x rest s0 log0,
      I (x :: rest) s0 log0 →
      match out_res (body x s0) with
      | Ret _ => I rest (out_sys (body x s0)) (log0 ++ out_log (body x s0))
      | Raise e => E e (out_sys (body x s0)) (log0 ++ out_log (body x s0))
      end) →
  match out_res (foreach l body s) with
  | Ret _ => I [] (out_sys (foreach l body s)) (out_log (foreach l body s))
  | Raise e => E e (out_sys (foreach l body s)) (out_log (foreach l body s))
  end.
Proof.
  intros HI Hbody.
  cut (∀ log0, I l s log0 →
    match out_res (foreach l body s) with
    | Ret _ => I [] (out_sys (foreach l body s))
                 (log0 ++ out_log (foreach l body s))
    | Raise e => E e (out_sys (foreach l body s))
                   (log0 ++ out_log (foreach l body s))
    end).
  { intros Hcut. apply (Hcut [] HI). }
  clear HI. revert s. induction l as [|x l IH]; intros s log0 HI.
  - cbn. by rewrite app_nil_r.
  - rewrite foreach_cons. cbn zeta.
    specialize (Hbody x l s log0 HI).
    destruct (out_res (body x s)) as [ys|e]; cbn.
    + specialize (IH _ _ Hbody).
      rewrite app_assoc.
      by destruct (out_res (foreach l body (out_sys (body x s)))).
    + done.
Qed.

(** The same rule for a property that holds whether or not the loop
    raises. *)
Lemma foreach_always {A B} (I : list A → Sys W V → list (Event V) → Prop)
    (l : list A) (body : A → M W V (list B)) s :
  I l s [] →
  (∀ x rest s0 log0,
      I (x :: rest) s0 log0 →
      match out_res (body x s0) with
      | Ret _ => I rest (out_sys (body x s0)) (log0 ++ out_log (body x s0))
      | Raise e =>
          ∀ rest', I rest' (out_sys (body x s0)) (log0 ++ out_log (body x s0))
      end) →
  I [] (out_sys (foreach l body s)) (out_log (foreach l body s)).
Proof.
  intros HI Hbody.
  pose proof (foreach_inv I (λ _ s' log', ∀ rest', I rest' s' log')
                l body s HI Hbody) as H.
  destruct (out_res (foreach l body s)); [done|apply H].
Qed.
End MonadFacts.

(** Run the monadic plumbing of a goal. *)
Ltac run_monad :=
  unfold mbind, M_bind, mret, M_ret, bind, ret, raise, try_except,
    try_except_else, get_self, update, extern, emit in *;
  cbn in *.

(** * The registration API *)

Section Unregister.
Context {V : Type}.
Implicit Types c : ConfigLoader V.

(** The loop of [unregister_functions], over any snapshot without
    repeated paths. *)
Lemma unregister_functions_fold (R : gset Fn) (l : list (Path * gset Fn)) c :
  NoDup l.*1 →
  let c' := foldl (unregister_functions_step R) c l in
  pl c' = pl c ∧ interval c' = interval c ∧ missing c' = missing c ∧
  (∀ p, watched c' !! p =
        match (list_to_map l : gmap Path (gset Fn)) !! p with
        | Some fs => if decide (fs ∖ R = ∅) then None else Some (fs ∖ R)
        | None => watched c !! p
        end) ∧
  (∀ p, loaded c' !! p =
        match (list_to_map l : gmap Path (gset Fn)) !! p with
        | Some fs => if decide (fs ∖ R = ∅) then None else loaded c !! p
        | None => loaded c !! p
        end).
Proof.
  revert c. induction l as [|[q fs] l IH]; intros c Hnd; cbn.
  { repeat split; intros. all: by rewrite ?lookup_empty. }
  apply NoDup_cons in Hnd as [Hq Hnd].
  destruct (IH (unregister_functions_step R c (q, fs)) Hnd)
    as (Hpl & Hint & Hmis & Hw & Hl).
  assert ((list_to_map l : gmap Path (gset Fn)) !! q = None) as Hnone.
  { by apply not_elem_of_list_to_map_1. }
  cbn in *. rewrite Hpl, Hint, Hmis.
  split_and!; try (by destruct (decide (fs ∖ R = ∅))).
  - intros p. rewrite Hw. destruct (decide (q = p)) as [->|Hne].
    + rewrite Hnone, lookup_insert_eq.
      destruct (decide (fs ∖ R = ∅)); cbn;
        by rewrite ?lookup_delete_eq, ?lookup_insert_eq.
    + rewrite lookup_insert_ne by done.
      destruct (list_to_map l !! p); [done|].
      destruct (decide (fs ∖ R = ∅)); cbn;
        by rewrite ?lookup_delete_ne, ?lookup_insert_ne.
  - intros p. rewrite Hl. destruct (decide (q = p)) as [->|Hne].
    + rewrite Hnone, lookup_insert_eq.
      destruct (decide (fs ∖ R = ∅)); cbn; by rewrite ?lookup_delete_eq.
    + rewrite lookup_insert_ne by done.
      assert (loaded (unregister_functions_step R c (q, fs)) !! p
              = loaded c !! p) as Hsame.
      { cbn. destruct (decide (fs ∖ R = ∅)); cbn;
          by rewrite ?lookup_delete_ne. }
      cbn in Hsame. by rewrite Hsame.
Qed.

Lemma unregister_missing_fold (R : gset (Fn * Fn))
    (l : list (Key * gset (Fn * Fn))) c :
  NoDup l.*1 →
  let c' := foldl (unregister_missing_step R) c l in
  pl c' = pl c ∧ interval c' = interval c ∧ watched c' = watched c ∧
  loaded c' = loaded c ∧
  (∀ k, missing c' !! k =
        match (list_to_map l : gmap Key (gset (Fn * Fn))) !! k with
        | Some fs => if decide (fs ∖ R = ∅) then None else Some (fs ∖ R)
        | None => missing c !! k
        end).
Proof.
  revert c. induction l as [|[q fs] l IH]; intros c Hnd; cbn.
  { repeat split; intros. all: by rewrite ?lookup_empty. }
  apply NoDup_cons in Hnd as [Hq Hnd].
  destruct (IH (unregister_missing_step R c (q, fs)) Hnd)
    as (Hpl & Hint & Hwat & Hld & Hm).
  assert ((list_to_map l : gmap Key (gset (Fn * Fn))) !! q = None) as Hnone.
  { by apply not_elem_of_list_to_map_1. }
  cbn in *. rewrite Hpl, Hint, Hwat, Hld.
  split_and!; try (by destruct (decide (fs ∖ R = ∅))).
  intros k. rewrite Hm. destruct (decide (q = k)) as [->|Hne].
  - rewrite Hnone, lookup_insert_eq.
    destruct (decide (fs ∖ R = ∅)); cbn;
      by rewrite ?lookup_delete_eq, ?lookup_insert_eq.
  - rewrite lookup_insert_ne by done.
    destruct (list_to_map l !! k); [done|].
    destruct (decide (fs ∖ R = ∅)); cbn;
      by rewrite ?lookup_delete_ne, ?lookup_insert_ne.
Qed.
End Unregister.

Section Registration.
Context {W V : Type} `{!Collaborators W V}.
Implicit Types s : Sys W V.

(** What [unregister_functions] leaves behind: no exception, no call to
    any collaborator, and each path keeps the callbacks that were not
    removed, or disappears with its cached value. *)
Lemma unregister_functions_spec (R : gset Fn) s :
  let o := unregister_functions R s in
  out_res o = Ret tt ∧ out_log o = [] ∧ world (out_sys o) = world s ∧
  pl (self (out_sys o)) = pl (self s) ∧
  interval (self (out_sys o)) = interval (self s) ∧
  missing (self (out_sys o)) = missing (self s) ∧
  (∀ p, watched (self (out_sys o)) !! p =
        match watched (self s) !! p with
        | Some fs => if decide (fs ∖ R = ∅) then None else Some (fs ∖ R)
        | None => None
        end) ∧
  (∀ p, loaded (self (out_sys o)) !! p =
        match watched (self s) !! p with
        | Some fs => if decide (fs ∖ R = ∅) then None else loaded (self s) !! p
        | None => loaded (self s) !! p
        end).
Proof.
  cbn.
  destruct (unregister_functions_fold R (map_to_list (watched (self s)))
              (self s)) as (Hpl & Hint & Hmis & Hw & Hl).
  { apply NoDup_fst_map_to_list. }
  cbn in *. rewrite list_to_map_to_list in Hw, Hl.
  split_and!; try done.
  intros p. rewrite Hw. by destruct (watched (self s) !! p).
Qed.

Lemma unregister_missing_spec (R : gset (Fn * Fn)) s :
  let o := unregister_missing R s in
  out_res o = Ret tt ∧ out_log o = [] ∧ world (out_sys o) = world s ∧
  pl (self (out_sys o)) = pl (self s) ∧
  interval (self (out_sys o)) = interval (self s) ∧
  watched (self (out_sys o)) = watched (self s) ∧
  loaded (self (out_sys o)) = loaded (self s) ∧
  (∀ k, missing (self (out_sys o)) !! k =
        match missing (self s) !! k with
        | Some fs => if decide (fs ∖ R = ∅) then None else Some (fs ∖ R)
        | None => None
        end).
Proof.
  cbn.
  destruct (unregister_missing_fold R (map_to_list (missing (self s)))
              (self s)) as (Hpl & Hint & Hwat & Hld & Hm).
  { apply NoDup_fst_map_to_list. }
  cbn in *. rewrite list_to_map_to_list in Hm.
  split_and!; try done.
  intros k. rewrite Hm. by destruct (missing (self s) !! k).
Qed.

Lemma register_unfold (function : Fn) (path : Path) s :
  register function path s =
  Build_Out (Ret tt)
    (Build_Sys
       (with_watched
          (<[path := default ∅ (watched (self s) !! path) ∪ {[function]}]>
             (watched (self s))) (self s))
       (watcher_watch path (world s)))
    [EvWatch path].
Proof. reflexivity. Qed.

Lemma register_missing_unfold (condition_function function : Fn)
    (key : Key) s :
  register_missing condition_function function key s =
  Build_Out (Ret tt)
    (Build_Sys
       (with_missing
          (<[key := default ∅ (missing (self s) !! key)
                    ∪ {[(condition_function, function)]}]>
             (missing (self s))) (self s))
       (world s))
    [].
Proof. reflexivity. Qed.

(** [load] on a path that has no cached value: the loader is called
    once, its result or its exception is the outcome, and the value is
    stored only when an interval is configured. *)
Lemma load_miss (p : Path) s :
  loaded (self s) !! p = None →
  load p s =
  let r := (call_load p (world s)).1 in
  let w := (call_load p (world s)).2 in
  Build_Out r
    (Build_Sys
       (match r, interval (self s) with
        | Ret v, Some _ => with_loaded (<[p := v]> (loaded (self s))) (self s)
        | _, _ => self s
        end) w)
    [EvLoad p r].
Proof.
  intros Hnone. unfold load, _load. run_monad. rewrite Hnone. cbn.
  destruct (call_load p (world s)) as [[v|e] w]; cbn; [|done].
  by destruct (interval (self s)).
Qed.

(** [load] on a cached path returns the cached value and calls
    nothing. *)
Lemma load_hit (p : Path) (v : V) s :
  loaded (self s) !! p = Some v →
  load p s = Build_Out (Ret v) s [].
Proof.
  intros Hsome. unfold load. run_monad. by rewrite Hsome.
Qed.
End Registration.

(** * Logs *)

Section Logs.
Context {V : Type}.
Implicit Types log : list (Event V).

Lemma last_loaded_app (p : Path) log1 log2 :
  last_loaded p (log1 ++ log2) =
  match last_loaded p log2 with
  | Some v => Some v
  | None => last_loaded p log1
  end.
Proof.
  induction log1 as [|ev log1 IH]; cbn.
  - by destruct (last_loaded p log2).
  - rewrite IH. by destruct (last_loaded p log2).
Qed.

Lemma last_loaded_none (p : Path) (P : Event V → bool) log :
  (∀ r, P (EvLoad p r) = false) → Forall P log → last_loaded p log = None.
Proof.
  intros HP. induction 1 as [|ev log Hev _ IH]; [done|]. cbn. rewrite IH.
  destruct ev as [| | | | |p' [v|e]| |]; try done.
  case_decide; [subst|done]. by rewrite HP in Hev.
Qed.

Lemma count_app (P : Event V → bool) log1 log2 :
  count P (log1 ++ log2) = count P log1 + count P log2.
Proof. unfold count. by rewrite List.filter_app, length_app. Qed.

Lemma filter_none (P Q : Event V → bool) log :
  (∀ ev, Q ev = true → P ev = false) → Forall Q log → List.filter P log = [].
Proof.
  intros HPQ. induction 1 as [|ev log Hev _ IH]; [done|]. cbn.
  rewrite HPQ, IH; [done|]. by destruct (Q ev).
Qed.
End Logs.

(** * The error-reporting hook and the reload phase *)

Section Reload.
Context {W V : Type} `{!Collaborators W V}.
Implicit Types s : Sys W V.


Lemma reported_detached (e : Exn) (c : ConfigLoader V) :
  pl c = None → reported e c = false.
Proof.
  intros Hpl. unfold reported. rewrite Hpl.
  rewrite bool_decide_eq_false_2; [apply andb_false_r|]. by intros [? ?].
Qed.


Lemma exception_attached (e : Exn) msg args s lg :
  pl (self s) = Some lg →
  exception e msg args s =
  Build_Out (Ret tt) s [EvReport msg "config_loader" args].
Proof. intros Hpl. unfold exception. run_monad. by rewrite Hpl. Qed.

Lemma exception_detached (e : Exn) msg args s :
  pl (self s) = None →
  exception e msg args s = Build_Out (Raise e) s [].
Proof. intros Hpl. unfold exception. run_monad. by rewrite Hpl. Qed.

(** One iteration of the reload loop. *)
Lemma reload_path_unfold (p : Path) s :
  reload_path p s =
  let w := (call_load p (world s)).2 in
  match (call_load p (world s)).1 with
  | Ret v =>
      Build_Out (Ret [])
        (Build_Sys (with_loaded (<[p := v]> (loaded (self s))) (self s)) w)
        [EvLoad p (Ret v)]
  | Raise e =>
      if reported e (self s)
      then Build_Out (Ret []) (Build_Sys (self s) w)
             [EvLoad p (Raise e);
              EvReport "Error while loading {0}: {1}" "config_loader"
                       [p; str e]]
      else Build_Out (Raise e) (Build_Sys (self s) w) [EvLoad p (Raise e)]
  end.
Proof.
  unfold reload_path, exception, _load, reported. run_monad.
  destruct (call_load p (world s)) as [[v|e] w]; cbn; [done|].
  destruct (is_Exception e); cbn; [|done]. by destruct (pl (self s)).
Qed.

Lemma reload_unfold (toload : list Path) s :
  reload toload s =
  let o := foreach toload reload_path s in
  Build_Out (match out_res o with Ret _ => Ret tt | Raise e => Raise e end)
            (out_sys o) (out_log o).
Proof.
  unfold reload. run_monad.
  destruct (foreach toload reload_path s) as [[?|?] ? ?]; cbn;
    by rewrite ?app_nil_r.
Qed.

(** The reload phase touches nothing but the cache, where a path ends up
    with the value of its last successful load, or with what it had. *)
Lemma reload_always (toload : list Path) s :
  let o := reload toload s in
  pl (self (out_sys o)) = pl (self s) ∧
  interval (self (out_sys o)) = interval (self s) ∧
  watched (self (out_sys o)) = watched (self s) ∧
  missing (self (out_sys o)) = missing (self s) ∧
  Forall from_reload (out_log o) ∧
  ∀ p, loaded (self (out_sys o)) !! p =
       match last_loaded p (out_log o) with
       | Some v => Some v
       | None => loaded (self s) !! p
       end.
Proof.
  rewrite reload_unfold. cbn.
  apply (foreach_always (λ _ s' log,
    pl (self s') = pl (self s) ∧ interval (self s') = interval (self s) ∧
    watched (self s') = watched (self s) ∧
    missing (self s') = missing (self s) ∧
    Forall from_reload log ∧
    ∀ p, loaded (self s') !! p =
         match last_loaded p log with
         | Some v => Some v
         | None => loaded (self s) !! p
         end)); [done|].
  intros x rest s0 log0 (Hpl & Hint & Hwat & Hmis & Hlog & Hld).
  rewrite reload_path_unfold. cbn.
  destruct (call_load x (world s0)) as [[v|e] w]; cbn.
  - split_and!; try done.
    { apply Forall_app; split; [done|]. by repeat constructor. }
    intros p. rewrite last_loaded_app. cbn.
    destruct (decide (x = p)) as [->|Hne].
    + by rewrite lookup_insert_eq.
    + by rewrite lookup_insert_ne.
  - destruct (reported e (self s0)); cbn; [|intros _];
      (split_and!;
       [ done | done | done | done
       | apply Forall_app; split; [done|]; by repeat constructor
       | intros p; rewrite last_loaded_app; cbn; apply Hld ]).
Qed.

End Reload.

(** * Failures that nobody can report *)

Section Fatal.
Context {W V : Type}.
Implicit Types s : Sys W V.
Implicit Types log : list (Event V).

Lemma fatal_quiet (r : option Exn) log :
  Forall (λ ev, failure ev = None) log → fatal r log.
Proof.
  intros Hall ev e Hin Hev.
  rewrite Forall_forall in Hall. specialize (Hall _ Hin). congruence.
Qed.

Lemma fatal_ret log :
  fatal None log → Forall (λ ev, failure ev = None) log.
Proof.
  intros Hf. apply Forall_forall. intros ev Hin.
  destruct (failure ev) as [e|] eqn:Hev; [|done].
  by destruct (Hf ev e Hin Hev).
Qed.

Lemma fatal_app (r : option Exn) log1 log2 :
  Forall (λ ev, failure ev = None) log1 → fatal r log2 →
  fatal r (log1 ++ log2).
Proof.
  intros Hall Hf ev e Hin Hev.
  apply elem_of_app in Hin as [Hin|Hin].
  - rewrite Forall_forall in Hall. specialize (Hall _ Hin). congruence.
  - destruct (Hf ev e Hin Hev) as [-> [log' ->]].
    split; [done|]. exists (log1 ++ log'). by rewrite app_assoc.
Qed.

Lemma fatal_bind {A B} (m : M W V A) (k : A → M W V B) s :
  fatal (raised (out_res (m s))) (out_log (m s)) →
  (∀ a, out_res (m s) = Ret a →
        fatal (raised (out_res (k a (out_sys (m s)))))
              (out_log (k a (out_sys (m s))))) →
  fatal (raised (out_res ((m ≫= k) s))) (out_log ((m ≫= k) s)).
Proof.
  intros Hm Hk. rewrite bind_unfold.
  destruct (out_res (m s)) as [a|e] eqn:Hres; cbn.
  - apply fatal_app; [by eapply fatal_ret|by apply Hk].
  - exact Hm.
Qed.

(** A loop whose iterations are fatal is fatal. *)
Lemma fatal_foreach {A B} (P : Sys W V → Prop) (l : list A)
    (body : A → M W V (list B)) s :
  P s →
  (∀ x s0, P s0 →
     fatal (raised (out_res (body x s0))) (out_log (body x s0)) ∧
     (∀ ys, out_res (body x s0) = Ret ys → P (out_sys (body x s0)))) →
  fatal (raised (out_res (foreach l body s))) (out_log (foreach l body s)).
Proof.
  intros HP Hbody.
  pose proof (foreach_inv
    (λ _ s' log, P s' ∧ Forall (λ ev, failure ev = None) log)
    (λ e _ log, fatal (Some e) log) l body s) as H.
  assert (∀ x (rest : list A) s0 log0,
    P s0 ∧ Forall (λ ev, failure ev = None) log0 →
    match out_res (body x s0) with
    | Ret _ => P (out_sys (body x s0)) ∧
               Forall (λ ev, failure ev = None) (log0 ++ out_log (body x s0))
    | Raise e => fatal (Some e) (log0 ++ out_log (body x s0))
    end) as Hstep.
  { intros x rest s0 log0 [HP0 Hlog0].
    destruct (Hbody x s0 HP0) as [Hf HP'].
    destruct (out_res (body x s0)) as [zs|e] eqn:Hres'.
    - split; [by eapply HP'|].
      apply Forall_app; split; [done|by eapply fatal_ret].
    - by apply fatal_app. }
  specialize (H (conj HP (Forall_nil_2 _)) Hstep).
  destruct (out_res (foreach l body s)) as [ys|e].
  - apply fatal_quiet, H.
  - exact H.
Qed.
End Fatal.

(** * Loops that keep a property of the state *)

Section Loops.
Context {W V : Type}.
Implicit Types s : Sys W V.

Lemma foreach_preserves {A B} (P : Sys W V → Prop) (Q : Event V → Prop)
    (l : list A) (body : A → M W V (list B)) s :
  P s →
  (∀ x s0, x ∈ l → P s0 →
     P (out_sys (body x s0)) ∧ Forall Q (out_log (body x s0))) →
  P (out_sys (foreach l body s)) ∧ Forall Q (out_log (foreach l body s)).
Proof.
  intros HP Hbody.
  pose proof (foreach_inv
    (λ rest s' log, (∀ x, x ∈ rest → x ∈ l) ∧ P s' ∧ Forall Q log)
    (λ _ s' log, P s' ∧ Forall Q log) l body s) as H.
  assert (match out_res (foreach l body s) with
          | Ret _ =>
              (∀ x : A, x ∈ [] → x ∈ l) ∧
              P (out_sys (foreach l body s)) ∧
              Forall Q (out_log (foreach l body s))
          | Raise _ =>
              P (out_sys (foreach l body s)) ∧
              Forall Q (out_log (foreach l body s))
          end) as Hend.
  { apply H; [done|].
    intros x rest s0 log0 (Hsub & HP0 & Hlog0).
    destruct (Hbody x s0) as [HP' Hlog']; [apply Hsub; by left|done|].
    assert (Forall Q (log0 ++ out_log (body x s0))) by by apply Forall_app.
    destruct (out_res (body x s0)); [|done].
    split_and!; [|done|done]. intros y Hy. apply Hsub. by right. }
  destruct (out_res (foreach l body s)); [by destruct Hend as (_ & ? & ?)|done].
Qed.

End Loops.

(** * The change-detection phase *)

Section Detection.
Context {W V : Type} `{!Collaborators W V}.
Implicit Types s : Sys W V.

Lemma detect_function_unfold (path : Path) (function : Fn) s :
  detect_function path function s =
  let b := (watcher_check path (world s)).1 in
  let w1 := (watcher_check path (world s)).2 in
  if b then
    let r := (call_function function path w1).1 in
    let w2 := (call_function function path w1).2 in
    Build_Out (match r with Ret _ => Ret [path] | Raise e => Raise e end)
              (Build_Sys (self s) w2)
              [EvCheck path true; EvNotify function path]
  else Build_Out (Ret []) (Build_Sys (self s) w1) [EvCheck path false].
Proof.
  unfold detect_function, watcher, notify. run_monad.
  destruct (watcher_check path (world s)) as [[|] w1]; cbn; [|done].
  by destruct (call_function function path w1) as [[[]|e] w2].
Qed.

(** Change detection never touches the loader's own state, and logs
    nothing but detector checks and callback calls. *)
Lemma detect_changes_always s :
  let o := detect_changes s in
  self (out_sys o) = self s ∧ Forall from_detection (out_log o).
Proof.
  unfold detect_changes. run_monad.
  destruct (foreach_preserves (λ s', self s' = self s) from_detection
              (map_to_list (watched (self s))) detect_path s) as [Hs Hl];
    [done| |].
  - intros [path functions] s0 _ Hs0. cbn.
    apply (foreach_preserves (λ s', self s' = self s) from_detection);
      [done|].
    intros function s1 _ Hs1. rewrite detect_function_unfold. cbn.
    destruct (watcher_check path (world s1)) as [[|] w1]; cbn.
    + split; [done|]. by repeat constructor.
    + split; [done|]. by repeat constructor.
  - destruct (foreach _ detect_path s) as [[?|?] ? ?]; cbn in *;
      by rewrite ?app_nil_r.
Qed.

End Detection.

(** * The missing-resolution phase *)

Section Pending.
Context {V : Type}.
Implicit Types c : ConfigLoader V.

Lemma pending_remove (k k0 : Key) (pair pair0 : Fn * Fn) c :
  pending k0 pair0
    (with_missing (alter (λ fs, fs ∖ {[pair]}) k (missing c)) c)
  ↔ pending k0 pair0 c ∧ ¬ (k0 = k ∧ pair0 = pair).
Proof.
  unfold pending. cbn. split.
  - intros (fs & Hfs & Hin). rewrite lookup_alter in Hfs.
    case_decide; subst.
    + destruct (missing c !! k0) as [fs0|] eqn:Hk; [|done].
      cbn in Hfs. simplify_eq. split; [exists fs0; set_solver|set_solver].
    + split; [by exists fs|naive_solver].
  - intros [(fs & Hfs & Hin) Hne]. rewrite lookup_alter.
    case_decide; subst.
    + rewrite Hfs. cbn. eexists. split; [done|]. set_solver.
    + by exists fs.
Qed.

Lemma pending_pop (k k0 : Key) (pair0 : Fn * Fn) c :
  missing c !! k = Some ∅ →
  pending k0 pair0 (with_missing (delete k (missing c)) c)
  ↔ pending k0 pair0 c.
Proof.
  intros Hk. unfold pending. cbn. split.
  - intros (fs & Hfs & Hin). apply lookup_delete_Some in Hfs as [_ Hfs].
    by exists fs.
  - intros (fs & Hfs & Hin). exists fs. split; [|done].
    apply lookup_delete_Some. split; [|done].
    intros ->. rewrite Hk in Hfs. simplify_eq. set_solver.
Qed.
End Pending.

Section Resolution.
Context {W V : Type} `{!Collaborators W V}.
Implicit Types s : Sys W V.

(** One iteration of the loop over the pairs of a key. *)
Lemma resolve_pair_unfold (k : Key) (c f : Fn) s :
  resolve_pair k (c, f) s =
  let w1 := (call_condition c k (world s)).2 in
  match (call_condition c k (world s)).1 with
  | Raise e =>
      if reported e (self s)
      then Build_Out (Ret []) (Build_Sys (self s) w1)
             [EvPoll k c f (Raise e);
              EvReport "Error while running condition function for key {0}: {1}"
                       "config_loader" [k; str e]]
      else Build_Out (Raise e) (Build_Sys (self s) w1) [EvPoll k c f (Raise e)]
  | Ret v =>
      match truthy v with
      | None => Build_Out (Ret []) (Build_Sys (self s) w1) [EvPoll k c f (Ret v)]
      | Some p =>
          let w2 := (call_function f p w1).2 in
          match (call_function f p w1).1 with
          | Ret _ =>
              Build_Out (Ret [p])
                (Build_Sys
                   (with_missing
                      (alter (λ fs, fs ∖ {[(c, f)]}) k (missing (self s)))
                      (self s)) w2)
                [EvPoll k c f (Ret v); EvFound k c f p]
          | Raise e =>
              Build_Out (Raise e) (Build_Sys (self s) w2)
                [EvPoll k c f (Ret v); EvFound k c f p]
          end
      end
  end.
Proof.
  unfold resolve_pair, condition, found, remove_pair, exception, reported.
  run_monad.
  destruct (call_condition c k (world s)) as [[v|e] w1]; cbn.
  - destruct (truthy v) as [p|]; cbn; [|done].
    by destruct (call_function f p w1) as [[[]|e] w2].
  - destruct (is_Exception e); cbn; [|done]. by destruct (pl (self s)).
Qed.

Lemma pop_if_empty_unfold (k : Key) s :
  pop_if_empty k s =
  Build_Out (Ret tt)
    (Build_Sys
       (match missing (self s) !! k with
        | Some fs =>
            if decide (fs = ∅)
            then with_missing (delete k (missing (self s))) (self s)
            else self s
        | None => self s
        end) (world s)) [].
Proof.
  unfold pop_if_empty. run_monad. destruct s as [c w]; cbn.
  destruct (missing c !! k) as [fs|]; [|done].
  by destruct (decide (fs = ∅)).
Qed.

Lemma resolve_key_unfold (k : Key) (fs : gset (Fn * Fn)) s :
  resolve_key (k, fs) s =
  let o := foreach (elements fs) (resolve_pair k) s in
  match out_res o with
  | Ret ys =>
      Build_Out (Ret ys) (out_sys (pop_if_empty k (out_sys o))) (out_log o)
  | Raise e => Build_Out (Raise e) (out_sys o) (out_log o)
  end.
Proof.
  unfold resolve_key. rewrite bind_unfold.
  destruct (out_res (foreach (elements fs) (resolve_pair k) s)); [|done].
  rewrite bind_unfold, pop_if_empty_unfold. cbn. by rewrite !app_nil_r.
Qed.

Lemma resolve_missing_unfold s :
  resolve_missing s = foreach (map_to_list (missing (self s))) resolve_key s.
Proof.
  unfold resolve_missing. run_monad.
  by destruct (foreach _ resolve_key s) as [[?|?] ? ?].
Qed.

Lemma settles_refl (c : ConfigLoader V) : settles c c.
Proof. by repeat split. Qed.

Lemma settles_trans (c1 c2 c3 : ConfigLoader V) :
  settles c1 c2 → settles c2 c3 → settles c1 c3.
Proof.
  intros (? & ? & ? & ? & H12) (? & ? & ? & ? & H23).
  split_and!; try congruence. intros k pair Hp. by apply H12, H23.
Qed.

Lemma resolve_pair_settles (k : Key) (pair : Fn * Fn) s :
  settles (self s) (self (out_sys (resolve_pair k pair s))) ∧
  Forall from_resolution (out_log (resolve_pair k pair s)).
Proof.
  destruct pair as [c f]. rewrite resolve_pair_unfold. cbn.
  destruct (call_condition c k (world s)) as [[v|e] w1]; cbn.
  - destruct (truthy v) as [p|]; cbn.
    + destruct (call_function f p w1) as [[[]|e] w2]; cbn.
      * split; [|by repeat constructor].
        split_and!; try done. intros k0 pair0 Hp.
        by apply pending_remove in Hp as [Hp _].
      * split; [apply settles_refl|by repeat constructor].
    + split; [apply settles_refl|by repeat constructor].
  - destruct (reported e (self s)); cbn;
      (split; [apply settles_refl|by repeat constructor]).
Qed.

Lemma pop_if_empty_settles (k : Key) s :
  settles (self s) (self (out_sys (pop_if_empty k s))).
Proof.
  rewrite pop_if_empty_unfold. cbn.
  destruct (missing (self s) !! k) as [fs|] eqn:Hk; [|apply settles_refl].
  destruct (decide (fs = ∅)) as [->|]; [|apply settles_refl].
  split_and!; try done. intros k0 pair0 Hp. by eapply pending_pop.
Qed.

Lemma resolve_key_settles (item : Key * gset (Fn * Fn)) s :
  settles (self s) (self (out_sys (resolve_key item s))) ∧
  Forall from_resolution (out_log (resolve_key item s)).
Proof.
  destruct item as [k fs]. rewrite resolve_key_unfold. cbn.
  destruct (foreach_preserves (λ s', settles (self s) (self s'))
              from_resolution (elements fs) (resolve_pair k) s) as [Hs Hl].
  { apply settles_refl. }
  { intros pair s0 _ Hs0. destruct (resolve_pair_settles k pair s0).
    split; [by eapply settles_trans|done]. }
  destruct (out_res (foreach (elements fs) (resolve_pair k) s)); cbn;
    [|done].
  split; [|done]. eapply settles_trans; [done|apply pop_if_empty_settles].
Qed.

(** Missing resolution leaves the registry of paths, the cache, the
    logger and the interval alone, makes nothing pending that was not,
    and logs nothing but its own events. *)
Lemma resolve_missing_always s :
  let o := resolve_missing s in
  settles (self s) (self (out_sys o)) ∧ Forall from_resolution (out_log o).
Proof.
  cbn. rewrite resolve_missing_unfold.
  apply (foreach_preserves (λ s', settles (self s) (self s'))
           from_resolution); [apply settles_refl|].
  intros item s0 _ Hs0. destruct (resolve_key_settles item s0).
  split; [by eapply settles_trans|done].
Qed.

Lemma resolve_pair_local (k k' : Key) (pair : Fn * Fn) s :
  k' ≠ k →
  missing (self (out_sys (resolve_pair k pair s))) !! k'
  = missing (self s) !! k'.
Proof.
  intros Hne. destruct pair as [c f]. rewrite resolve_pair_unfold. cbn.
  destruct (call_condition c k (world s)) as [[v|e] w1]; cbn.
  - destruct (truthy v) as [p|]; cbn; [|done].
    destruct (call_function f p w1) as [[[]|e] w2]; cbn; [|done].
    by rewrite lookup_alter_ne.
  - by destruct (reported e (self s)).
Qed.

Lemma pop_if_empty_local (k k' : Key) s :
  k' ≠ k →
  missing (self (out_sys (pop_if_empty k s))) !! k' = missing (self s) !! k'.
Proof.
  intros Hne. rewrite pop_if_empty_unfold. cbn.
  destruct (missing (self s) !! k) as [fs|]; [|done].
  destruct (decide (fs = ∅)); [|done]. cbn. by rewrite lookup_delete_ne.
Qed.

(** Handling a key changes the pending set of no other key. *)
Lemma resolve_key_local (k k' : Key) (fs : gset (Fn * Fn)) s :
  k' ≠ k →
  missing (self (out_sys (resolve_key (k, fs) s))) !! k'
  = missing (self s) !! k'.
Proof.
  intros Hne. rewrite resolve_key_unfold. cbn.
  destruct (foreach_preserves
    (λ s', missing (self s') !! k' = missing (self s) !! k') (λ _, True)
    (elements fs) (resolve_pair k) s) as [Hsame _]; [done| |].
  { intros pair s0 _ Hs0. split; [|by apply Forall_forall].
    by rewrite resolve_pair_local. }
  destruct (out_res (foreach (elements fs) (resolve_pair k) s)); cbn;
    [|done].
  by rewrite pop_if_empty_local.
Qed.

(** Condition functions and callbacks are called for pending pairs
    only. *)
Lemma resolve_missing_polls s :
  Forall (polls_pending (self s)) (out_log (resolve_missing s)).
Proof.
  rewrite resolve_missing_unfold.
  apply (foreach_preserves (λ _, True) (polls_pending (self s))); [done|].
  intros [k fs] s0 Hin _. split; [done|].
  apply elem_of_map_to_list in Hin.
  rewrite resolve_key_unfold. cbn.
  destruct (foreach_preserves (λ _, True) (polls_pending (self s))
              (elements fs) (resolve_pair k) s0) as [_ Hlog]; [done| |].
  { intros [c f] s1 Hpair _. split; [done|].
    apply elem_of_elements in Hpair.
    assert (pending k (c, f) (self s)) as Hp by by exists fs.
    rewrite resolve_pair_unfold. cbn.
    destruct (call_condition c k (world s1)) as [[v|e] w1]; cbn.
    - destruct (truthy v) as [p|]; cbn; [|by repeat constructor].
      destruct (call_function f p w1) as [[[]|e] w2]; cbn;
        by repeat constructor.
    - destruct (reported e (self s1)); cbn; by repeat constructor. }
  by destruct (out_res (foreach (elements fs) (resolve_pair k) s0)).
Qed.


(** Without a logger, the first failing condition function ends the
    phase with its exception. *)
Lemma resolve_missing_fatal s :
  pl (self s) = None →
  fatal (raised (out_res (resolve_missing s))) (out_log (resolve_missing s)).
Proof.
  intros Hpl. rewrite resolve_missing_unfold.
  apply (fatal_foreach (λ s', pl (self s') = None)); [done|].
  intros [k fs] s0 Hpl0. rewrite resolve_key_unfold. cbn.
  assert (fatal (raised (out_res (foreach (elements fs) (resolve_pair k) s0)))
                (out_log (foreach (elements fs) (resolve_pair k) s0))) as Hf.
  { apply (fatal_foreach (λ s', pl (self s') = None)); [done|].
    intros [c f] s1 Hpl1. rewrite resolve_pair_unfold. cbn.
    destruct (call_condition c k (world s1)) as [[v|e] w1]; cbn.
    - destruct (truthy v) as [p|]; cbn.
      + destruct (call_function f p w1) as [[[]|e] w2]; cbn;
          (split; [apply fatal_quiet; by repeat constructor|done]).
      + split; [apply fatal_quiet; by repeat constructor|done].
    - rewrite (reported_detached e _ Hpl1). cbn.
      split; [|done]. intros ev e' Hin Hev.
      apply list_elem_of_singleton in Hin as ->. cbn in Hev. simplify_eq.
      split; [done|]. by exists []. }
  destruct (resolve_key_settles (k, fs) s0) as [(Hpl' & _) _].
  rewrite resolve_key_unfold in Hpl'. cbn in Hpl'.
  destruct (out_res (foreach (elements fs) (resolve_pair k) s0)); cbn in *.
  - split; [done|]. intros _ _. congruence.
  - split; [done|]. done.
Qed.
End Resolution.

Section ResolutionInvariant.
Context {W V : Type} `{!Collaborators W V}.
Implicit Types s : Sys W V.

Lemma missing_ok_alt (c : ConfigLoader V) :
  missing_ok c ↔ ∀ k, missing c !! k ≠ Some ∅.
Proof.
  unfold missing_ok. split.
  - intros H k Hk. by apply (H k ∅).
  - intros H k fs Hk ->. by apply (H k).
Qed.

Lemma pop_if_empty_fixes (k : Key) s :
  missing (self (out_sys (pop_if_empty k s))) !! k ≠ Some ∅.
Proof.
  rewrite pop_if_empty_unfold. cbn.
  destruct (missing (self s) !! k) as [fs|] eqn:Hk; [|congruence].
  destruct (decide (fs = ∅)); cbn; [by rewrite lookup_delete_eq|congruence].
Qed.

(** When the loop over the pairs of [k] is left by an exception, the
    pair that was being handled is still pending. *)
Lemma resolve_pairs_raise (k : Key) (fs : gset (Fn * Fn)) s :
  missing (self s) !! k = Some fs →
  let o := foreach (elements fs) (resolve_pair k) s in
  match out_res o with
  | Ret _ => True
  | Raise _ => ∃ cur, missing (self (out_sys o)) !! k = Some cur ∧ cur ≠ ∅
  end.
Proof.
  intros Hk. cbn.
  set (I := λ (rest : list (Fn * Fn)) (s' : Sys W V) (_ : list (Event V)),
    NoDup rest ∧
    ∃ cur, missing (self s') !! k = Some cur ∧ ∀ x, x ∈ rest → x ∈ cur).
  set (E := λ (_ : Exn) (s' : Sys W V) (_ : list (Event V)),
    ∃ cur, missing (self s') !! k = Some cur ∧ cur ≠ ∅).
  pose proof (foreach_inv I E (elements fs) (resolve_pair k) s) as H.
  destruct (out_res (foreach (elements fs) (resolve_pair k) s)); [done|].
  apply H; clear H.
  { split; [apply NoDup_elements|]. exists fs. split; [done|].
    intros x. by rewrite elem_of_elements. }
  intros [c f] rest s0 log0 (Hnd & cur & Hcur & Hsub).
  apply NoDup_cons in Hnd as [Hx Hnd].
  assert ((c, f) ∈ cur) as Hin by (apply Hsub; by left).
  assert (cur ≠ ∅) as Hne by set_solver.
  assert (∀ x, x ∈ rest → x ∈ cur) as Hsub' by (intros x ?; apply Hsub; by right).
  rewrite resolve_pair_unfold. cbn.
  destruct (call_condition c k (world s0)) as [[v|err] w1]; cbn.
  - destruct (truthy v) as [p|]; cbn.
    + destruct (call_function f p w1) as [[[]|err] w2]; cbn.
      * split; [done|]. exists (cur ∖ {[(c, f)]}). cbn.
        rewrite lookup_alter_eq, Hcur. split; [done|].
        intros x Hxr. apply elem_of_difference. split; [by apply Hsub'|].
        apply not_elem_of_singleton. by intros ->.
      * by exists cur.
    + split; [done|]. by exists cur.
  - destruct (reported err (self s0)); cbn.
    + split; [done|]. by exists cur.
    + by exists cur.
Qed.

(** Missing resolution keeps every pending set non-empty, also when it
    is left by an exception; when it returns, no empty set is left
    whatever it started with. *)
Lemma resolve_missing_ok s :
  completes resolve_missing s ∨ missing_ok (self s) →
  missing_ok (self (out_sys (resolve_missing s))).
Proof.
  unfold completes. rewrite resolve_missing_unfold.
  set (l := map_to_list (missing (self s))).
  set (I := λ (rest : list (Key * gset (Fn * Fn))) (s' : Sys W V)
             (_ : list (Event V)),
    NoDup rest.*1 ∧
    (∀ k fs, (k, fs) ∈ rest →
       missing (self s') !! k = Some fs ∧ missing (self s) !! k = Some fs) ∧
    (∀ k, k ∉ rest.*1 → missing (self s') !! k ≠ Some ∅)).
  set (E := λ (_ : Exn) (s' : Sys W V) (_ : list (Event V)),
    missing_ok (self s) → missing_ok (self s')).
  assert (match out_res (foreach l resolve_key s) with
          | Ret _ => I [] (out_sys (foreach l resolve_key s))
                       (out_log (foreach l resolve_key s))
          | Raise err => E err (out_sys (foreach l resolve_key s))
                           (out_log (foreach l resolve_key s))
          end) as Hend.
  { apply foreach_inv.
    - split_and!.
      + apply NoDup_fst_map_to_list.
      + intros k fs Hin. by apply elem_of_map_to_list in Hin.
      + intros k Hk Hempty. apply Hk.
        apply list_elem_of_fmap. exists (k, ∅). split; [done|].
        by apply elem_of_map_to_list.
    - intros [k fs] rest s0 log0 (Hnd & Hsnap & Hdone).
      cbn in Hnd. apply NoDup_cons in Hnd as [Hk Hnd].
      destruct (Hsnap k fs) as [Hk0 Hks]; [by left|].
      pose proof (resolve_pairs_raise k fs s0 Hk0) as Hraise. cbn in Hraise.
      assert (∀ k', k' ≠ k →
        missing (self (out_sys (resolve_key (k, fs) s0))) !! k'
        = missing (self s0) !! k') as Hlocal.
      { intros k' Hne. by apply resolve_key_local. }
      rewrite resolve_key_unfold in *. cbn in *.
      destruct (out_res (foreach (elements fs) (resolve_pair k) s0)); cbn in *.
      + split_and!; [done| |].
        * intros k' fs' Hin.
          assert (k' ≠ k) as Hne.
          { intros ->. apply Hk. apply list_elem_of_fmap.
            by exists (k, fs'). }
          rewrite Hlocal by done. apply Hsnap. by right.
        * intros k' Hk'. destruct (decide (k' = k)) as [->|Hne].
          -- apply pop_if_empty_fixes.
          -- rewrite Hlocal by done. apply Hdone.
             apply not_elem_of_cons. done.
      + intros Hok. apply missing_ok_alt. intros k'.
        destruct (decide (k' = k)) as [->|Hne].
        * destruct Hraise as (cur & -> & Hcur). congruence.
        * rewrite Hlocal by done.
          destruct (decide (k' ∈ rest.*1)) as [Hin|Hnin].
          -- apply list_elem_of_fmap in Hin as ([k'' fs'] & -> & Hin).
             cbn in *. destruct (Hsnap k'' fs') as [-> Hs']; [by right|].
             intros ?. simplify_eq. by eapply Hok.
          -- apply Hdone. apply not_elem_of_cons. done. }
  intros Hpre.
  destruct (out_res (foreach l resolve_key s)) as [ys|err].
  - destruct Hend as (_ & _ & Hdone). apply missing_ok_alt.
    intros k. apply Hdone, not_elem_of_nil.
  - apply Hend. destruct Hpre as [[ys Hys]|Hok]; [done|done].
Qed.
End ResolutionInvariant.

Section ResolutionOutcome.
Context {W V : Type} `{!Collaborators W V}.
Implicit Types s : Sys W V.
Variables (k : Key) (c f : Fn).

Lemma concerns_none (log : list (Event V)) :
  Forall (λ ev, concerns k c f ev = false) log →
  List.filter (concerns k c f) log = [].
Proof.
  induction 1 as [|ev log Hev _ IH]; [done|]. cbn. by rewrite Hev.
Qed.

(** Later events that are about other pairs do not change what was
    done about this one. *)
Lemma poll_outcome_extend r (log log' : list (Event V)) cl cl' :
  poll_outcome k c f r log cl →
  List.filter (concerns k c f) log' = [] →
  (pending k (c, f) cl' ↔ pending k (c, f) cl) →
  poll_outcome k c f r (log ++ log') cl'.
Proof.
  unfold poll_outcome. intros Hout Hq Hp.
  destruct r as [v|e]; [destruct (truthy v)|];
    rewrite List.filter_app, Hq, app_nil_r, Hp; [done|done|].
  destruct Hout as (? & ? & ?). split_and!; [done|done|].
  apply elem_of_app. by left.
Qed.

Lemma resolve_pair_other (k' : Key) (pair' : Fn * Fn) s :
  (k', pair') ≠ (k, (c, f)) →
  Forall (λ ev, concerns k c f ev = false) (out_log (resolve_pair k' pair' s)) ∧
  (pending k (c, f) (self (out_sys (resolve_pair k' pair' s)))
   ↔ pending k (c, f) (self s)).
Proof.
  intros Hne. destruct pair' as [c' f'].
  assert (∀ r, concerns k c f (EvPoll k' c' f' r : Event V) = false) as Hpoll.
  { intros r. unfold concerns. cbn. rewrite orb_false_r.
    apply bool_decide_eq_false. naive_solver. }
  assert (∀ p, concerns k c f (EvFound k' c' f' p : Event V) = false) as Hfound.
  { intros p. unfold concerns. cbn.
    apply bool_decide_eq_false. naive_solver. }
  rewrite resolve_pair_unfold. cbn.
  destruct (call_condition c' k' (world s)) as [[v|e] w1]; cbn.
  - destruct (truthy v) as [p|]; cbn.
    + destruct (call_function f' p w1) as [[[]|e] w2]; cbn.
      * split; [by repeat constructor|].
        rewrite pending_remove. naive_solver.
      * split; [by repeat constructor|done].
    + split; [by repeat constructor|done].
  - destruct (reported e (self s)); cbn; (split; [by repeat constructor|done]).
Qed.

Lemma resolve_pair_target s :
  pending k (c, f) (self s) →
  match out_res (resolve_pair k (c, f) s) with
  | Ret _ =>
      ∃ r, poll_outcome k c f r (out_log (resolve_pair k (c, f) s))
             (self (out_sys (resolve_pair k (c, f) s)))
  | Raise _ => True
  end.
Proof.
  intros Hp. rewrite resolve_pair_unfold. cbn.
  assert (bool_decide (k = k ∧ c = c ∧ f = f) = true) as Hsame.
  { by apply bool_decide_eq_true. }
  destruct (call_condition c k (world s)) as [[v|e] w1]; cbn.
  - destruct (truthy v) as [p|] eqn:Hv; cbn.
    + destruct (call_function f p w1) as [[[]|e] w2]; cbn; [|done].
      exists (Ret v). unfold poll_outcome. rewrite Hv.
      unfold concerns. cbn. rewrite Hsame. cbn. split; [done|].
      rewrite pending_remove. naive_solver.
    + exists (Ret v). unfold poll_outcome. rewrite Hv.
      unfold concerns. cbn. by rewrite Hsame.
  - destruct (reported e (self s)); cbn; [|done].
    exists (Raise e). unfold poll_outcome, concerns. cbn. rewrite Hsame. cbn.
    split_and!; [done|done|]. apply list_elem_of_further, list_elem_of_here.
Qed.

Lemma pop_if_empty_pending (k' : Key) s :
  pending k (c, f) (self (out_sys (pop_if_empty k' s)))
  ↔ pending k (c, f) (self s).
Proof.
  rewrite pop_if_empty_unfold. cbn.
  destruct (missing (self s) !! k') as [fs|] eqn:Hk; [|done].
  destruct (decide (fs = ∅)) as [->|]; [|done]. by apply pending_pop.
Qed.

(** Handling another key says nothing about this pair. *)
Lemma resolve_key_other (k' : Key) (fs' : gset (Fn * Fn)) s :
  k' ≠ k →
  Forall (λ ev, concerns k c f ev = false) (out_log (resolve_key (k', fs') s)) ∧
  (pending k (c, f) (self (out_sys (resolve_key (k', fs') s)))
   ↔ pending k (c, f) (self s)).
Proof.
  intros Hne. rewrite resolve_key_unfold. cbn.
  destruct (foreach_preserves
    (λ s', pending k (c, f) (self s') ↔ pending k (c, f) (self s))
    (λ ev, concerns k c f ev = false)
    (elements fs') (resolve_pair k') s) as [Hp Hq]; [done| |].
  { intros pair' s0 _ Hs0.
    destruct (resolve_pair_other k' pair' s0) as [? Hp0]; [naive_solver|].
    split; [|done]. by rewrite Hp0. }
  destruct (out_res (foreach (elements fs') (resolve_pair k') s)); cbn;
    [|done].
  split; [done|]. by rewrite pop_if_empty_pending.
Qed.

(** Handling the key of a pending pair that is in the snapshot polls
    it once. *)
Lemma resolve_key_target (fs : gset (Fn * Fn)) s :
  (c, f) ∈ fs → pending k (c, f) (self s) →
  match out_res (resolve_key (k, fs) s) with
  | Ret _ =>
      ∃ r, poll_outcome k c f r (out_log (resolve_key (k, fs) s))
             (self (out_sys (resolve_key (k, fs) s)))
  | Raise _ => True
  end.
Proof.
  intros Hin Hp. rewrite resolve_key_unfold. cbn.
  set (I := λ (rest : list (Fn * Fn)) (s' : Sys W V) (log : list (Event V)),
    NoDup rest ∧
    (((c, f) ∈ rest ∧ List.filter (concerns k c f) log = [] ∧
      pending k (c, f) (self s'))
     ∨ (((c, f) ∉ rest) ∧ ∃ r, poll_outcome k c f r log (self s')))).
  set (E := λ (_ : Exn) (_ : Sys W V) (_ : list (Event V)), True).
  set (l := elements fs).
  assert (match out_res (foreach l (resolve_pair k) s) with
          | Ret _ => I [] (out_sys (foreach l (resolve_pair k) s))
                       (out_log (foreach l (resolve_pair k) s))
          | Raise err => E err (out_sys (foreach l (resolve_pair k) s))
                           (out_log (foreach l (resolve_pair k) s))
          end) as Hend.
  { apply foreach_inv.
    - split; [apply NoDup_elements|]. left.
      split_and!; [by apply elem_of_elements|done|done].
    - intros x rest s0 log0 (Hnd & Hcase).
      apply NoDup_cons in Hnd as [Hx Hnd].
      destruct (decide (x = (c, f))) as [->|Hne].
      + destruct Hcase as [(_ & Hq & Hp0)|[Hnin _]];
          [|exfalso; apply Hnin; by left].
        pose proof (resolve_pair_target s0 Hp0) as Htarget.
        destruct (out_res (resolve_pair k (c, f) s0)); [|done].
        split; [done|]. right. split; [done|].
        destruct Htarget as [r Hout]. exists r.
        unfold poll_outcome in *. rewrite List.filter_app, Hq. cbn.
        destruct r as [v|err]; [done|].
        destruct Hout as (? & ? & ?). split_and!; [done|done|].
        apply elem_of_app. by right.
      + destruct (resolve_pair_other k x s0) as [Hq' Hp']; [naive_solver|].
        apply concerns_none in Hq'.
        destruct (out_res (resolve_pair k x s0)); [|done].
        split; [done|].
        destruct Hcase as [(Hxin & Hq & Hp0)|[Hnin [r Hout]]].
        * left. split_and!.
          -- apply elem_of_cons in Hxin as [?|?]; [congruence|done].
          -- by rewrite List.filter_app, Hq, Hq'.
          -- by apply Hp'.
        * right. split.
          -- intros ?. apply Hnin. by right.
          -- exists r. by eapply poll_outcome_extend. }
  destruct (out_res (foreach l (resolve_pair k) s)); [|done]. cbn.
  destruct Hend as (_ & [(Hnil & _)|[_ [r Hout]]]);
    [by apply elem_of_nil in Hnil|].
  exists r. rewrite <- (app_nil_r (out_log _)).
  eapply poll_outcome_extend; [exact Hout|done|apply pop_if_empty_pending].
Qed.

(** A pair that is pending when missing resolution starts is polled
    exactly once in it. *)
Lemma resolve_missing_outcome s :
  pending k (c, f) (self s) → completes resolve_missing s →
  ∃ r, poll_outcome k c f r (out_log (resolve_missing s))
         (self (out_sys (resolve_missing s))).
Proof.
  intros (fs & Hk & Hin). unfold completes.
  rewrite resolve_missing_unfold.
  set (l := map_to_list (missing (self s))).
  set (I := λ (rest : list (Key * gset (Fn * Fn))) (s' : Sys W V)
             (log : list (Event V)),
    NoDup rest.*1 ∧
    ((k, fs) ∈ rest ∧ List.filter (concerns k c f) log = [] ∧
     pending k (c, f) (self s')
     ∨ (k ∉ rest.*1) ∧ ∃ r, poll_outcome k c f r log (self s'))).
  set (E := λ (_ : Exn) (_ : Sys W V) (_ : list (Event V)), True).
  assert (match out_res (foreach l resolve_key s) with
          | Ret _ => I [] (out_sys (foreach l resolve_key s))
                       (out_log (foreach l resolve_key s))
          | Raise err => E err (out_sys (foreach l resolve_key s))
                           (out_log (foreach l resolve_key s))
          end) as Hend.
  { apply foreach_inv.
    - split; [apply NoDup_fst_map_to_list|]. left.
      split_and!; [by apply elem_of_map_to_list|done|by exists fs].
    - intros [k' fs'] rest s0 log0 (Hnd & Hcase).
      cbn in Hnd. apply NoDup_cons in Hnd as [Hk' Hnd].
      destruct (decide (k' = k)) as [->|Hne].
      + destruct Hcase as [(Hkin & Hq & Hp0)|[Hnin _]];
          [|exfalso; apply Hnin; by left].
        assert (fs' = fs) as ->.
        { apply elem_of_cons in Hkin as [?|Hkin]; [congruence|].
          exfalso. apply Hk'. apply list_elem_of_fmap. by exists (k, fs). }
        pose proof (resolve_key_target fs s0 Hin Hp0) as Htarget.
        destruct (out_res (resolve_key (k, fs) s0)); [|done].
        split; [done|]. right. split; [done|].
        destruct Htarget as [r Hout]. exists r.
        unfold poll_outcome in *. rewrite List.filter_app, Hq. cbn.
        destruct r as [v|err]; [done|].
        destruct Hout as (? & ? & ?). split_and!; [done|done|].
        apply elem_of_app. by right.
      + destruct (resolve_key_other k' fs' s0) as [Hq' Hp']; [done|].
        apply concerns_none in Hq'.
        destruct (out_res (resolve_key (k', fs') s0)); [|done].
        split; [done|].
        destruct Hcase as [(Hkin & Hq & Hp0)|[Hnin [r Hout]]].
        * left. split_and!.
          -- apply elem_of_cons in Hkin as [?|?]; [congruence|done].
          -- by rewrite List.filter_app, Hq, Hq'.
          -- by apply Hp'.
        * right. split.
          -- intros ?. apply Hnin. by right.
          -- exists r. by eapply poll_outcome_extend. }
  intros [ys Hys]. rewrite Hys in Hend.
  destruct Hend as (_ & [(Hnil & _)|[_ Hout]]);
    [by apply elem_of_nil in Hnil|done].
Qed.
End ResolutionOutcome.

(** * One cycle of the worker loop *)

Section Cycle.
Context {W V : Type} `{!Collaborators W V}.
Implicit Types s : Sys W V.

Lemma wait_unfold s :
  wait s =
  Build_Out (Ret tt)
    (Build_Sys (self s)
       (if shutdown_is_set (world s) then world s
        else shutdown_blocked (interval (self s)) (world s)))
    [EvWait (interval (self s))].
Proof. reflexivity. Qed.

(** The three working phases in sequence; an exception ends the work
    where it is raised. *)
Lemma work_unfold s :
  work s =
  let o1 := detect_changes s in
  match out_res o1 with
  | Raise e => Build_Out (Raise e) (out_sys o1) (out_log o1)
  | Ret changed =>
      let o2 := resolve_missing (out_sys o1) in
      match out_res o2 with
      | Raise e => Build_Out (Raise e) (out_sys o2) (out_log o1 ++ out_log o2)
      | Ret resolved =>
          let o3 := reload (changed ++ resolved) (out_sys o2) in
          Build_Out (out_res o3) (out_sys o3)
            (out_log o1 ++ out_log o2 ++ out_log o3)
      end
  end.
Proof.
  unfold work. rewrite bind_unfold. cbn zeta.
  destruct (out_res (detect_changes s)) as [changed|e]; [|done].
  rewrite bind_unfold.
  by destruct (out_res (resolve_missing (out_sys (detect_changes s)))).
Qed.

(** A cycle is its work followed by the wait. *)
Lemma cycle_work s :
  cycle s =
  match out_res (work s) with
  | Raise e => Build_Out (Raise e) (out_sys (work s)) (out_log (work s))
  | Ret _ =>
      Build_Out (Ret tt) (out_sys (wait (out_sys (work s))))
        (out_log (work s) ++ [EvWait (interval (self (out_sys (work s))))])
  end.
Proof. unfold cycle. by rewrite bind_unfold. Qed.

(** The four phases in sequence; an exception ends the cycle where it
    is raised. *)
Lemma cycle_unfold s :
  cycle s =
  let o1 := detect_changes s in
  match out_res o1 with
  | Raise e => Build_Out (Raise e) (out_sys o1) (out_log o1)
  | Ret changed =>
      let o2 := resolve_missing (out_sys o1) in
      match out_res o2 with
      | Raise e => Build_Out (Raise e) (out_sys o2) (out_log o1 ++ out_log o2)
      | Ret resolved =>
          let o3 := reload (changed ++ resolved) (out_sys o2) in
          match out_res o3 with
          | Raise e =>
              Build_Out (Raise e) (out_sys o3)
                (out_log o1 ++ out_log o2 ++ out_log o3)
          | Ret _ =>
              Build_Out (Ret tt)
                (Build_Sys (self (out_sys o3))
                   (world (out_sys (wait (out_sys o3)))))
                (out_log o1 ++ out_log o2 ++ out_log o3
                 ++ [EvWait (interval (self (out_sys o3)))])
          end
      end
  end.
Proof.
  rewrite cycle_work, work_unfold. cbn zeta.
  destruct (out_res (detect_changes s)) as [changed|e]; [|done].
  destruct (out_res (resolve_missing (out_sys (detect_changes s))))
    as [resolved|e]; [|done].
  cbn.
  destruct (out_res (reload (changed ++ resolved)
              (out_sys (resolve_missing (out_sys (detect_changes s))))))
    as [[]|e]; [|done].
  by rewrite <- !app_assoc.
Qed.

Lemma detection_polls (cl : ConfigLoader V) (log : list (Event V)) :
  Forall from_detection log → Forall (polls_pending cl) log.
Proof. intros H. eapply Forall_impl; [exact H|]. by intros []. Qed.

Lemma reload_polls (cl : ConfigLoader V) (log : list (Event V)) :
  Forall from_reload log → Forall (polls_pending cl) log.
Proof. intros H. eapply Forall_impl; [exact H|]. by intros []. Qed.

Lemma detection_quiet (log : list (Event V)) :
  Forall from_detection log → Forall (λ ev, failure ev = None) log.
Proof. intros H. eapply Forall_impl; [exact H|]. by intros []. Qed.

Lemma detection_loads (p : Path) (log : list (Event V)) :
  Forall from_detection log → last_loaded p log = None.
Proof. by apply last_loaded_none. Qed.

Lemma resolution_loads (p : Path) (log : list (Event V)) :
  Forall from_resolution log → last_loaded p log = None.
Proof. by apply last_loaded_none. Qed.

(** What a cycle does to the loader, however it ends: the logger, the
    interval and the registry of paths stay, nothing becomes pending,
    and a cached value changes only to the last value loaded for its
    path. *)
Lemma cycle_always s :
  let o := cycle s in
  pl (self (out_sys o)) = pl (self s) ∧
  interval (self (out_sys o)) = interval (self s) ∧
  watched (self (out_sys o)) = watched (self s) ∧
  (∀ k pair, pending k pair (self (out_sys o)) → pending k pair (self s)) ∧
  (∀ p, loaded (self (out_sys o)) !! p =
        match last_loaded p (out_log o) with
        | Some v => Some v
        | None => loaded (self s) !! p
        end) ∧
  Forall (polls_pending (self s)) (out_log o).
Proof.
  cbn zeta. rewrite cycle_unfold. cbn zeta.
  destruct (detect_changes_always s) as [Hself1 Hlog1].
  destruct (out_res (detect_changes s)) as [changed|e]; cbn.
  2:{ rewrite Hself1. split_and!; try done.
      - intros p. by rewrite detection_loads.
      - by apply detection_polls. }
  destruct (resolve_missing_always (out_sys (detect_changes s)))
    as [(Hpl2 & Hint2 & Hwat2 & Hld2 & Hpend2) Hlog2].
  pose proof (resolve_missing_polls (out_sys (detect_changes s))) as Hpoll2.
  rewrite Hself1 in *.
  destruct (out_res (resolve_missing (out_sys (detect_changes s))))
    as [resolved|e]; cbn.
  2:{ split_and!; try done.
      - intros p. rewrite last_loaded_app, Hld2.
        by rewrite resolution_loads, detection_loads.
      - apply Forall_app. split; [by apply detection_polls|done]. }
  destruct (reload_always (changed ++ resolved)
              (out_sys (resolve_missing (out_sys (detect_changes s)))))
    as (Hpl3 & Hint3 & Hwat3 & Hmis3 & Hlog3 & Hld3).
  assert (∀ p log',
    last_loaded p (out_log (detect_changes s)
                   ++ out_log (resolve_missing (out_sys (detect_changes s)))
                   ++ log') = last_loaded p log') as Hlast.
  { intros p log'. rewrite !last_loaded_app.
    rewrite (resolution_loads p (out_log (resolve_missing _))) by done.
    rewrite (detection_loads p (out_log (detect_changes s))) by done.
    by destruct (last_loaded p log'). }
  assert (∀ k pair,
    pending k pair (self (out_sys (reload (changed ++ resolved)
      (out_sys (resolve_missing (out_sys (detect_changes s)))))))
    → pending k pair (self s)) as Hpend3.
  { intros k pair. unfold pending. rewrite Hmis3. apply Hpend2. }
  destruct (out_res (reload (changed ++ resolved)
              (out_sys (resolve_missing (out_sys (detect_changes s))))))
    as [[]|e]; cbn.
  - split_and!; try congruence; try done.
    + intros p. rewrite Hlast, last_loaded_app. cbn.
      rewrite Hld3, Hld2. done.
    + rewrite !Forall_app. split_and!;
        [by apply detection_polls|done|by apply reload_polls
        |by repeat constructor].
  - split_and!; try congruence; try done.
    + intros p. rewrite Hlast, Hld3, Hld2. done.
    + rewrite !Forall_app. split_and!;
        [by apply detection_polls|done|by apply reload_polls].
Qed.

(** Both registries keep their invariant through a cycle, however it
    ends. *)
Lemma cycle_ok s :
  registry_ok (self s) → missing_ok (self s) →
  registry_ok (self (out_sys (cycle s))) ∧
  missing_ok (self (out_sys (cycle s))).
Proof.
  intros Hreg Hmis. split.
  { destruct (cycle_always s) as (_ & _ & Hwat & _).
    unfold registry_ok. by rewrite Hwat. }
  rewrite cycle_unfold. cbn zeta.
  destruct (detect_changes_always s) as [Hself1 _].
  destruct (out_res (detect_changes s)) as [changed|e]; cbn;
    [|by rewrite Hself1].
  pose proof (resolve_missing_ok (out_sys (detect_changes s))) as Hok2.
  rewrite Hself1 in Hok2. specialize (Hok2 (or_intror Hmis)).
  destruct (out_res (resolve_missing (out_sys (detect_changes s))))
    as [resolved|e]; cbn; [|done].
  destruct (reload_always (changed ++ resolved)
              (out_sys (resolve_missing (out_sys (detect_changes s)))))
    as (_ & _ & _ & Hmis3 & _).
  unfold missing_ok in *.
  destruct (out_res (reload (changed ++ resolved)
              (out_sys (resolve_missing (out_sys (detect_changes s))))))
    as [[]|e]; cbn; by rewrite Hmis3.
Qed.

(** Without a logger the reload phase ends with the first loader
    failure. *)
Lemma reload_fatal (toload : list Path) s :
  pl (self s) = None →
  fatal (raised (out_res (reload toload s))) (out_log (reload toload s)).
Proof.
  intros Hpl. rewrite reload_unfold. cbn.
  pose proof (fatal_foreach (λ s', pl (self s') = None) toload reload_path s
                Hpl) as H.
  assert (fatal (raised (out_res (foreach toload reload_path s)))
                (out_log (foreach toload reload_path s))) as Hf.
  { apply H. intros p s0 Hpl0. rewrite reload_path_unfold. cbn.
    destruct (call_load p (world s0)) as [[v|e] w]; cbn.
    - split; [apply fatal_quiet; by repeat constructor|done].
    - rewrite (reported_detached e _ Hpl0). cbn.
      split; [|done]. intros ev e' Hin Hev.
      apply list_elem_of_singleton in Hin as ->. cbn in Hev. simplify_eq.
      split; [done|]. by exists []. }
  by destruct (out_res (foreach toload reload_path s)).
Qed.

(** Without a logger a cycle ends with the first failure of a condition
    function or of the loader: the failure is the last event of the
    cycle and its exception leaves the cycle. *)
Lemma cycle_fatal s :
  pl (self s) = None →
  fatal (raised (out_res (cycle s))) (out_log (cycle s)).
Proof.
  intros Hpl. rewrite cycle_unfold. cbn zeta.
  destruct (detect_changes_always s) as [Hself1 Hlog1].
  apply detection_quiet in Hlog1.
  destruct (out_res (detect_changes s)) as [changed|e]; cbn;
    [|by apply fatal_quiet].
  pose proof (resolve_missing_fatal (out_sys (detect_changes s))) as Hf2.
  rewrite Hself1 in Hf2. specialize (Hf2 Hpl).
  destruct (resolve_missing_always (out_sys (detect_changes s)))
    as [(Hpl2 & _) _].
  rewrite Hself1 in Hpl2.
  destruct (out_res (resolve_missing (out_sys (detect_changes s))))
    as [resolved|e]; cbn; [|by apply fatal_app].
  apply fatal_ret in Hf2.
  pose proof (reload_fatal (changed ++ resolved)
    (out_sys (resolve_missing (out_sys (detect_changes s))))) as Hf3.
  specialize (Hf3 ltac:(congruence)).
  destruct (out_res (reload (changed ++ resolved)
              (out_sys (resolve_missing (out_sys (detect_changes s))))))
    as [[]|e]; cbn.
  - apply fatal_quiet. rewrite !Forall_app.
    split_and!; [done|done|by apply fatal_ret|by repeat constructor].
  - apply fatal_app; [done|]. by apply fatal_app.
Qed.

(** A pair that is pending when a cycle starts is polled exactly once
    in a cycle that returns; its callback is called once if a path was
    found and not at all otherwise. *)
Lemma cycle_outcome (k : Key) (c f : Fn) s :
  pending k (c, f) (self s) → completes cycle s →
  ∃ r, poll_outcome k c f r (out_log (cycle s)) (self (out_sys (cycle s))).
Proof.
  intros Hp. unfold completes. rewrite cycle_unfold. cbn zeta.
  destruct (detect_changes_always s) as [Hself1 Hlog1].
  destruct (out_res (detect_changes s)) as [changed|e]; cbn;
    [|by intros [? ?]].
  pose proof (resolve_missing_outcome k c f (out_sys (detect_changes s)))
    as Hout. rewrite Hself1 in Hout. specialize (Hout Hp). unfold completes in Hout.
  destruct (out_res (resolve_missing (out_sys (detect_changes s))))
    as [resolved|e]; cbn; [|by intros [? ?]].
  destruct Hout as [r Hout]; [by eexists|].
  destruct (reload_always (changed ++ resolved)
              (out_sys (resolve_missing (out_sys (detect_changes s)))))
    as (_ & _ & _ & Hmis3 & Hlog3 & _).
  destruct (out_res (reload (changed ++ resolved)
              (out_sys (resolve_missing (out_sys (detect_changes s))))))
    as [[]|e]; cbn; [|by intros [? ?]].
  intros _. exists r.
  assert (List.filter (concerns k c f) (out_log (detect_changes s)) = [])
    as Hq1.
  { eapply filter_none; [|exact Hlog1]. by intros []. }
  assert (List.filter (concerns k c f)
            (out_log (reload (changed ++ resolved)
               (out_sys (resolve_missing (out_sys (detect_changes s)))))
             ++ [EvWait (interval (self (out_sys (reload (changed ++ resolved)
               (out_sys (resolve_missing (out_sys (detect_changes s))))))))])
          = []) as Hq3.
  { rewrite List.filter_app. cbn. rewrite app_nil_r.
    eapply filter_none; [|exact Hlog3]. by intros []. }
  rewrite app_assoc.
  eapply poll_outcome_extend; [|exact Hq3|unfold pending; by rewrite Hmis3].
  unfold poll_outcome in *. rewrite List.filter_app, Hq1. cbn.
  destruct r as [v|e]; [done|].
  destruct Hout as (? & ? & ?). split_and!; [done|done|].
  apply elem_of_app. by right.
Qed.

End Cycle.

(** * Unregistering and loading *)

Section UnregisterAndLoad.
Context {W V : Type} `{!Collaborators W V}.
Implicit Types s : Sys W V.

(** C5: after [unregister_functions] with a set that contains every
    callback registered for [p], neither the Registry nor the Cache has
    an entry for [p], so the next [load(p)] calls the loader (once) and
    gives its outcome; [unregister_functions] itself calls no
    collaborator and leaves the world, and with it the detector's
    [watch(p)] registration, as it was. *)
Theorem unregister_last_callback (R : gset Fn) (p : Path) (fs : gset Fn) s :
  watched (self s) !! p = Some fs → fs ⊆ R →
  let s' := out_sys (unregister_functions R s) in
  watched (self s') !! p = None ∧
  loaded (self s') !! p = None ∧
  out_log (unregister_functions R s) = [] ∧
  world s' = world s ∧
  out_log (load p s') = [EvLoad p (call_load p (world s)).1] ∧
  out_res (load p s') = (call_load p (world s)).1.
Proof.
  intros Hp Hsub. cbn zeta.
  destruct (unregister_functions_spec R s)
    as (_ & Hlog & Hw & _ & _ & _ & Hwat & Hld).
  assert (fs ∖ R = ∅) as Hempty by set_solver.
  assert (loaded (self (out_sys (unregister_functions R s))) !! p = None)
    as Hnone.
  { rewrite Hld, Hp. by rewrite decide_True. }
  split_and!; [|done|done|done| |].
  - rewrite Hwat, Hp. by rewrite decide_True.
  - rewrite load_miss by done. cbn -[unregister_functions]. by rewrite Hw.
  - rewrite load_miss by done. cbn -[unregister_functions]. by rewrite Hw.
Qed.

(** C6, as amended: when no interval is configured and the Cache has
    no entry for [p], [load(p)] calls the loader once, its outcome is
    the outcome of [load], and the loader's own state, the Cache
    included, stays as it was — so the same holds for the next call. *)
Theorem load_passes_through (p : Path) s :
  interval (self s) = None → loaded (self s) !! p = None →
  load p s =
  Build_Out (call_load p (world s)).1
            (Build_Sys (self s) (call_load p (world s)).2)
            [EvLoad p (call_load p (world s)).1].
Proof.
  intros Hint Hnone. rewrite load_miss by done. cbn. rewrite Hint.
  by destruct (call_load p (world s)).1.
Qed.

(** C10: [unregister_functions(S)] leaves the callback set and the
    cached value of every registered path whose callbacks are disjoint
    from [S] as they were, and does not touch the MissingRegistry;
    [unregister_missing(S)] leaves every key whose pairs are disjoint
    from [S] as it was, and touches neither the Registry nor the
    Cache. *)
Theorem unregister_frame (R : gset Fn) (R' : gset (Fn * Fn)) s :
  registry_ok (self s) → missing_ok (self s) →
  (let s' := out_sys (unregister_functions R s) in
   (∀ p fs, watched (self s) !! p = Some fs → fs ## R →
            watched (self s') !! p = Some fs ∧
            loaded (self s') !! p = loaded (self s) !! p) ∧
   missing (self s') = missing (self s)) ∧
  (let s' := out_sys (unregister_missing R' s) in
   (∀ k ps, missing (self s) !! k = Some ps → ps ## R' →
            missing (self s') !! k = Some ps) ∧
   watched (self s') = watched (self s) ∧
   loaded (self s') = loaded (self s)).
Proof.
  intros Hreg Hmis. cbn zeta. split.
  - destruct (unregister_functions_spec R s)
      as (_ & _ & _ & _ & _ & Hm & Hwat & Hld).
    split; [|done]. intros p fs Hp Hdisj.
    assert (fs ∖ R = fs) as Hsame by set_solver.
    assert (fs ≠ ∅) as Hne by by eapply Hreg.
    rewrite Hwat, Hld, Hp, Hsame. by destruct (decide (fs = ∅)).
  - destruct (unregister_missing_spec R' s)
      as (_ & _ & _ & _ & _ & Hwat & Hld & Hm).
    split_and!; [|done|done]. intros k ps Hk Hdisj.
    assert (ps ∖ R' = ps) as Hsame by set_solver.
    assert (ps ≠ ∅) as Hne by by eapply Hmis.
    rewrite Hm, Hk, Hsame. by rewrite decide_False.
Qed.
End UnregisterAndLoad.

(** * Invariants of the registries *)

Section Invariants.
Context {W V : Type} `{!Collaborators W V}.
Implicit Types s : Sys W V.

(** C7: [register], [register_missing], [unregister_functions],
    [unregister_missing] and a cycle of the worker loop (also one that
    is left by an exception) keep both invariants: no path of the
    Registry has an empty callback set and no key of the
    MissingRegistry has an empty pair set. *)
Theorem invariants_preserved s :
  registry_ok (self s) → missing_ok (self s) →
  (∀ function path,
     let s' := out_sys (register function path s) in
     registry_ok (self s') ∧ missing_ok (self s')) ∧
  (∀ condition_function function key,
     let s' := out_sys (register_missing condition_function function key s) in
     registry_ok (self s') ∧ missing_ok (self s')) ∧
  (∀ removed_functions,
     let s' := out_sys (unregister_functions removed_functions s) in
     registry_ok (self s') ∧ missing_ok (self s')) ∧
  (∀ removed_functions,
     let s' := out_sys (unregister_missing removed_functions s) in
     registry_ok (self s') ∧ missing_ok (self s')) ∧
  (let s' := out_sys (cycle s) in
   registry_ok (self s') ∧ missing_ok (self s')).
Proof.
  intros Hreg Hmis. cbn zeta. split; [|split; [|split; [|split]]].
  - intros function path. rewrite register_unfold. split; [|done].
    intros p fs. cbn. destruct (decide (path = p)) as [->|Hne].
    + rewrite lookup_insert_eq. intros [= <-]. set_solver.
    + rewrite lookup_insert_ne by done. apply Hreg.
  - intros condition_function function key.
    rewrite register_missing_unfold. split; [done|].
    intros k ps. cbn. destruct (decide (key = k)) as [->|Hne].
    + rewrite lookup_insert_eq. intros [= <-]. set_solver.
    + rewrite lookup_insert_ne by done. apply Hmis.
  - intros R.
    destruct (unregister_functions_spec R s)
      as (_ & _ & _ & _ & _ & Hm & Hwat & _).
    split.
    + intros p fs. rewrite Hwat.
      destruct (watched (self s) !! p) as [fs0|]; [|done].
      destruct (decide (fs0 ∖ R = ∅)); [done|]. by intros [= <-].
    + unfold missing_ok. by rewrite Hm.
  - intros R.
    destruct (unregister_missing_spec R s)
      as (_ & _ & _ & _ & _ & Hwat & _ & Hm).
    split.
    + unfold registry_ok. by rewrite Hwat.
    + intros k ps. rewrite Hm.
      destruct (missing (self s) !! k) as [ps0|]; [|done].
      destruct (decide (ps0 ∖ R = ∅)); [done|]. by intros [= <-].
  - by apply cycle_ok.
Qed.
End Invariants.

(** * The worker loop *)

Section Run.
Context {W V : Type} `{!Collaborators W V}.
Implicit Types s : Sys W V.

Lemma run_returns (fuel : nat) s :
  running s = false → run fuel s = Build_Out (Ret Returned) s [].
Proof. intros Hr. destruct fuel; cbn; by rewrite Hr. Qed.

Lemma run_step (fuel : nat) s :
  running s = true → run (S fuel) s = (cycle ≫= λ _, run fuel) s.
Proof. intros Hr. cbn. by rewrite Hr. Qed.

(** A cycle that returns ends with
    [self.shutdown_event.wait(self.interval)], which follows the work of
    the cycle. *)
Lemma cycle_ends_waiting s :
  completes cycle s →
  out_log (cycle s)
  = out_log (work s) ++ [EvWait (interval (self (out_sys (work s))))] ∧
  out_sys (cycle s) = out_sys (wait (out_sys (work s))).
Proof.
  unfold completes. rewrite cycle_work.
  destruct (out_res (work s)); [done|by intros [? ?]].
Qed.

(** A wait that finds the event set returns at once: nothing has
    changed. *)
Lemma wait_when_set s :
  shutdown_is_set (world s) = true → out_sys (wait s) = s.
Proof. intros Hset. rewrite wait_unfold. cbn. rewrite Hset. by destruct s. Qed.

(** C9: [run] returns at once, without starting a cycle, when no
    interval is configured or when the shutdown event is set at the
    head of the loop; otherwise it runs one cycle and comes back to
    the head of the loop.  A cycle that returns ends with a wait on the
    shutdown event, with the interval as timeout; when the event is set
    as this wait begins, the wait returns at once, in the state that the
    work of the cycle left; and when the event is set in the world that
    the wait leaves, [run] returns without another cycle. *)
Theorem run_observes_shutdown (fuel : nat) s :
  (interval (self s) = None → run fuel s = Build_Out (Ret Returned) s []) ∧
  (shutdown_is_set (world s) = true →
   run fuel s = Build_Out (Ret Returned) s []) ∧
  (running s = true → run (S fuel) s = (cycle ≫= λ _, run fuel) s) ∧
  (completes cycle s →
   out_log (cycle s)
   = out_log (work s) ++ [EvWait (interval (self (out_sys (work s))))] ∧
   out_sys (cycle s) = out_sys (wait (out_sys (work s))) ∧
   (shutdown_is_set (world (out_sys (work s))) = true →
    out_sys (cycle s) = out_sys (work s))) ∧
  (running s = true → completes cycle s →
   shutdown_is_set (world (out_sys (cycle s))) = true →
   run (S fuel) s =
   Build_Out (Ret Returned) (out_sys (cycle s)) (out_log (cycle s))).
Proof.
  split_and!.
  - intros Hint. apply run_returns. unfold running. by rewrite Hint.
  - intros Hset. apply run_returns. unfold running. rewrite Hset.
    by rewrite andb_false_r.
  - apply run_step.
  - intros Hcomplete.
    destruct (cycle_ends_waiting s Hcomplete) as [Hlog Hsys].
    split_and!; [done|done|].
    intros Hset. rewrite Hsys. by apply wait_when_set.
  - intros Hrun [[] Hres] Hset. rewrite run_step by done.
    rewrite bind_unfold, Hres, run_returns; [by rewrite app_nil_r|].
    unfold running. rewrite Hset. by rewrite andb_false_r.
Qed.

(** C8: with a logger attached, [exception] hands the message to it
    under the source tag [config_loader] and returns; without one it
    raises the exception that is being handled.  So, without a logger,
    a failure of a condition function or of the loader in a cycle is
    the last thing the cycle does, its exception leaves the cycle, and
    [run] ends with that exception there: no further cycle is run. *)
Theorem exception_policy (e : Exn) (msg : string) (args : list string)
    (fuel : nat) s :
  (∀ lg, pl (self s) = Some lg →
     exception e msg args s =
     Build_Out (Ret tt) s [EvReport msg "config_loader" args]) ∧
  (pl (self s) = None →
     exception e msg args s = Build_Out (Raise e) s []) ∧
  (pl (self s) = None →
   ∀ ev e', ev ∈ out_log (cycle s) → failure ev = Some e' →
     out_res (cycle s) = Raise e' ∧
     (∃ log, out_log (cycle s) = log ++ [ev]) ∧
     (running s = true →
      out_res (run (S fuel) s) = Raise e' ∧
      out_log (run (S fuel) s) = out_log (cycle s))).
Proof.
  split_and!.
  - intros lg Hpl. by eapply exception_attached.
  - apply exception_detached.
  - intros Hpl ev e' Hin Hev.
    destruct (cycle_fatal s Hpl ev e' Hin Hev) as [Hres Hlast].
    assert (out_res (cycle s) = Raise e') as Hraise.
    { destruct (out_res (cycle s)); cbn in Hres; congruence. }
    split_and!; [done|done|].
    intros Hrun. rewrite run_step by done. rewrite bind_unfold, Hraise. done.
Qed.
End Run.

(** * The failures of a call that returns *)

Section Caught.
Context {W V : Type} `{!Collaborators W V}.
Implicit Types s : Sys W V.
Implicit Types log : list (Event V).






End Caught.

(** * Reloading *)

Section ReloadClaims.
Context {W V : Type} `{!Collaborators W V}.
Implicit Types s : Sys W V.

End ReloadClaims.

(** * More about the registration API *)

Section Extensionality.
Context {W V : Type}.

Lemma loader_eq (c c' : ConfigLoader V) :
  pl c = pl c' → interval c = interval c' → watched c = watched c' →
  missing c = missing c' → loaded c = loaded c' → c = c'.
Proof. destruct c, c'; cbn. by intros -> -> -> -> ->. Qed.

Lemma sys_eq (s s' : Sys W V) :
  self s = self s' → world s = world s' → s = s'.
Proof. destruct s, s'; cbn. by intros -> ->. Qed.
End Extensionality.

Section RegistrationAPI.
Context {W V : Type} `{!Collaborators W V}.
Implicit Types s : Sys W V.

(** X1: unregistering [R1] and then [R2] leaves the loader as
    unregistering [R1 ∪ R2] in one call does: the same paths keep the
    same callbacks and the same cached values are dropped. *)
Theorem unregister_functions_compose (R1 R2 : gset Fn) s :
  out_sys (unregister_functions R2 (out_sys (unregister_functions R1 s)))
  = out_sys (unregister_functions (R1 ∪ R2) s).
Proof.
  destruct (unregister_functions_spec R1 s)
    as (_ & _ & Hw1 & Hpl1 & Hint1 & Hm1 & Hwat1 & Hld1).
  destruct (unregister_functions_spec R2 (out_sys (unregister_functions R1 s)))
    as (_ & _ & Hw2 & Hpl2 & Hint2 & Hm2 & Hwat2 & Hld2).
  destruct (unregister_functions_spec (R1 ∪ R2) s)
    as (_ & _ & Hw & Hpl & Hint & Hm & Hwat & Hld).
  cbn zeta in *.
  apply sys_eq; [|congruence].
  apply loader_eq; try congruence.
  - apply map_eq. intros p. rewrite Hwat2, Hwat1, Hwat.
    destruct (watched (self s) !! p) as [fs|]; [|done].
    assert (fs ∖ R1 ∖ R2 = fs ∖ (R1 ∪ R2)) as Hdiff by set_solver.
    destruct (decide (fs ∖ R1 = ∅)) as [He1|Hn1].
    + rewrite decide_True by set_solver. done.
    + rewrite Hdiff. done.
  - apply map_eq. intros p. rewrite Hld2, Hwat1, Hld1, Hld.
    destruct (watched (self s) !! p) as [fs|]; [|done].
    assert (fs ∖ R1 ∖ R2 = fs ∖ (R1 ∪ R2)) as Hdiff by set_solver.
    destruct (decide (fs ∖ R1 = ∅)) as [He1|Hn1].
    + rewrite decide_True by set_solver. done.
    + rewrite Hdiff. by destruct (decide (fs ∖ (R1 ∪ R2) = ∅)).
Qed.

(** X2: the same for pending pairs: [unregister_missing(R1)] followed by
    [unregister_missing(R2)] leaves the loader as
    [unregister_missing(R1 ∪ R2)] does. *)
Theorem unregister_missing_compose (R1 R2 : gset (Fn * Fn)) s :
  out_sys (unregister_missing R2 (out_sys (unregister_missing R1 s)))
  = out_sys (unregister_missing (R1 ∪ R2) s).
Proof.
  destruct (unregister_missing_spec R1 s)
    as (_ & _ & Hw1 & Hpl1 & Hint1 & Hwat1 & Hld1 & Hm1).
  destruct (unregister_missing_spec R2 (out_sys (unregister_missing R1 s)))
    as (_ & _ & Hw2 & Hpl2 & Hint2 & Hwat2 & Hld2 & Hm2).
  destruct (unregister_missing_spec (R1 ∪ R2) s)
    as (_ & _ & Hw & Hpl & Hint & Hwat & Hld & Hm).
  cbn zeta in *.
  apply sys_eq; [|congruence].
  apply loader_eq; try congruence.
  apply map_eq. intros k. rewrite Hm2, Hm1, Hm.
  destruct (missing (self s) !! k) as [fs|]; [|done].
  assert (fs ∖ R1 ∖ R2 = fs ∖ (R1 ∪ R2)) as Hdiff by set_solver.
  destruct (decide (fs ∖ R1 = ∅)) as [He1|Hn1].
  - rewrite decide_True by set_solver. done.
  - rewrite Hdiff. done.
Qed.

(** X3: registering a function that is registered nowhere and then
    unregistering it gives the Registry back as it was.  The Cache does
    not always come back: when the path had no callback before, the
    value cached for it is dropped with the path. *)
Theorem register_then_unregister (f : Fn) (p : Path) s :
  registry_ok (self s) →
  (∀ q fs, watched (self s) !! q = Some fs → f ∉ fs) →
  let s' := out_sys (unregister_functions {[f]} (out_sys (register f p s))) in
  watched (self s') = watched (self s) ∧
  loaded (self s') =
    (if watched (self s) !! p is Some _ then loaded (self s)
     else delete p (loaded (self s))) ∧
  missing (self s') = missing (self s) ∧
  pl (self s') = pl (self s) ∧ interval (self s') = interval (self s).
Proof.
  intros Hreg Hfresh. cbn zeta.
  destruct (unregister_functions_spec {[f]} (out_sys (register f p s)))
    as (_ & _ & _ & Hpl & Hint & Hm & Hwat & Hld).
  rewrite register_unfold in *. cbn in *.
  assert (∀ q, q ≠ p →
    match watched (self s) !! q with
    | Some fs => if decide (fs ∖ {[f]} = ∅) then None else Some (fs ∖ {[f]})
    | None => None
    end = watched (self s) !! q) as Hother.
  { intros q Hne. destruct (watched (self s) !! q) as [fs|] eqn:Hq; [|done].
    assert (fs ∖ {[f]} = fs) as -> by (specialize (Hfresh q fs Hq); set_solver).
    rewrite decide_False; [done|by eapply Hreg]. }
  split_and!; [| |done|done|done].
  - apply map_eq. intros q. rewrite Hwat.
    destruct (decide (q = p)) as [->|Hne].
    + rewrite lookup_insert_eq.
      destruct (watched (self s) !! p) as [fs|] eqn:Hp; cbn.
      * assert ((fs ∪ {[f]}) ∖ {[f]} = fs) as ->
          by (specialize (Hfresh p fs Hp); set_solver).
        rewrite decide_False; [done|by eapply Hreg].
      * rewrite decide_True by set_solver. done.
    + rewrite lookup_insert_ne by done. by apply Hother.
  - apply map_eq. intros q. rewrite Hld.
    destruct (decide (q = p)) as [->|Hne].
    + rewrite lookup_insert_eq.
      destruct (watched (self s) !! p) as [fs|] eqn:Hp; cbn.
      * assert ((fs ∪ {[f]}) ∖ {[f]} = fs) as ->
          by (specialize (Hfresh p fs Hp); set_solver).
        rewrite decide_False; [done|by eapply Hreg].
      * rewrite decide_True by set_solver. by rewrite lookup_delete_eq.
    + rewrite lookup_insert_ne by done.
      assert (loaded (self s) !! q =
              (if watched (self s) !! p is Some _ then loaded (self s)
               else delete p (loaded (self s))) !! q) as <-.
      { destruct (watched (self s) !! p); [done|].
        by rewrite lookup_delete_ne. }
      destruct (watched (self s) !! q) as [fs|] eqn:Hq; [|done].
      assert (fs ∖ {[f]} = fs) as -> by (specialize (Hfresh q fs Hq); set_solver).
      rewrite decide_False; [done|by eapply Hreg].
Qed.

(** X4: registering a pair that is pending nowhere and then
    unregistering it leaves the loader exactly as it was. *)
Theorem register_missing_then_unregister (c f : Fn) (k : Key) s :
  missing_ok (self s) →
  (∀ q ps, missing (self s) !! q = Some ps → (c, f) ∉ ps) →
  out_sys (unregister_missing {[(c, f)]} (out_sys (register_missing c f k s)))
  = s.
Proof.
  intros Hok Hfresh.
  destruct (unregister_missing_spec {[(c, f)]}
              (out_sys (register_missing c f k s)))
    as (_ & _ & Hw & Hpl & Hint & Hwat & Hld & Hm).
  rewrite register_missing_unfold in *. cbn in *.
  apply sys_eq; [|done].
  apply loader_eq; try done.
  apply map_eq. intros q. rewrite Hm.
  destruct (decide (q = k)) as [->|Hne].
  - rewrite lookup_insert_eq.
    destruct (missing (self s) !! k) as [ps|] eqn:Hk; cbn.
    + assert ((ps ∪ {[(c, f)]}) ∖ {[(c, f)]} = ps) as ->
        by (specialize (Hfresh k ps Hk); set_solver).
      rewrite decide_False; [done|by eapply Hok].
    + rewrite decide_True by set_solver. done.
  - rewrite lookup_insert_ne by done.
    destruct (missing (self s) !! q) as [ps|] eqn:Hq; [|done].
    assert (ps ∖ {[(c, f)]} = ps) as -> by (specialize (Hfresh q ps Hq); set_solver).
    rewrite decide_False; [done|by eapply Hok].
Qed.

(** X5: what [unregister_functions(R)] does, in full: a function stays
    registered on a path iff it was registered there and is not in [R];
    no path is left with an empty callback set, whatever the Registry
    looked like; a cached value is never changed, and it is dropped
    exactly when its path was in the Registry and has lost every
    callback. *)
Theorem unregister_functions_exact (R : gset Fn) s :
  let s' := out_sys (unregister_functions R s) in
  (∀ f p, registered f p (self s') ↔ registered f p (self s) ∧ f ∉ R) ∧
  registry_ok (self s') ∧
  (∀ p v, loaded (self s') !! p = Some v ↔
          loaded (self s) !! p = Some v ∧
          ¬ ∃ fs, watched (self s) !! p = Some fs ∧ fs ⊆ R).
Proof.
  cbn zeta.
  destruct (unregister_functions_spec R s)
    as (_ & _ & _ & _ & _ & _ & Hwat & Hld).
  cbn zeta in *. split_and!.
  - intros f p. unfold registered. rewrite Hwat.
    destruct (watched (self s) !! p) as [fs|]; [|naive_solver].
    destruct (decide (fs ∖ R = ∅)) as [He|Hn].
    + split; [naive_solver|]. intros [(fs' & [= <-] & Hin) Hnin]. set_solver.
    + split.
      * intros (fs' & [= <-] & Hin). split; [exists fs|]; set_solver.
      * intros [(fs' & [= <-] & Hin) Hnin]. eexists. split; [done|].
        set_solver.
  - intros p fs. rewrite Hwat.
    destruct (watched (self s) !! p) as [fs0|]; [|done].
    destruct (decide (fs0 ∖ R = ∅)); [done|]. by intros [= <-].
  - intros p v. rewrite Hld.
    destruct (watched (self s) !! p) as [fs|]; [|naive_solver].
    destruct (decide (fs ∖ R = ∅)) as [He|Hn].
    + split; [done|]. intros [_ Hno]. exfalso. apply Hno.
      exists fs. split; [done|]. set_solver.
    + split; [|naive_solver]. intros Hv. split; [done|].
      intros (fs' & [= <-] & Hsub). set_solver.
Qed.

(** X6: what [unregister_missing(R)] does, in full: a pair stays pending
    under a key iff it was pending there and is not in [R], and no key
    is left with an empty pair set. *)
Theorem unregister_missing_exact (R : gset (Fn * Fn)) s :
  let s' := out_sys (unregister_missing R s) in
  (∀ k pair, pending k pair (self s') ↔ pending k pair (self s) ∧ pair ∉ R) ∧
  missing_ok (self s').
Proof.
  cbn zeta.
  destruct (unregister_missing_spec R s)
    as (_ & _ & _ & _ & _ & _ & _ & Hm).
  cbn zeta in *. split.
  - intros k pair. unfold pending. rewrite Hm.
    destruct (missing (self s) !! k) as [fs|]; [|naive_solver].
    destruct (decide (fs ∖ R = ∅)) as [He|Hn].
    + split; [naive_solver|]. intros [(fs' & [= <-] & Hin) Hnin]. set_solver.
    + split.
      * intros (fs' & [= <-] & Hin). split; [exists fs|]; set_solver.
      * intros [(fs' & [= <-] & Hin) Hnin]. eexists. split; [done|].
        set_solver.
  - intros k fs. rewrite Hm.
    destruct (missing (self s) !! k) as [fs0|]; [|done].
    destruct (decide (fs0 ∖ R = ∅)); [done|]. by intros [= <-].
Qed.

(** X7: registering is idempotent on the Registry and independent of
    order: a function registered twice on a path is there once, and two
    registrations made in either order give the same Registry.  The
    detector's [watch] is called at every registration all the same. *)
Theorem register_idempotent (f g : Fn) (p q : Path) s :
  self (out_sys (register f p (out_sys (register f p s))))
  = self (out_sys (register f p s)) ∧
  out_log (register f p (out_sys (register f p s))) = [EvWatch p] ∧
  self (out_sys (register g q (out_sys (register f p s))))
  = self (out_sys (register f p (out_sys (register g q s)))).
Proof.
  rewrite !register_unfold. cbn. split_and!; [|done|].
  - apply loader_eq; try done. cbn. apply map_eq. intros r.
    destruct (decide (r = p)) as [->|Hne].
    + rewrite !lookup_insert_eq. cbn. f_equal. set_solver.
    + by rewrite !lookup_insert_ne.
  - apply loader_eq; try done. cbn. apply map_eq. intros r.
    destruct (decide (p = q)) as [->|Hpq].
    + destruct (decide (r = q)) as [->|Hne].
      * rewrite !lookup_insert_eq. cbn. f_equal. set_solver.
      * by rewrite !lookup_insert_ne.
    + rewrite (lookup_insert_ne _ p q) by done.
      rewrite (lookup_insert_ne _ q p) by done.
      destruct (decide (r = q)) as [->|Hne].
      * rewrite lookup_insert_eq, lookup_insert_ne, lookup_insert_eq by done.
        done.
      * rewrite (lookup_insert_ne _ q r) by done.
        destruct (decide (r = p)) as [->|Hne'].
        -- by rewrite !lookup_insert_eq.
        -- by rewrite !lookup_insert_ne.
Qed.
End RegistrationAPI.

(** * Loading through the cache *)

Section Loading.
Context {W V : Type} `{!Collaborators W V}.
Implicit Types s : Sys W V.

(** X8: with an interval configured, a [load] that finds nothing cached
    calls the loader once and stores what it returned; from then on
    [load] returns the stored value without calling the loader,
    whatever has happened outside the loader in between. *)
Theorem load_caches (p : Path) (i : Interval) (v : V) s :
  interval (self s) = Some i → loaded (self s) !! p = None →
  (call_load p (world s)).1 = Ret v →
  let o := load p s in
  out_res o = Ret v ∧ out_log o = [EvLoad p (Ret v)] ∧
  self (out_sys o) = with_loaded (<[p := v]> (loaded (self s))) (self s) ∧
  ∀ w, load p (Build_Sys (self (out_sys o)) w)
       = Build_Out (Ret v) (Build_Sys (self (out_sys o)) w) [].
Proof.
  intros Hint Hnone Hv. cbn zeta. rewrite load_miss by done. cbn.
  rewrite Hv, Hint. cbn. split_and!; try done.
  intros w. apply load_hit. cbn. by rewrite lookup_insert_eq.
Qed.

(** X9: when the loader raises, [load] raises the same exception and
    the loader's own state is as before, with or without an interval:
    nothing is cached, so the next [load] of the path calls the loader
    again. *)
Theorem load_failure_not_cached (p : Path) (e : Exn) s :
  loaded (self s) !! p = None →
  (call_load p (world s)).1 = Raise e →
  let o := load p s in
  out_res o = Raise e ∧ out_log o = [EvLoad p (Raise e)] ∧
  self (out_sys o) = self s ∧
  out_log (load p (out_sys o))
  = [EvLoad p (call_load p (world (out_sys o))).1].
Proof.
  intros Hnone He. cbn zeta. rewrite load_miss by done. cbn.
  rewrite He. cbn. split_and!; try done.
  rewrite load_miss by done. done.
Qed.

(** X10: a value that a cycle has loaded is what [load] returns after
    the cycle, without a call to the loader. *)
Theorem load_after_cycle (p : Path) (v : V) s :
  last_loaded p (out_log (cycle s)) = Some v →
  load p (out_sys (cycle s)) = Build_Out (Ret v) (out_sys (cycle s)) [].
Proof.
  intros Hlast. apply load_hit.
  destruct (cycle_always s) as (_ & _ & _ & _ & Hld & _).
  by rewrite Hld, Hlast.
Qed.
End Loading.

(** * Counting in logs *)

Section Counting.
Context {W V : Type}.
Implicit Types s : Sys W V.
Implicit Types log : list (Event V).

Lemma count_none (P Q : Event V → bool) log :
  (∀ ev, Q ev = true → P ev = false) → Forall Q log → count P log = 0.
Proof. intros HPQ Hall. unfold count. by erewrite filter_none. Qed.

(** A loop in which each iteration logs at most [w x] events of a kind,
    and exactly [w x] when it returns. *)
Lemma foreach_count {A B} (P : Event V → bool) (w : A → nat) (l : list A)
    (body : A → M W V (list B)) s :
  (∀ x s0, count P (out_log (body x s0)) ≤ w x ∧
           (completes (body x) s0 → count P (out_log (body x s0)) = w x)) →
  count P (out_log (foreach l body s)) ≤ sum_list (w <$> l) ∧
  (completes (foreach l body) s →
   count P (out_log (foreach l body s)) = sum_list (w <$> l)).
Proof.
  intros Hbody. revert s. induction l as [|x l IH]; intros s.
  { cbn. split; [unfold count; cbn; lia|done]. }
  unfold completes in *. rewrite foreach_cons. cbn zeta.
  change (sum_list (w <$> x :: l)) with (w x + sum_list (w <$> l)).
  destruct (Hbody x s) as [Hle Heq].
  destruct (out_res (body x s)) as [ys|e] eqn:Hres; cbn [out_log out_res].
  - destruct (IH (out_sys (body x s))) as [Hle' Heq'].
    rewrite count_app. split.
    + specialize (Heq (ex_intro _ ys eq_refl)). lia.
    + intros [zs Hzs].
      destruct (out_res (foreach l body (out_sys (body x s)))) as [zs'|e] eqn:Hres';
        [|done].
      rewrite Heq, Heq' by eauto. done.
  - split; [lia|]. by intros [? ?].
Qed.

(** A loop in which each iteration that returns has recorded as many
    paths [p] as it has logged events of a kind. *)
Lemma foreach_recorded {A} (P : Event V → bool) (p : Path) (l : list A)
    (body : A → M W V (list Path)) s :
  (∀ x s0,
     match out_res (body x s0) with
     | Ret ys => occurrences p ys = count P (out_log (body x s0))
     | Raise _ => True
     end) →
  match out_res (foreach l body s) with
  | Ret ys => occurrences p ys = count P (out_log (foreach l body s))
  | Raise _ => True
  end.
Proof.
  intros Hbody. revert s. induction l as [|x l IH]; intros s; [done|].
  rewrite foreach_cons. cbn zeta.
  specialize (Hbody x s). specialize (IH (out_sys (body x s))).
  destruct (out_res (body x s)) as [ys|e]; cbn [out_log out_res]; [|done].
  destruct (out_res (foreach l body (out_sys (body x s)))) as [zs|e]; [|done].
  rewrite count_app, <- Hbody, <- IH.
  unfold occurrences. by rewrite List.filter_app, length_app.
Qed.

(** Two kinds of event that every iteration logs equally often are
    logged equally often by the loop. *)
Lemma foreach_balanced {A B} (P Q : Event V → bool) (l : list A)
    (body : A → M W V (list B)) s :
  (∀ x s0, count P (out_log (body x s0)) = count Q (out_log (body x s0))) →
  count P (out_log (foreach l body s)) = count Q (out_log (foreach l body s)).
Proof.
  intros Hbody.
  apply (foreach_always (λ _ _ log, count P log = count Q log)); [done|].
  intros x rest s0 log0 Hlog0. specialize (Hbody x s0).
  assert (count P (log0 ++ out_log (body x s0))
          = count Q (log0 ++ out_log (body x s0))) as Hnew.
  { rewrite !count_app. lia. }
  by destruct (out_res (body x s0)).
Qed.

(** The callbacks of one path in a snapshot of the Registry. *)
Lemma sum_list_lookup (p : Path) (l : list (Path * gset Fn)) :
  NoDup l.*1 →
  sum_list ((λ item, if decide (item.1 = p) then size item.2 else 0) <$> l)
  = size (default ∅ ((list_to_map l : gmap Path (gset Fn)) !! p)).
Proof.
  induction l as [|[q fs] l IH]; intros Hnd; cbn.
  { rewrite lookup_empty. cbn. by rewrite size_empty. }
  apply NoDup_cons in Hnd as [Hq Hnd]. rewrite IH by done.
  destruct (decide (q = p)) as [->|Hne].
  - rewrite lookup_insert_eq. cbn.
    rewrite (not_elem_of_list_to_map_1 _ p) by done. cbn.
    rewrite size_empty. lia.
  - by rewrite lookup_insert_ne.
Qed.
End Counting.

(** * What a cycle calls, and how often *)

Section CycleCalls.
Context {W V : Type} `{!Collaborators W V}.
Implicit Types s : Sys W V.
Implicit Types log : list (Event V).

Lemma sum_list_const {A} (n : nat) (l : list A) :
  sum_list ((λ _, n) <$> l) = length l * n.
Proof. induction l as [|x l IH]; cbn; [done|]. rewrite IH. lia. Qed.

Lemma sum_list_occurrences (p : Path) (l : list Path) :
  sum_list ((λ q, if bool_decide (q = p) then 1 else 0) <$> l)
  = occurrences p l.
Proof.
  unfold occurrences. induction l as [|q l IH]; cbn; [done|]. rewrite IH.
  by destruct (bool_decide (q = p)).
Qed.

Lemma detect_changes_unfold s :
  detect_changes s = foreach (map_to_list (watched (self s))) detect_path s.
Proof.
  unfold detect_changes. run_monad.
  by destruct (foreach _ detect_path s) as [[?|?] ? ?].
Qed.

(** The detector is asked once for every function of every path. *)
Lemma detect_changes_checks (p : Path) s :
  count (is_check p) (out_log (detect_changes s)) ≤ callbacks p (self s) ∧
  (completes detect_changes s →
   count (is_check p) (out_log (detect_changes s)) = callbacks p (self s)).
Proof.
  rewrite detect_changes_unfold. unfold callbacks.
  rewrite <- (list_to_map_to_list (watched (self s))) at 2 4.
  rewrite <- sum_list_lookup by apply NoDup_fst_map_to_list.
  apply foreach_count. intros [q fs] s0. cbn [fst snd detect_path].
  assert (size fs = length (elements fs)) as -> by done.
  destruct (foreach_count (is_check p)
              (λ _, if decide (q = p) then 1 else 0)
              (elements fs) (detect_function q) s0) as [Hle Heq].
  { intros f s1. rewrite detect_function_unfold. cbn.
    destruct (watcher_check q (world s1)) as [[|] w1]; cbn;
      unfold count; cbn; case_bool_decide; case_decide; try done;
      cbn; split; try lia; done. }
  rewrite sum_list_const in Hle, Heq.
  destruct (decide (q = p)); split; (lia || (intros Hc; specialize (Heq Hc); lia)).
Qed.

(** Only registered paths are checked and only their functions
    notified; a function is notified exactly when the detector has just
    said that the path changed. *)
Lemma detect_changes_registered s :
  Forall (checks_registered (self s)) (out_log (detect_changes s)) ∧
  ∀ p, count (is_notify_at p) (out_log (detect_changes s))
       = count (is_change p) (out_log (detect_changes s)).
Proof.
  rewrite detect_changes_unfold. split.
  - apply (foreach_preserves (λ _, True) (checks_registered (self s)));
      [done|].
    intros [q fs] s0 Hin _. split; [done|].
    apply elem_of_map_to_list in Hin. cbn.
    apply (foreach_preserves (λ _, True) (checks_registered (self s)));
      [done|].
    intros f s1 Hf _. split; [done|]. apply elem_of_elements in Hf.
    rewrite detect_function_unfold. cbn.
    assert (checks_registered (self s) (EvNotify f q : Event V)) as Hn.
    { by exists fs. }
    assert (checks_registered (self s) (EvCheck q true : Event V)) as Hc1.
    { cbn. by eexists. }
    assert (checks_registered (self s) (EvCheck q false : Event V)) as Hc2.
    { cbn. by eexists. }
    destruct (watcher_check q (world s1)) as [[|] w1]; cbn.
    + constructor; [done|]. constructor; [done|]. constructor.
    + constructor; [done|]. constructor.
  - intros p. apply foreach_balanced. intros [q fs] s0. cbn.
    apply foreach_balanced. intros f s1.
    rewrite detect_function_unfold. cbn.
    destruct (watcher_check q (world s1)) as [[|] w1]; unfold count; cbn;
      by destruct (bool_decide (q = p)).
Qed.

(** A path is recorded for reloading as often as a function was told
    that it changed. *)
Lemma detect_changes_recorded (p : Path) s :
  match out_res (detect_changes s) with
  | Ret changed =>
      occurrences p changed = count (is_notify_at p) (out_log (detect_changes s))
  | Raise _ => True
  end.
Proof.
  rewrite detect_changes_unfold. apply foreach_recorded.
  intros [q fs] s0. cbn. apply foreach_recorded. intros f s1.
  rewrite detect_function_unfold. cbn.
  destruct (watcher_check q (world s1)) as [[|] w1]; cbn; [|done].
  destruct (call_function f q w1) as [[[]|e] w2]; cbn; [|done].
  unfold occurrences, count. cbn. by destruct (bool_decide (q = p)).
Qed.

(** A path is recorded for reloading as often as a callback was told
    that it has been found. *)
Lemma resolve_missing_recorded (p : Path) s :
  match out_res (resolve_missing s) with
  | Ret resolved =>
      occurrences p resolved
      = count (is_found_at p) (out_log (resolve_missing s))
  | Raise _ => True
  end.
Proof.
  rewrite resolve_missing_unfold. apply foreach_recorded.
  intros [k fs] s0. rewrite resolve_key_unfold. cbn zeta.
  pose proof (foreach_recorded (is_found_at p) p (elements fs)
                (resolve_pair k) s0) as H.
  destruct (out_res (foreach (elements fs) (resolve_pair k) s0)); cbn;
    [|done].
  apply H. intros [c f] s1. rewrite resolve_pair_unfold. cbn.
  destruct (call_condition c k (world s1)) as [[v|e] w1]; cbn.
  - destruct (truthy v) as [q|]; cbn; [|done].
    destruct (call_function f q w1) as [[[]|e] w2]; cbn; [|done].
    unfold occurrences, count. cbn. by destruct (bool_decide (q = p)).
  - by destruct (reported e (self s1)).
Qed.

(** The reload phase calls the loader for a path at most as often as the
    path was recorded, and exactly as often when the phase returns. *)
Lemma reload_counts (p : Path) (toload : list Path) s :
  count (is_load p) (out_log (reload toload s)) ≤ occurrences p toload ∧
  (completes (reload toload) s →
   count (is_load p) (out_log (reload toload s)) = occurrences p toload).
Proof.
  rewrite <- sum_list_occurrences. unfold completes. rewrite reload_unfold.
  cbn [out_log out_res].
  destruct (foreach_count (is_load p)
              (λ q, if bool_decide (q = p) then 1 else 0)
              toload reload_path s) as [Hle Heq].
  { intros q s0. rewrite reload_path_unfold. cbn.
    destruct (call_load q (world s0)) as [[v|e] w]; cbn;
      [|destruct (reported e (self s0))]; unfold count; cbn;
      destruct (bool_decide (q = p)); cbn; split; done || lia. }
  split; [done|]. intros [a Ha]. apply Heq. unfold completes.
  destruct (out_res (foreach toload reload_path s)); [eauto|done].
Qed.

(** The log of a cycle: change detection, then missing resolution, then
    reloading and the wait. *)
Lemma cycle_phases s :
  ∃ log2 log3,
    out_log (cycle s) = out_log (detect_changes s) ++ log2 ++ log3 ∧
    Forall from_resolution log2 ∧ Forall from_reload_or_wait log3 ∧
    (completes cycle s → completes detect_changes s).
Proof.
  unfold completes. rewrite cycle_unfold. cbn zeta.
  destruct (out_res (detect_changes s)) as [changed|e]; cbn.
  2:{ exists [], []. rewrite !app_nil_r. split_and!; [done|done|done|].
      by intros [? ?]. }
  destruct (resolve_missing_always (out_sys (detect_changes s)))
    as [_ Hlog2].
  destruct (out_res (resolve_missing (out_sys (detect_changes s))))
    as [resolved|e]; cbn.
  2:{ exists (out_log (resolve_missing (out_sys (detect_changes s)))), [].
      rewrite !app_nil_r. split_and!; [done|done|done|]. by intros [? ?]. }
  destruct (reload_always (changed ++ resolved)
              (out_sys (resolve_missing (out_sys (detect_changes s)))))
    as (_ & _ & _ & _ & Hlog3 & _).
  assert (Forall from_reload_or_wait
            (out_log (reload (changed ++ resolved)
               (out_sys (resolve_missing (out_sys (detect_changes s)))))))
    as Hlog3'.
  { eapply Forall_impl; [exact Hlog3|]. intros ev Hev.
    unfold from_reload_or_wait. apply orb_True. by left. }
  destruct (out_res (reload (changed ++ resolved)
              (out_sys (resolve_missing (out_sys (detect_changes s))))))
    as [[]|e]; cbn.
  - eexists _, _. split_and!; [done|done| |by eauto].
    apply Forall_app. split; [done|]. by repeat constructor.
  - eexists _, _. split_and!; [done|done|done|]. by intros [? ?].
Qed.

(** X11: in a cycle the detector is asked about a path once for every
    callback registered on it, not once for the path: at most that
    often in any cycle, and exactly that often in a cycle that
    returns.  A path without callbacks is not checked. *)
Theorem detector_asked_per_callback (p : Path) s :
  count (is_check p) (out_log (cycle s)) ≤ callbacks p (self s) ∧
  (completes cycle s →
   count (is_check p) (out_log (cycle s)) = callbacks p (self s)).
Proof.
  destruct (cycle_phases s) as (log2 & log3 & -> & Hlog2 & Hlog3 & Hc).
  destruct (detect_changes_checks p s) as [Hle Heq].
  rewrite !count_app.
  rewrite (count_none (is_check p) from_resolution log2) by (done || by intros []).
  rewrite (count_none (is_check p) from_reload_or_wait log3)
    by (done || by intros []).
  split; [lia|]. intros Hcomplete. rewrite Heq by auto. lia.
Qed.

(** X12: a cycle checks registered paths only and notifies a function
    only of a path it is registered on; and it notifies a function of a
    change exactly when the detector has said that the path changed:
    for every path there are as many notifications as positive checks. *)
Theorem notifications_follow_changes s :
  Forall (checks_registered (self s)) (out_log (cycle s)) ∧
  ∀ p, count (is_notify_at p) (out_log (cycle s))
       = count (is_change p) (out_log (cycle s)).
Proof.
  destruct (cycle_phases s) as (log2 & log3 & -> & Hlog2 & Hlog3 & _).
  destruct (detect_changes_registered s) as [Hreg Hbal].
  split.
  - rewrite !Forall_app. split_and!; [done| |].
    + eapply Forall_impl; [exact Hlog2|]. by intros [].
    + eapply Forall_impl; [exact Hlog3|]. by intros [].
  - intros p. rewrite !count_app, Hbal.
    rewrite (count_none (is_notify_at p) from_resolution log2)
      by (done || by intros []).
    rewrite (count_none (is_change p) from_resolution log2)
      by (done || by intros [| ? []| | | | | |]).
    rewrite (count_none (is_notify_at p) from_reload_or_wait log3)
      by (done || by intros []).
    rewrite (count_none (is_change p) from_reload_or_wait log3)
      by (done || by intros [| ? []| | | | | |]).
    done.
Qed.

(** The loader is called for the recorded paths, as often as they
    were recorded. *)
Lemma cycle_loads_recorded (p : Path) s :
  count (is_load p) (out_log (cycle s))
  ≤ count (is_notify_at p) (out_log (cycle s))
    + count (is_found_at p) (out_log (cycle s)) ∧
  (completes cycle s →
   count (is_load p) (out_log (cycle s))
   = count (is_notify_at p) (out_log (cycle s))
     + count (is_found_at p) (out_log (cycle s))).
Proof.
  unfold completes. rewrite cycle_unfold. cbn zeta.
  destruct (detect_changes_always s) as [_ Hlog1].
  pose proof (detect_changes_recorded p s) as Hrec1.
  assert (count (is_load p) (out_log (detect_changes s)) = 0) as Hl1.
  { apply (count_none _ from_detection); [by intros []|done]. }
  assert (count (is_found_at p) (out_log (detect_changes s)) = 0) as Hf1.
  { apply (count_none _ from_detection); [by intros []|done]. }
  destruct (out_res (detect_changes s)) as [changed|e]; cbn [out_log out_res].
  2:{ split; [lia|by intros [? ?]]. }
  destruct (resolve_missing_always (out_sys (detect_changes s)))
    as [_ Hlog2].
  pose proof (resolve_missing_recorded p (out_sys (detect_changes s)))
    as Hrec2.
  assert (count (is_load p)
            (out_log (resolve_missing (out_sys (detect_changes s)))) = 0)
    as Hl2.
  { apply (count_none _ from_resolution); [by intros []|done]. }
  assert (count (is_notify_at p)
            (out_log (resolve_missing (out_sys (detect_changes s)))) = 0)
    as Hn2.
  { apply (count_none _ from_resolution); [by intros []|done]. }
  destruct (out_res (resolve_missing (out_sys (detect_changes s))))
    as [resolved|e]; cbn [out_log out_res].
  2:{ rewrite !count_app. split; [lia|by intros [? ?]]. }
  destruct (reload_always (changed ++ resolved)
              (out_sys (resolve_missing (out_sys (detect_changes s)))))
    as (_ & _ & _ & _ & Hlog3 & _).
  destruct (reload_counts p (changed ++ resolved)
              (out_sys (resolve_missing (out_sys (detect_changes s)))))
    as [Hle Heq].
  unfold completes in Heq.
  assert (occurrences p (changed ++ resolved)
          = occurrences p changed + occurrences p resolved) as Hocc.
  { unfold occurrences. by rewrite List.filter_app, length_app. }
  assert (count (is_notify_at p)
            (out_log (reload (changed ++ resolved)
               (out_sys (resolve_missing (out_sys (detect_changes s)))))) = 0)
    as Hn3.
  { apply (count_none _ from_reload); [by intros []|done]. }
  assert (count (is_found_at p)
            (out_log (reload (changed ++ resolved)
               (out_sys (resolve_missing (out_sys (detect_changes s)))))) = 0)
    as Hf3.
  { apply (count_none _ from_reload); [by intros []|done]. }
  destruct (out_res (reload (changed ++ resolved)
              (out_sys (resolve_missing (out_sys (detect_changes s))))))
    as [[]|e]; cbn [out_log out_res]; rewrite !count_app.
  - specialize (Heq (ex_intro _ tt eq_refl)).
    assert (∀ P : Event V → bool,
      count P [EvWait (interval (self (out_sys (reload (changed ++ resolved)
        (out_sys (resolve_missing (out_sys (detect_changes s))))))))]
      = if P (EvWait (interval (self (out_sys (reload (changed ++ resolved)
        (out_sys (resolve_missing (out_sys (detect_changes s)))))))))
        then 1 else 0) as Hw.
    { intros P. unfold count. cbn. by destruct (P _). }
    rewrite !Hw. cbn. split; [lia|]. intros _. lia.
  - split; [lia|by intros [? ?]].
Qed.

(** X13: a cycle calls the loader for a path at most once for every
    callback that was told, in this cycle, that the path changed or was
    found, and exactly that often when the cycle returns: nothing else
    is reloaded, and a path recorded twice is reloaded twice. *)
Theorem recorded_paths_reloaded (p : Path) s :
  count (is_load p) (out_log (cycle s))
  ≤ count (is_notify_at p) (out_log (cycle s))
    + count (is_found_at p) (out_log (cycle s)) ∧
  (completes cycle s →
   count (is_load p) (out_log (cycle s))
   = count (is_notify_at p) (out_log (cycle s))
     + count (is_found_at p) (out_log (cycle s))).
Proof. exact (cycle_loads_recorded p s). Qed.

Lemma count_le (P Q : Event V → bool) log :
  (∀ ev, P ev = true → Q ev = true) → count P log ≤ count Q log.
Proof.
  intros HPQ. unfold count. induction log as [|ev log IH]; cbn; [done|].
  destruct (P ev) eqn:HP; [rewrite (HPQ ev HP); cbn; lia|].
  destruct (Q ev); cbn; lia.
Qed.

Lemma last_loaded_unloaded (p : Path) log :
  count (is_load p) log = 0 → last_loaded p log = None.
Proof.
  unfold count. induction log as [|ev log IH]; cbn; [done|].
  destruct (is_load p ev) eqn:Hev; cbn; [done|]. intros Hlog.
  rewrite IH by done.
  destruct ev as [| | | | |p' [v|e]| |]; try done.
  cbn in Hev. case_decide; [|done].
  apply bool_decide_eq_false in Hev. done.
Qed.

(** X14: the loop never refreshes the cached value of a path that has
    no callback: in a cycle in which no callback is told that the path
    has been found, the loader is not called for the path and the Cache
    keeps what it had for it, whatever has happened to the file. *)
Theorem unregistered_path_not_refreshed (p : Path) s :
  watched (self s) !! p = None →
  count (is_found_at p) (out_log (cycle s)) = 0 →
  count (is_load p) (out_log (cycle s)) = 0 ∧
  loaded (self (out_sys (cycle s))) !! p = loaded (self s) !! p.
Proof.
  intros Hp Hfound.
  assert (count (is_notify_at p) (out_log (cycle s)) = 0) as Hnotify.
  { destruct (cycle_phases s) as (log2 & log3 & -> & Hlog2 & Hlog3 & _).
    destruct (detect_changes_registered s) as [_ Hbal].
    destruct (detect_changes_checks p s) as [Hle _].
    unfold callbacks in Hle. rewrite Hp in Hle. cbn in Hle.
    rewrite size_empty in Hle.
    pose proof (count_le (is_change p) (is_check p)
                  (out_log (detect_changes s))) as Hch.
    rewrite !count_app, Hbal.
    rewrite (count_none (is_notify_at p) from_resolution log2)
      by (done || by intros []).
    rewrite (count_none (is_notify_at p) from_reload_or_wait log3)
      by (done || by intros []).
    assert (count (is_change p) (out_log (detect_changes s))
            ≤ count (is_check p) (out_log (detect_changes s))) as Hch'.
    { apply Hch. by intros [| ? []| | | | | |]. }
    lia. }
  destruct (cycle_loads_recorded p s) as [Hle _].
  assert (count (is_load p) (out_log (cycle s)) = 0) as Hnone by lia.
  split; [done|].
  destruct (cycle_always s) as (_ & _ & _ & _ & Hld & _).
  by rewrite Hld, last_loaded_unloaded.
Qed.

Lemma app_cons_split (Q : Event V → bool) (l1 l2 A B : list (Event V))
    (ev : Event V) :
  Forall (λ x, Q x = false) A → Q ev = true → l1 ++ ev :: l2 = A ++ B →
  ∃ B1, B = B1 ++ ev :: l2.
Proof.
  intros HA Hev. revert l1. induction HA as [|a A Ha _ IH]; intros l1 Heq.
  - by exists l1.
  - destruct l1 as [|b l1]; cbn in Heq; simplify_eq.
    + congruence.
    + by eapply IH.
Qed.

(** X15: within a cycle, every detector check, every condition function
    and every callback is called before the first call of the loader:
    what follows a load is loads, error reports and the wait.  So no
    callback is called after the Cache has been refreshed in its
    cycle. *)
Theorem callbacks_precede_loads (p : Path) (r : Res V)
    (l1 l2 : list (Event V)) s :
  out_log (cycle s) = l1 ++ EvLoad p r :: l2 →
  Forall from_reload_or_wait l2.
Proof.
  destruct (cycle_phases s) as (log2 & log3 & -> & Hlog2 & Hlog3 & _).
  destruct (detect_changes_always s) as [_ Hlog1].
  rewrite app_assoc. intros Heq. symmetry in Heq.
  apply (app_cons_split is_loading) in Heq as [B1 ->]; [| |done].
  - apply Forall_app in Hlog3 as [_ Hlog3]. by apply Forall_cons in Hlog3 as [_ ?].
  - apply Forall_app. split.
    + eapply Forall_impl; [exact Hlog1|]. by intros [].
    + eapply Forall_impl; [exact Hlog2|]. by intros [].
Qed.
End CycleCalls.

(** * Where an exception leaves a cycle *)

Section RaisePlaces.
Context {W V : Type} `{!Collaborators W V}.
Implicit Types s : Sys W V.
Implicit Types log : list (Event V).

(** A loop that is left by an exception has logged something, and what
    holds of the last event of the failing iteration holds of the last
    event of the loop. *)
Lemma foreach_raise_last {A B} (I : list A → Sys W V → Prop)
    (Q : Sys W V → Event V → Prop) (l : list A)
    (body : A → M W V (list B)) s :
  I l s →
  (∀ x rest s0, I (x :: rest) s0 →
     match out_res (body x s0) with
     | Ret _ => I rest (out_sys (body x s0))
     | Raise _ =>
         ∃ l' ev, out_log (body x s0) = l' ++ [ev] ∧ Q (out_sys (body x s0)) ev
     end) →
  match out_res (foreach l body s) with
  | Ret _ => I [] (out_sys (foreach l body s))
  | Raise _ =>
      ∃ l' ev, out_log (foreach l body s) = l' ++ [ev] ∧
               Q (out_sys (foreach l body s)) ev
  end.
Proof.
  intros HI Hbody.
  apply (foreach_inv (λ rest s' _, I rest s')
           (λ _ s' log, ∃ l' ev, log = l' ++ [ev] ∧ Q s' ev)); [done|].
  intros x rest s0 log0 HI0. specialize (Hbody x rest s0 HI0).
  destruct (out_res (body x s0)); [done|].
  destruct Hbody as (l' & ev & -> & HQ). exists (log0 ++ l'), ev.
  by rewrite app_assoc.
Qed.

Lemma detect_changes_raise_last s :
  match out_res (detect_changes s) with
  | Ret _ => True
  | Raise _ => ∃ l' f p, out_log (detect_changes s) = l' ++ [EvNotify f p]
  end.
Proof.
  rewrite detect_changes_unfold.
  pose proof (foreach_raise_last (λ _ _, True)
                (λ _ ev, ∃ f p, ev = EvNotify f p)
                (map_to_list (watched (self s))) detect_path s I) as H.
  destruct (out_res (foreach (map_to_list (watched (self s))) detect_path s));
    [done|].
  destruct H as (l' & ev & -> & f & p & ->); [|by eauto].
  intros [q fs] rest s0 _. cbn.
  pose proof (foreach_raise_last (λ _ _, True)
                (λ _ ev, ∃ f p, ev = EvNotify f p)
                (elements fs) (detect_function q) s0 I) as H'.
  destruct (out_res (foreach (elements fs) (detect_function q) s0)); [done|].
  apply H'. intros f rest' s1 _. rewrite detect_function_unfold. cbn.
  destruct (watcher_check q (world s1)) as [[|] w1]; cbn; [|done].
  destruct (call_function f q w1) as [[[]|e'] w2]; cbn; [done|].
  exists [EvCheck q true], (EvNotify f q). eauto.
Qed.

(** The loop over the pairs of a key, left by an exception. *)
Lemma resolve_pairs_raise_last (k : Key) (fs : gset (Fn * Fn)) s :
  missing (self s) !! k = Some fs →
  let o := foreach (elements fs) (resolve_pair k) s in
  match out_res o with
  | Ret _ => True
  | Raise _ =>
      ∃ l' ev, out_log o = l' ++ [ev] ∧ resolution_left_at (self (out_sys o)) ev
  end.
Proof.
  intros Hk. cbn zeta.
  pose proof (foreach_raise_last
    (λ rest s', NoDup rest ∧
       ∃ cur, missing (self s') !! k = Some cur ∧ ∀ x, x ∈ rest → x ∈ cur)
    (λ s' ev, resolution_left_at (self s') ev)
    (elements fs) (resolve_pair k) s) as H.
  destruct (out_res (foreach (elements fs) (resolve_pair k) s)); [done|].
  apply H; clear H.
  { split; [apply NoDup_elements|]. exists fs. split; [done|].
    intros x. by rewrite elem_of_elements. }
  intros [c f] rest s0 (Hnd & cur & Hcur & Hsub).
  apply NoDup_cons in Hnd as [Hx Hnd].
  assert ((c, f) ∈ cur) as Hin by (apply Hsub; by left).
  assert (∀ x, x ∈ rest → x ∈ cur) as Hsub' by (intros x ?; apply Hsub; by right).
  rewrite resolve_pair_unfold. cbn.
  destruct (call_condition c k (world s0)) as [[v|err] w1]; cbn.
  - destruct (truthy v) as [p|]; cbn.
    + destruct (call_function f p w1) as [[[]|err] w2]; cbn.
      * split; [done|]. exists (cur ∖ {[(c, f)]}). cbn.
        rewrite lookup_alter_eq, Hcur. split; [done|].
        intros x Hxr. apply elem_of_difference. split; [by apply Hsub'|].
        apply not_elem_of_singleton. by intros ->.
      * exists [EvPoll k c f (Ret v)], (EvFound k c f p). split; [done|].
        cbn. by exists cur.
    + split; [done|]. by exists cur.
  - destruct (reported err (self s0)) eqn:Hpl; cbn.
    + split; [done|]. by exists cur.
    + by exists [], (EvPoll k c f (Raise err)).
Qed.

(** Missing resolution, left by an exception: the last event is the
    call of the callback of a pair that is still pending, or the
    failure of a condition function that nobody could report. *)
Lemma resolve_missing_raise_last s :
  let o := resolve_missing s in
  match out_res o with
  | Ret _ => True
  | Raise _ =>
      ∃ l' ev, out_log o = l' ++ [ev] ∧ resolution_left_at (self (out_sys o)) ev
  end.
Proof.
  cbn zeta. rewrite resolve_missing_unfold.
  pose proof (foreach_raise_last
    (λ rest s', NoDup rest.*1 ∧
       ∀ k fs, (k, fs) ∈ rest → missing (self s') !! k = Some fs)
    (λ s' ev, resolution_left_at (self s') ev)
    (map_to_list (missing (self s))) resolve_key s) as H.
  destruct (out_res (foreach (map_to_list (missing (self s))) resolve_key s));
    [done|].
  apply H; clear H.
  { split; [apply NoDup_fst_map_to_list|].
    intros k fs Hin. by apply elem_of_map_to_list in Hin. }
  intros [k fs] rest s0 (Hnd & Hsnap).
  cbn in Hnd. apply NoDup_cons in Hnd as [Hk Hnd].
  assert (missing (self s0) !! k = Some fs) as Hk0 by (apply Hsnap; by left).
  pose proof (resolve_pairs_raise_last k fs s0 Hk0) as Hraise.
  cbn zeta in Hraise.
  assert (∀ k', k' ≠ k →
    missing (self (out_sys (resolve_key (k, fs) s0))) !! k'
    = missing (self s0) !! k') as Hlocal.
  { intros k' Hne. by apply resolve_key_local. }
  rewrite resolve_key_unfold in *. cbn zeta in *.
  destruct (out_res (foreach (elements fs) (resolve_pair k) s0)); cbn in *;
    [|done].
  split; [done|]. intros k' fs' Hin.
  assert (k' ≠ k) as Hne.
  { intros ->. apply Hk. apply list_elem_of_fmap. by exists (k, fs'). }
  rewrite Hlocal by done. apply Hsnap. by right.
Qed.

Lemma reload_raise_last (toload : list Path) s :
  match out_res (reload toload s) with
  | Ret _ => True
  | Raise _ =>
      ∃ l' p e, out_log (reload toload s) = l' ++ [EvLoad p (Raise e)]
  end.
Proof.
  rewrite reload_unfold. cbn.
  pose proof (foreach_raise_last (λ _ _, True)
                (λ _ ev, ∃ p e, ev = EvLoad p (Raise e))
                toload reload_path s I) as H.
  destruct (out_res (foreach toload reload_path s)); [done|].
  destruct H as (l' & ev & -> & p & e' & ->); [|by eauto].
  intros p rest s0 _. rewrite reload_path_unfold. cbn.
  destruct (call_load p (world s0)) as [[v|e'] w]; cbn; [done|].
  destruct (reported e' (self s0)); cbn; [done|].
  exists [], (EvLoad p (Raise e')). eauto.
Qed.

(** An exception that leaves a cycle leaves it in one of three places,
    which the last event of the cycle tells apart. *)
Lemma cycle_raise_last (e : Exn) s :
  out_res (cycle s) = Raise e →
  ∃ l ev, out_log (cycle s) = l ++ [ev] ∧
    match ev with
    | EvNotify f p =>
        self (out_sys (cycle s)) = self s ∧
        Forall from_detection (out_log (cycle s)) ∧
        registered f p (self s)
    | EvFound k c f p =>
        pending k (c, f) (self (out_sys (cycle s))) ∧
        loaded (self (out_sys (cycle s))) = loaded (self s) ∧
        Forall (λ ev', is_loading ev' = false) (out_log (cycle s))
    | EvPoll _ _ _ (Raise _) | EvLoad _ (Raise _) => True
    | _ => False
    end.
Proof.
  rewrite cycle_unfold. cbn zeta.
  destruct (detect_changes_always s) as [Hself1 Hlog1].
  destruct (detect_changes_registered s) as [Hreg1 _].
  pose proof (detect_changes_raise_last s) as H1.
  destruct (out_res (detect_changes s)) as [changed|e1]; cbn.
  2:{ intros _. destruct H1 as (l' & f & p & Hlog).
      exists l', (EvNotify f p). split; [done|]. split_and!; [done|done|].
      rewrite Hlog in Hreg1. apply Forall_app in Hreg1 as [_ Hreg1].
      by apply Forall_cons in Hreg1 as [? _]. }
  destruct (resolve_missing_always (out_sys (detect_changes s)))
    as [(_ & _ & _ & Hld2 & _) Hlog2].
  pose proof (resolve_missing_raise_last (out_sys (detect_changes s))) as H2.
  cbn zeta in H2.
  destruct (out_res (resolve_missing (out_sys (detect_changes s))))
    as [resolved|e2]; cbn.
  2:{ intros _. destruct H2 as (l' & ev & Hlog & Hev).
      exists (out_log (detect_changes s) ++ l'), ev.
      rewrite Hlog, app_assoc. split; [done|].
      destruct ev as [| | |k c f [v|e']|k c f p| | |]; try done.
      cbn in Hev. split_and!; [done|by rewrite Hld2, Hself1|].
      rewrite <- app_assoc, <- Hlog. apply Forall_app. split.
      - eapply Forall_impl; [exact Hlog1|]. by intros [].
      - eapply Forall_impl; [exact Hlog2|]. by intros []. }
  pose proof (reload_raise_last (changed ++ resolved)
                (out_sys (resolve_missing (out_sys (detect_changes s))))) as H3.
  destruct (out_res (reload (changed ++ resolved)
              (out_sys (resolve_missing (out_sys (detect_changes s))))))
    as [[]|e3]; cbn; [done|].
  intros _. destruct H3 as (l' & p & e' & ->).
  exists (out_log (detect_changes s)
          ++ out_log (resolve_missing (out_sys (detect_changes s))) ++ l'),
         (EvLoad p (Raise e')).
  by rewrite <- !app_assoc.
Qed.

(** X16: a callback that raises when it is told of a change ends the
    cycle there, with or without a logger: its exception leaves the
    cycle, the loader is as it was when the cycle started, and the cycle
    has called nothing but the detector and callbacks of change
    detection: no condition function is polled and nothing is
    reloaded. *)
Theorem notify_failure_ends_cycle (e : Exn) (l : list (Event V))
    (f : Fn) (p : Path) s :
  out_res (cycle s) = Raise e →
  out_log (cycle s) = l ++ [EvNotify f p] →
  registered f p (self s) ∧
  self (out_sys (cycle s)) = self s ∧
  Forall from_detection (out_log (cycle s)).
Proof.
  intros Hres Hlog.
  destruct (cycle_raise_last e s Hres) as (l' & ev & Hlog' & Hev).
  rewrite Hlog in Hlog'. apply app_inj_tail in Hlog' as [_ <-].
  by destruct Hev as (? & ? & ?).
Qed.

(** X17: a callback that raises when it is told of the path found for
    its key ends the cycle there, with or without a logger; its pair is
    not removed, so it is still pending when the loop is run again, and
    the cycle has loaded nothing: the Cache is as it was. *)
Theorem found_failure_keeps_pair (e : Exn) (l : list (Event V))
    (k : Key) (c f : Fn) (p : Path) s :
  out_res (cycle s) = Raise e →
  out_log (cycle s) = l ++ [EvFound k c f p] →
  pending k (c, f) (self s) ∧
  pending k (c, f) (self (out_sys (cycle s))) ∧
  loaded (self (out_sys (cycle s))) = loaded (self s) ∧
  Forall (λ ev, is_loading ev = false) (out_log (cycle s)).
Proof.
  intros Hres Hlog.
  destruct (cycle_raise_last e s Hres) as (l' & ev & Hlog' & Hev).
  rewrite Hlog in Hlog'. apply app_inj_tail in Hlog' as [_ <-].
  destruct Hev as (Hp & Hld & Hloads).
  split_and!; [|done|done|done].
  destruct (cycle_always s) as (_ & _ & _ & Hpend & _). by apply Hpend.
Qed.
End RaisePlaces.

(** * Where an exception can come from when a logger is attached *)

Section RaiseOrigin.
Context {W V : Type} `{!Collaborators W V}.
Implicit Types s : Sys W V.







End RaiseOrigin.

(** * What a cycle does about one pending pair *)

Section PairTrace.
Context {W V : Type} `{!Collaborators W V}.
Implicit Types s : Sys W V.
Implicit Types q : list (Event V).
Variables (k : Key) (c f : Fn).



Lemma pair_failed_iff (e : Exn) q (P P' : Prop) :
  (P' ↔ P) → pair_failed k c f e q P → pair_failed k c f e q P'.
Proof. unfold pair_failed. naive_solver. Qed.




End PairTrace.

Section KeyKept.
Context {W V : Type} `{!Collaborators W V}.
Implicit Types s : Sys W V.


End KeyKept.
(** * Pending pairs over several cycles *)

Section PendingPairs.
Context {W V : Type} `{!Collaborators W V}.
Implicit Types s : Sys W V.
Implicit Types log : list (Event V).

Lemma filter_poll_concerns (k : Key) (c f : Fn) log :
  List.filter (is_poll k c f) log
  = List.filter (is_poll k c f) (List.filter (concerns k c f) log).
Proof.
  induction log as [|ev log IH]; [done|]. cbn. unfold concerns at 1.
  destruct (is_poll k c f ev) eqn:Hev; cbn; [by rewrite Hev, IH|].
  destruct (is_found k c f ev); cbn; [by rewrite Hev|done].
Qed.

Lemma filter_found_concerns (k : Key) (c f : Fn) log :
  List.filter (is_found k c f) log
  = List.filter (is_found k c f) (List.filter (concerns k c f) log).
Proof.
  induction log as [|ev log IH]; [done|]. cbn. unfold concerns at 1.
  destruct (is_found k c f ev) eqn:Hev; cbn.
  - rewrite orb_true_r. cbn. by rewrite Hev, IH.
  - destruct (is_poll k c f ev); cbn; [by rewrite Hev|done].
Qed.

Lemma elem_of_filter_concerns (k : Key) (c f : Fn) (ev : Event V) log :
  ev ∈ log → concerns k c f ev = true →
  ev ∈ List.filter (concerns k c f) log.
Proof.
  intros Hin Hev. apply list_elem_of_In, List.filter_In.
  split; [by apply list_elem_of_In|done].
Qed.

(** What [poll_outcome] says in terms of single events: the pair was
    polled once, with answer [r], and its callback was called once with
    the path found, or not at all. *)
Lemma poll_outcome_events (k : Key) (c f : Fn) (r : Res PyVal) log
    (cl : ConfigLoader V) :
  poll_outcome k c f r log cl →
  List.filter (is_poll k c f) log = [EvPoll k c f r] ∧
  (∀ r', EvPoll k c f r' ∈ log → r' = r) ∧
  List.filter (is_found k c f) log =
    match r with
    | Ret v => if truthy v is Some p then [EvFound k c f p] else []
    | Raise _ => []
    end.
Proof.
  intros Hout.
  assert (bool_decide (k = k ∧ c = c ∧ f = f) = true) as Hsame.
  { by apply bool_decide_eq_true. }
  assert (∃ tl, List.filter (concerns k c f) log = EvPoll k c f r :: tl ∧
                List.filter (is_poll k c f) tl = [] ∧
                List.filter (is_found k c f) tl =
                  match r with
                  | Ret v => if truthy v is Some p then [EvFound k c f p] else []
                  | Raise _ => []
                  end) as (tl & Hfilter & Hpolls & Hfounds).
  { unfold poll_outcome in Hout. destruct r as [v|e].
    - destruct (truthy v) as [p|].
      + destruct Hout as [-> _]. eexists. split; [done|]. cbn.
        by rewrite Hsame.
      + destruct Hout as [-> _]. by eexists.
    - destruct Hout as (-> & _). by eexists. }
  split_and!.
  - rewrite filter_poll_concerns, Hfilter. cbn. by rewrite Hsame, Hpolls.
  - intros r' Hin.
    apply (elem_of_filter_concerns k c f) in Hin.
    2:{ unfold concerns. cbn. by rewrite Hsame. }
    rewrite Hfilter in Hin. apply elem_of_cons in Hin as [?|Hin];
      [congruence|].
    assert (EvPoll k c f r' ∈ List.filter (is_poll k c f) tl) as Hin'.
    { apply list_elem_of_In, List.filter_In.
      split; [by apply list_elem_of_In|]. cbn. done. }
    rewrite Hpolls in Hin'. by apply elem_of_nil in Hin'.
  - rewrite filter_found_concerns, Hfilter. cbn. done.
Qed.


Lemma after_add (n m : nat) s : after (n + m) s = after m (after n s).
Proof.
  induction m as [|m IH]; [by rewrite Nat.add_0_r|].
  rewrite Nat.add_succ_r. cbn. by rewrite IH.
Qed.





End PendingPairs.

(** * The scenarios *)

Section Checks.
Context {V : Type}.

(** The invariants can be checked by computation. *)
Lemma registry_ok_check (c : ConfigLoader V) :
  bool_decide (map_Forall (λ _ (fs : gset Fn), fs ≠ ∅) (watched c)) = true →
  registry_ok c.
Proof.
  intros H%bool_decide_eq_true. intros p fs Hp. exact (H p fs Hp).
Qed.

Lemma missing_ok_check (c : ConfigLoader V) :
  bool_decide (map_Forall (λ _ (fs : gset (Fn * Fn)), fs ≠ ∅) (missing c))
    = true →
  missing_ok c.
Proof.
  intros H%bool_decide_eq_true. intros k fs Hk. exact (H k fs Hk).
Qed.

End Checks.

Module ScenarioFacts.
Import Scenario.

(** C1: with the two callbacks [markDirty] and [reloadTheme] registered
    on [theme.json] and a detector whose check consumes the change, a
    cycle in which the detector reports the change calls one of the two
    callbacks and not the other, where the claim has each of them
    called once; the Cache takes the reloaded value. *)
Theorem second_callback_not_notified :
  registered "markDirty" "theme.json" (self two_callbacks) ∧
  registered "reloadTheme" "theme.json" (self two_callbacks) ∧
  EvCheck "theme.json" true ∈ out_log (cycle two_callbacks) ∧
  count (is_notify "markDirty" "theme.json") (out_log (cycle two_callbacks))
  + count (is_notify "reloadTheme" "theme.json")
      (out_log (cycle two_callbacks)) = 1 ∧
  ¬ (count (is_notify "markDirty" "theme.json")
       (out_log (cycle two_callbacks)) = 1 ∧
     count (is_notify "reloadTheme" "theme.json")
       (out_log (cycle two_callbacks)) = 1) ∧
  loaded (self (out_sys (cycle two_callbacks))) !! "theme.json"
  = Some "light".
Proof.
  assert (count (is_notify "markDirty" "theme.json")
            (out_log (cycle two_callbacks))
          + count (is_notify "reloadTheme" "theme.json")
              (out_log (cycle two_callbacks)) = 1) as Hone
    by (vm_compute; reflexivity).
  split_and!.
  - exists {[ "markDirty"; "reloadTheme" ]}. split; [|set_solver].
    vm_compute. reflexivity.
  - exists {[ "markDirty"; "reloadTheme" ]}. split; [|set_solver].
    vm_compute. reflexivity.
  - vm_compute. left.
  - exact Hone.
  - intros [_ H2]. vm_compute in H2. discriminate.
  - vm_compute. reflexivity.
Qed.

(** The first scenario of the specification: the detector answers
    false, true, false; [markDirty] is called once, in the second cycle,
    and the Cache is refreshed then. *)
Example theme_scenario :
  out_log (cycle theme_watched)
  = [EvCheck "theme.json" false; EvWait (Some 5%Z)] ∧
  out_log (cycle theme_changed)
  = [EvCheck "theme.json" true; EvNotify "markDirty" "theme.json";
     EvLoad "theme.json" (Ret "light"); EvWait (Some 5%Z)] ∧
  out_log (cycle (then_ theme_changed cycle))
  = [EvCheck "theme.json" false; EvWait (Some 5%Z)] ∧
  loaded (self (then_ theme_changed cycle)) !! "theme.json" = Some "light".
Proof. split_and!; vm_compute; reflexivity. Qed.

(** The detector still watches a path whose last callback has been
    unregistered. *)
Example watch_outlives_callbacks :
  "theme.json"
    ∈ watches (detector (world (then_ theme_watched
                                  (unregister_functions {[ "markDirty" ]})))) ∧
  watched (self (then_ theme_watched (unregister_functions {[ "markDirty" ]})))
  = ∅.
Proof.
  split; [|vm_compute; reflexivity].
  apply (bool_decide_unpack _). vm_compute. exact I.
Qed.


(** The same happens with a logger when the loader is left by an
    exception that is not an instance of [Exception]: nothing is
    reported, and [theme.json] is not loaded. *)
Example reload_interrupted_stops :
  pl (self polling_logged) = Some logger ∧
  out_res (@reload _ _ interrupted ["interrupt.json"; "theme.json"]
             polling_logged)
  = Raise (BaseException "KeyboardInterrupt") ∧
  out_log (@reload _ _ interrupted ["interrupt.json"; "theme.json"]
             polling_logged)
  = [EvLoad "interrupt.json" (Raise (BaseException "KeyboardInterrupt"))].
Proof. split_and!; vm_compute; reflexivity. Qed.



(** Against C6 as stated: no interval is configured, and yet
    [load("theme.json")] does not call the loader; it returns the value
    that was cached while an interval was configured, not what the
    loader would return now. *)
Lemma load_without_interval_cached :
  interval (self interval_cleared) = None ∧
  out_log (load "theme.json" interval_cleared) = [] ∧
  out_res (load "theme.json" interval_cleared) = Ret "dark" ∧
  (call_load "theme.json" (world interval_cleared)).1 = Ret "light".
Proof. split_and!; vm_compute; reflexivity. Qed.

(** *** The theorems at work *)


Lemma unregister_last_callback_witness :
  (watched (self theme_loaded) !! "theme.json" = Some {[ "markDirty" ]} ∧
   ({[ "markDirty" ]} : gset string) ⊆ {[ "markDirty"; "other" ]}) ∧
  let s' := out_sys (unregister_functions {[ "markDirty"; "other" ]}
                       theme_loaded) in
  watched (self s') !! "theme.json" = None ∧
  loaded (self s') !! "theme.json" = None ∧
  out_log (unregister_functions {[ "markDirty"; "other" ]} theme_loaded) = [] ∧
  world s' = world theme_loaded ∧
  out_log (load "theme.json" s')
  = [EvLoad "theme.json" (call_load "theme.json" (world theme_loaded)).1] ∧
  out_res (load "theme.json" s')
  = (call_load "theme.json" (world theme_loaded)).1.
Proof.
  assert (watched (self theme_loaded) !! "theme.json"
          = Some {[ "markDirty" ]}) as Hp by (vm_compute; reflexivity).
  assert (({[ "markDirty" ]} : gset string) ⊆ {[ "markDirty"; "other" ]})
    as Hsub by set_solver.
  exact (conj (conj Hp Hsub)
           (unregister_last_callback {[ "markDirty"; "other" ]} "theme.json"
              {[ "markDirty" ]} theme_loaded Hp Hsub)).
Defined.

Lemma load_passes_through_witness :
  (interval (self start) = None ∧ loaded (self start) !! "theme.json" = None) ∧
  load "theme.json" start =
  Build_Out (call_load "theme.json" (world start)).1
            (Build_Sys (self start) (call_load "theme.json" (world start)).2)
            [EvLoad "theme.json" (call_load "theme.json" (world start)).1].
Proof.
  assert (interval (self start) = None) as Hint by reflexivity.
  assert (loaded (self start) !! "theme.json" = None) as Hnone
    by (vm_compute; reflexivity).
  exact (conj (conj Hint Hnone)
           (load_passes_through "theme.json" start Hint Hnone)).
Defined.

Lemma theme_loaded_ok :
  registry_ok (self theme_loaded) ∧ missing_ok (self theme_loaded).
Proof.
  split; [apply registry_ok_check|apply missing_ok_check];
    vm_compute; reflexivity.
Qed.

Lemma colorscheme_missing_ok :
  registry_ok (self colorscheme_missing) ∧
  missing_ok (self colorscheme_missing).
Proof.
  split; [apply registry_ok_check|apply missing_ok_check];
    vm_compute; reflexivity.
Qed.

Lemma unregister_frame_witness :
  (registry_ok (self theme_loaded) ∧ missing_ok (self theme_loaded)) ∧
  (let s' := out_sys (unregister_functions {[ "other" ]} theme_loaded) in
   (∀ p fs, watched (self theme_loaded) !! p = Some fs → fs ## {[ "other" ]} →
            watched (self s') !! p = Some fs ∧
            loaded (self s') !! p = loaded (self theme_loaded) !! p) ∧
   missing (self s') = missing (self theme_loaded)) ∧
  (let s' := out_sys (unregister_missing {[ ("find", "onFound") ]}
                        theme_loaded) in
   (∀ k ps, missing (self theme_loaded) !! k = Some ps →
            ps ## {[ ("find", "onFound") ]} →
            missing (self s') !! k = Some ps) ∧
   watched (self s') = watched (self theme_loaded) ∧
   loaded (self s') = loaded (self theme_loaded)).
Proof.
  exact (conj theme_loaded_ok
           (unregister_frame {[ "other" ]} {[ ("find", "onFound") ]}
              theme_loaded (proj1 theme_loaded_ok) (proj2 theme_loaded_ok))).
Defined.

Lemma invariants_preserved_witness :
  (registry_ok (self colorscheme_missing) ∧
   missing_ok (self colorscheme_missing)) ∧
  (∀ function path,
     let s' := out_sys (register function path colorscheme_missing) in
     registry_ok (self s') ∧ missing_ok (self s')) ∧
  (∀ condition_function function key,
     let s' := out_sys (register_missing condition_function function key
                          colorscheme_missing) in
     registry_ok (self s') ∧ missing_ok (self s')) ∧
  (∀ removed_functions,
     let s' := out_sys (unregister_functions removed_functions
                          colorscheme_missing) in
     registry_ok (self s') ∧ missing_ok (self s')) ∧
  (∀ removed_functions,
     let s' := out_sys (unregister_missing removed_functions
                          colorscheme_missing) in
     registry_ok (self s') ∧ missing_ok (self s')) ∧
  (let s' := out_sys (cycle colorscheme_missing) in
   registry_ok (self s') ∧ missing_ok (self s')).
Proof.
  exact (conj colorscheme_missing_ok
           (invariants_preserved colorscheme_missing
              (proj1 colorscheme_missing_ok) (proj2 colorscheme_missing_ok))).
Defined.









Lemma exception_policy_witness :
  (pl (self polling_logged) = Some logger ∧
   pl (self colorscheme_unlogged) = None ∧
   EvPoll "theme" "broken" "onTheme" (Raise (Exception "broken"))
     ∈ out_log (cycle colorscheme_unlogged) ∧
   failure (EvPoll "theme" "broken" "onTheme" (Raise (Exception "broken"))
              : Event string) = Some (Exception "broken") ∧
   running colorscheme_unlogged = true) ∧
  exception (Exception "broken") "Error: {0}" ["theme"] polling_logged
  = Build_Out (Ret tt) polling_logged
      [EvReport "Error: {0}" "config_loader" ["theme"]] ∧
  exception (Exception "broken") "Error: {0}" ["theme"] colorscheme_unlogged
  = Build_Out (Raise (Exception "broken")) colorscheme_unlogged [] ∧
  out_res (cycle colorscheme_unlogged) = Raise (Exception "broken") ∧
  (∃ log, out_log (cycle colorscheme_unlogged)
          = log ++ [EvPoll "theme" "broken" "onTheme" (Raise (Exception "broken"))]) ∧
  out_res (run 3 colorscheme_unlogged) = Raise (Exception "broken") ∧
  out_log (run 3 colorscheme_unlogged) = out_log (cycle colorscheme_unlogged).
Proof.
  assert (pl (self polling_logged) = Some logger) as Hpl by reflexivity.
  assert (pl (self colorscheme_unlogged) = None) as Hnone by reflexivity.
  assert (EvPoll "theme" "broken" "onTheme" (Raise (Exception "broken"))
            ∈ out_log (cycle colorscheme_unlogged)) as Hin.
  { vm_compute. right. left. }
  assert (failure (EvPoll "theme" "broken" "onTheme" (Raise (Exception "broken"))
                     : Event string) = Some (Exception "broken")) as Hev by reflexivity.
  assert (running colorscheme_unlogged = true) as Hrun
    by (vm_compute; reflexivity).
  pose proof (exception_policy (Exception "broken") "Error: {0}" ["theme"] 2
                polling_logged) as (Hattached & _ & _).
  pose proof (exception_policy (Exception "broken") "Error: {0}" ["theme"] 2
                colorscheme_unlogged) as (_ & Hdetached & Hfatal).
  destruct (Hfatal Hnone _ _ Hin Hev) as (Hres & Hlast & Hdead).
  destruct (Hdead Hrun) as [Hrun_res Hrun_log].
  exact (conj (conj Hpl (conj Hnone (conj Hin (conj Hev Hrun))))
           (conj (Hattached logger Hpl)
              (conj (Hdetached Hnone)
                 (conj Hres (conj Hlast (conj Hrun_res Hrun_log)))))).
Defined.

Lemma run_observes_shutdown_witness :
  (interval (self start) = None ∧
   shutdown_is_set (world (meanwhile (stop_in 0) colorscheme_missing)) = true ∧
   running stopping = true ∧
   completes cycle stopping ∧
   shutdown_is_set (world (out_sys (cycle stopping))) = true ∧
   completes cycle stopped_at_work ∧
   shutdown_is_set (world (out_sys (work stopped_at_work))) = true) ∧
  run 3 start = Build_Out (Ret Returned) start [] ∧
  run 3 (meanwhile (stop_in 0) colorscheme_missing)
  = Build_Out (Ret Returned) (meanwhile (stop_in 0) colorscheme_missing) [] ∧
  run 3 stopping = (cycle ≫= λ _, run 2) stopping ∧
  out_log (cycle stopping)
  = out_log (work stopping)
    ++ [EvWait (interval (self (out_sys (work stopping))))] ∧
  out_sys (cycle stopping) = out_sys (wait (out_sys (work stopping))) ∧
  out_sys (cycle stopped_at_work) = out_sys (work stopped_at_work) ∧
  run 3 stopping
  = Build_Out (Ret Returned) (out_sys (cycle stopping))
      (out_log (cycle stopping)).
Proof.
  assert (interval (self start) = None) as Hint by reflexivity.
  assert (shutdown_is_set (world (meanwhile (stop_in 0) colorscheme_missing))
          = true) as Hset by reflexivity.
  assert (running stopping = true) as Hrun by (vm_compute; reflexivity).
  assert (completes cycle stopping) as Hcomplete
    by (exists tt; vm_compute; reflexivity).
  assert (shutdown_is_set (world (out_sys (cycle stopping))) = true) as Hset'
    by (vm_compute; reflexivity).
  assert (completes cycle stopped_at_work) as Hcomplete'
    by (exists tt; vm_compute; reflexivity).
  assert (shutdown_is_set (world (out_sys (work stopped_at_work))) = true)
    as Hset'' by (vm_compute; reflexivity).
  pose proof (run_observes_shutdown 3 start) as (Hidle & _).
  pose proof (run_observes_shutdown 3
                (meanwhile (stop_in 0) colorscheme_missing))
    as (_ & Hstopped & _).
  pose proof (run_observes_shutdown 2 stopping)
    as (_ & _ & Hstep & Hwait & Hlast).
  pose proof (run_observes_shutdown 2 stopped_at_work)
    as (_ & _ & _ & Hwait' & _).
  destruct (Hwait Hcomplete) as (Hlog & Hsys & _).
  destruct (Hwait' Hcomplete') as (_ & _ & Hatonce).
  exact (conj
    (conj Hint (conj Hset (conj Hrun (conj Hcomplete
       (conj Hset' (conj Hcomplete' Hset''))))))
    (conj (Hidle Hint)
       (conj (Hstopped Hset)
          (conj (Hstep Hrun)
             (conj Hlog (conj Hsys
                (conj (Hatonce Hset'') (Hlast Hrun Hcomplete Hset')))))))).
Defined.
End ScenarioFacts.

(** * What a cycle leaves pending *)

Section PendingAfter.
Context {W V : Type} `{!Collaborators W V}.
Implicit Types s : Sys W V.

(** X18: after a cycle that returns, a pair is pending under a key iff
    it was pending there when the cycle started and its callback was not
    called in the cycle: a pair is dropped exactly when its condition
    function gave a path and its callback was called with it, and a pair
    whose condition function gave nothing or raised stays. *)
Theorem pending_after_cycle (k : Key) (c f : Fn) s :
  completes cycle s →
  (pending k (c, f) (self (out_sys (cycle s)))
   ↔ pending k (c, f) (self s) ∧
     count (is_found k c f) (out_log (cycle s)) = 0).
Proof.
  intros Hcomplete.
  destruct (cycle_always s) as (_ & _ & _ & Hpend & _).
  assert (pending k (c, f) (self s) →
    (pending k (c, f) (self (out_sys (cycle s)))
     ↔ count (is_found k c f) (out_log (cycle s)) = 0)) as Hcase.
  { intros Hp. destruct (cycle_outcome k c f s Hp Hcomplete) as [r Hout].
    destruct (poll_outcome_events _ _ _ _ _ _ Hout) as (_ & _ & Hfound).
    unfold count. rewrite Hfound. unfold poll_outcome in Hout.
    destruct r as [v|e].
    - destruct (truthy v) as [q|]; destruct Hout as [_ Hafter]; cbn.
      + split; [done|lia].
      + done.
    - destruct Hout as (_ & Hafter & _). done. }
  split.
  - intros Hafter. assert (pending k (c, f) (self s)) as Hp by by apply Hpend.
    split; [done|]. by apply Hcase.
  - intros [Hp Hnone]. by apply Hcase.
Qed.
End PendingAfter.

(** * What is reported *)

Section Reports.
Context {W V : Type} `{!Collaborators W V}.
Implicit Types s : Sys W V.
Implicit Types log : list (Event V).

Lemma explained_app log1 log2 :
  reports_explained log1 → reports_explained log2 →
  reports_explained (log1 ++ log2).
Proof.
  intros H1 H2 msg pfx args Hin.
  apply elem_of_app in Hin as [Hin|Hin].
  - destruct (H1 _ _ _ Hin) as [Hpfx [(k & c & f & e & ? & ? & ?)|(p & e & ? & ? & ?)]];
      (split; [done|]); [left|right].
    + exists k, c, f, e. split_and!; [done|done|]. apply elem_of_app. by left.
    + exists p, e. split_and!; [done|done|]. apply elem_of_app. by left.
  - destruct (H2 _ _ _ Hin) as [Hpfx [(k & c & f & e & ? & ? & ?)|(p & e & ? & ? & ?)]];
      (split; [done|]); [left|right].
    + exists k, c, f, e. split_and!; [done|done|]. apply elem_of_app. by right.
    + exists p, e. split_and!; [done|done|]. apply elem_of_app. by right.
Qed.

Lemma explained_quiet log :
  Forall (λ ev, is_report ev = false) log → reports_explained log.
Proof.
  intros Hall msg pfx args Hin. rewrite Forall_forall in Hall.
  by specialize (Hall _ Hin).
Qed.

Lemma foreach_explained {A B} (l : list A) (body : A → M W V (list B)) s :
  (∀ x s0, reports_explained (out_log (body x s0))) →
  reports_explained (out_log (foreach l body s)).
Proof.
  intros Hbody.
  apply (foreach_always (λ _ _ log, reports_explained log)).
  { by apply explained_quiet. }
  intros x rest s0 log0 Hlog0.
  assert (reports_explained (log0 ++ out_log (body x s0))) as Hnew.
  { by apply explained_app. }
  by destruct (out_res (body x s0)).
Qed.

Lemma resolve_missing_explained s :
  reports_explained (out_log (resolve_missing s)).
Proof.
  rewrite resolve_missing_unfold. apply foreach_explained.
  intros [k fs] s0. rewrite resolve_key_unfold. cbn zeta.
  assert (reports_explained
            (out_log (foreach (elements fs) (resolve_pair k) s0))) as Hin.
  { apply foreach_explained. intros [c f] s1.
    rewrite resolve_pair_unfold. cbn.
    destruct (call_condition c k (world s1)) as [[v|e] w1]; cbn.
    - destruct (truthy v) as [p|]; cbn.
      + destruct (call_function f p w1) as [[[]|e] w2]; cbn;
          apply explained_quiet; by repeat constructor.
      + apply explained_quiet; by repeat constructor.
    - destruct (reported e (self s1)); cbn;
        [|apply explained_quiet; by repeat constructor].
      intros msg pfx args Hrep.
      apply elem_of_cons in Hrep as [?|Hrep]; [done|].
      apply list_elem_of_singleton in Hrep. simplify_eq.
      split; [done|]. left. exists k, c, f, e.
      split_and!; [done|done|by left]. }
  by destruct (out_res (foreach (elements fs) (resolve_pair k) s0)).
Qed.

Lemma reload_explained (toload : list Path) s :
  reports_explained (out_log (reload toload s)).
Proof.
  rewrite reload_unfold. cbn. apply foreach_explained.
  intros p s0. rewrite reload_path_unfold. cbn.
  destruct (call_load p (world s0)) as [[v|e] w]; cbn.
  - apply explained_quiet; by repeat constructor.
  - destruct (reported e (self s0)); cbn;
      [|apply explained_quiet; by repeat constructor].
    intros msg pfx args Hrep.
    apply elem_of_cons in Hrep as [?|Hrep]; [done|].
    apply list_elem_of_singleton in Hrep. simplify_eq.
    split; [done|]. right. exists p, e. split_and!; [done|done|by left].
Qed.

(** Without a logger nothing is reported. *)
Lemma cycle_silent s :
  pl (self s) = None →
  Forall (λ ev, is_report ev = false) (out_log (cycle s)).
Proof.
  intros Hpl. rewrite cycle_unfold. cbn zeta.
  destruct (detect_changes_always s) as [Hself1 Hlog1].
  assert (Forall (λ ev : Event V, is_report ev = false)
            (out_log (detect_changes s))) as Hq1.
  { eapply Forall_impl; [exact Hlog1|]. by intros []. }
  destruct (out_res (detect_changes s)) as [changed|e]; cbn; [|done].
  assert (pl (self (out_sys (resolve_missing (out_sys (detect_changes s)))))
          = None ∧
          Forall (λ ev : Event V, is_report ev = false)
            (out_log (resolve_missing (out_sys (detect_changes s)))))
    as [Hpl2 Hq2].
  { rewrite resolve_missing_unfold.
    apply (foreach_preserves (λ s', pl (self s') = None)
             (λ ev, is_report ev = false)); [by rewrite Hself1|].
    intros [k fs] s0 _ Hpl0.
    destruct (resolve_key_settles (k, fs) s0) as [(Hpl' & _) _].
    split; [congruence|]. rewrite resolve_key_unfold. cbn zeta.
    assert (Forall (λ ev : Event V, is_report ev = false)
              (out_log (foreach (elements fs) (resolve_pair k) s0))) as Hin.
    { apply (foreach_preserves (λ s', pl (self s') = None)
               (λ ev, is_report ev = false)); [done|].
      intros [c f] s1 _ Hpl1.
      destruct (resolve_pair_settles k (c, f) s1) as [(Hpl1' & _) _].
      split; [congruence|]. rewrite resolve_pair_unfold. cbn.
      destruct (call_condition c k (world s1)) as [[v|e] w1]; cbn.
      2:{ rewrite (reported_detached e _ Hpl1). by repeat constructor. }
      destruct (truthy v) as [p|]; cbn; [|by repeat constructor].
      destruct (call_function f p w1) as [[[]|e] w2]; cbn;
        by repeat constructor. }
    by destruct (out_res (foreach (elements fs) (resolve_pair k) s0)). }
  destruct (out_res (resolve_missing (out_sys (detect_changes s))))
    as [resolved|e]; cbn; [|by apply Forall_app].
  assert (Forall (λ ev : Event V, is_report ev = false)
            (out_log (reload (changed ++ resolved)
               (out_sys (resolve_missing (out_sys (detect_changes s)))))))
    as Hq3.
  { rewrite reload_unfold. cbn.
    apply (foreach_preserves (λ s', pl (self s') = None)
             (λ ev, is_report ev = false)); [done|].
    intros p s0 _ Hpl0. rewrite reload_path_unfold. cbn.
    destruct (call_load p (world s0)) as [[v|e] w]; cbn;
      [split; [done|by repeat constructor]|].
    rewrite (reported_detached e _ Hpl0). cbn.
    split; [done|by repeat constructor]. }
  destruct (out_res (reload (changed ++ resolved)
              (out_sys (resolve_missing (out_sys (detect_changes s))))))
    as [[]|e]; cbn; rewrite !Forall_app; split_and!; try done.
  by repeat constructor.
Qed.

(** X19: a cycle reports nothing that did not happen.  Every call of
    the logger in a cycle carries the source tag [config_loader] and is
    the report of a condition function or of a loader call that raised
    in this cycle, with the key or the path and the text of the
    exception as arguments; and without a logger no report is made. *)
Theorem reports_have_causes s :
  reports_explained (out_log (cycle s)) ∧
  (pl (self s) = None →
   ∀ msg pfx args, EvReport msg pfx args ∉ out_log (cycle s)).
Proof.
  split.
  - rewrite cycle_unfold. cbn zeta.
    destruct (detect_changes_always s) as [_ Hlog1].
    assert (reports_explained (out_log (detect_changes s))) as H1.
    { apply explained_quiet. eapply Forall_impl; [exact Hlog1|]. by intros []. }
    destruct (out_res (detect_changes s)) as [changed|e]; cbn; [|done].
    pose proof (resolve_missing_explained (out_sys (detect_changes s))) as H2.
    destruct (out_res (resolve_missing (out_sys (detect_changes s))))
      as [resolved|e]; cbn; [|by apply explained_app].
    pose proof (reload_explained (changed ++ resolved)
      (out_sys (resolve_missing (out_sys (detect_changes s))))) as H3.
    destruct (out_res (reload (changed ++ resolved)
                (out_sys (resolve_missing (out_sys (detect_changes s))))))
      as [[]|e]; cbn.
    + apply explained_app; [done|]. apply explained_app; [done|].
      apply explained_app; [done|]. apply explained_quiet.
      by repeat constructor.
    + apply explained_app; [done|]. by apply explained_app.
  - intros Hpl msg pfx args Hin.
    pose proof (cycle_silent s Hpl) as Hall.
    rewrite Forall_forall in Hall. by specialize (Hall _ Hin).
Qed.
End Reports.

(** * The loop *)

Section Loop.
Context {W V : Type} `{!Collaborators W V}.
Implicit Types s : Sys W V.

Lemma after_succ (n : nat) s : after (S n) s = after n (out_sys (cycle s)).
Proof. exact (after_add 1 n s). Qed.

Lemma cycle_logs_succ (n : nat) s :
  cycle_logs (S n) s = out_log (cycle s) ++ cycle_logs n (out_sys (cycle s)).
Proof.
  induction n as [|n IH]; [cbn; by rewrite app_nil_r|].
  change (cycle_logs (S (S n)) s)
    with (cycle_logs (S n) s ++ out_log (cycle (after (S n) s))).
  rewrite IH, after_succ, <- app_assoc. done.
Qed.

(** As long as the loop condition holds and the cycles return, [run]
    runs one cycle after the other. *)
Lemma run_prefix (n m : nat) s :
  (∀ i, i < n → running (after i s) = true ∧ completes cycle (after i s)) →
  run (n + m) s =
  Build_Out (out_res (run m (after n s))) (out_sys (run m (after n s)))
            (cycle_logs n s ++ out_log (run m (after n s))).
Proof.
  revert s. induction n as [|n IH]; intros s Hok.
  { cbn [after cycle_logs Nat.add app]. by destruct (run m s). }
  destruct (Hok 0) as [Hrun [[] Hres]]; [lia|]. cbn [after] in Hrun, Hres.
  change (S n + m) with (S (n + m)). rewrite run_step by done.
  rewrite bind_unfold, Hres, IH.
  - rewrite after_succ, cycle_logs_succ. cbn. by rewrite app_assoc.
  - intros i Hi. rewrite <- after_succ. apply Hok. lia.
Qed.

(** What [run] leaves of the loader, however it ends. *)
Lemma run_always (fuel : nat) s :
  let o := run fuel s in
  pl (self (out_sys o)) = pl (self s) ∧
  interval (self (out_sys o)) = interval (self s) ∧
  watched (self (out_sys o)) = watched (self s) ∧
  (∀ k pair, pending k pair (self (out_sys o)) → pending k pair (self s)) ∧
  (registry_ok (self s) → missing_ok (self s) →
   registry_ok (self (out_sys o)) ∧ missing_ok (self (out_sys o))) ∧
  (out_res o = Ret Returned → running (out_sys o) = false).
Proof.
  cbn zeta. revert s. induction fuel as [|fuel IH]; intros s.
  { cbn. destruct (running s) eqn:Hrun; cbn; by split_and!. }
  destruct (running s) eqn:Hrun.
  2:{ rewrite run_returns by done. cbn. by split_and!. }
  rewrite run_step by done. rewrite bind_unfold.
  destruct (cycle_always s) as (Hpl & Hint & Hwat & Hpend & _).
  pose proof (cycle_ok s) as Hok.
  destruct (out_res (cycle s)) as [[]|e]; cbn.
  - destruct (IH (out_sys (cycle s)))
      as (Hpl' & Hint' & Hwat' & Hpend' & Hok' & Hret').
    split_and!; try congruence.
    + intros k pair Hp. by apply Hpend, Hpend'.
    + intros Hr Hm. destruct (Hok Hr Hm). by apply Hok'.
    + done.
  - split_and!; try done.
Qed.
End Loop.

Section LoopTheorems.
Context {W V : Type} `{!Collaborators W V}.
Implicit Types s : Sys W V.

(** X20: [run], however many cycles it runs and however it ends, leaves
    the logger, the interval and the Registry as they were, makes no
    pair pending that was not, and keeps both registries free of empty
    sets; and when it returns, its loop condition is false: there is no
    interval or the shutdown event is set. *)
Theorem run_keeps_loader (fuel : nat) s :
  let o := run fuel s in
  pl (self (out_sys o)) = pl (self s) ∧
  interval (self (out_sys o)) = interval (self s) ∧
  watched (self (out_sys o)) = watched (self s) ∧
  (∀ k pair, pending k pair (self (out_sys o)) → pending k pair (self s)) ∧
  (registry_ok (self s) → missing_ok (self s) →
   registry_ok (self (out_sys o)) ∧ missing_ok (self (out_sys o))) ∧
  (out_res o = Ret Returned →
   interval (self (out_sys o)) = None ∨
   shutdown_is_set (world (out_sys o)) = true).
Proof.
  destruct (run_always fuel s) as (? & ? & ? & ? & ? & Hret).
  cbn zeta in *. split_and!; try done.
  intros Hres. specialize (Hret Hres). unfold running in Hret.
  apply andb_false_iff in Hret as [Hint|Hset].
  - left. apply bool_decide_eq_false in Hint.
    destruct (interval (self (out_sys (run fuel s)))); [|done].
    exfalso. apply Hint. by eexists.
  - right. by apply negb_false_iff.
Qed.

(** X21: [run] is the sequence of its cycles.  When the loop condition
    holds at the head of cycles 0 to n-1 and these cycles return, then,
    if the condition fails at the head of cycle n, [run] returns there,
    having logged what the n cycles logged; and if cycle n is reached
    with the condition true and raises, [run] ends with that
    exception, in the state the cycle left. *)
Theorem run_iterates (n fuel : nat) s :
  (∀ i, i < n → running (after i s) = true ∧ completes cycle (after i s)) →
  (running (after n s) = false → n ≤ fuel →
   run fuel s = Build_Out (Ret Returned) (after n s) (cycle_logs n s)) ∧
  (∀ e, running (after n s) = true →
        out_res (cycle (after n s)) = Raise e → n < fuel →
        run fuel s = Build_Out (Raise e) (after (S n) s) (cycle_logs (S n) s)).
Proof.
  intros Hok. split.
  - intros Hstop Hfuel. replace fuel with (n + (fuel - n)) by lia.
    rewrite run_prefix by done. by rewrite run_returns, app_nil_r.
  - intros e Hrun Hres Hfuel. replace fuel with (n + S (fuel - S n)) by lia.
    rewrite run_prefix by done. rewrite run_step by done.
    rewrite bind_unfold, Hres. done.
Qed.

(** X22: with nothing registered and nothing pending, a cycle calls no
    collaborator: it waits on the shutdown event, and the loader is as
    it was. *)
Theorem idle_cycle s :
  watched (self s) = ∅ → missing (self s) = ∅ →
  cycle s = Build_Out (Ret tt) (out_sys (wait s)) [EvWait (interval (self s))].
Proof.
  intros Hw Hm. rewrite cycle_unfold, detect_changes_unfold, Hw.
  rewrite map_to_list_empty. cbn.
  rewrite resolve_missing_unfold, Hm, map_to_list_empty. cbn.
  by destruct s.
Qed.
End LoopTheorems.

(** * Every state that the methods can reach *)

Section Histories.
Context {W V : Type} `{!Collaborators W V}.
Implicit Types s : Sys W V.

Lemma history_inv (P : Sys W V → Prop) (calls : list Call) s :
  P s →
  (∀ call s0, call ∈ calls → P s0 → P (perform call s0)) →
  P (foldl (λ s call, perform call s) s calls).
Proof.
  revert s. induction calls as [|call calls IH]; intros s Hs Hstep; [done|].
  cbn. apply IH.
  - apply Hstep; [by left|done].
  - intros call' s0 Hin. apply Hstep. by right.
Qed.

Lemma register_ok (function : Fn) (path : Path) s :
  registry_ok (self s) →
  registry_ok (self (out_sys (register function path s))).
Proof.
  intros Hreg. rewrite register_unfold. intros p fs. cbn.
  destruct (decide (path = p)) as [->|Hne].
  - rewrite lookup_insert_eq. intros [= <-]. set_solver.
  - rewrite lookup_insert_ne by done. apply Hreg.
Qed.

Lemma register_missing_ok (condition_function function : Fn) (key : Key) s :
  missing_ok (self s) →
  missing_ok
    (self (out_sys (register_missing condition_function function key s))).
Proof.
  intros Hmis. rewrite register_missing_unfold. intros k ps. cbn.
  destruct (decide (key = k)) as [->|Hne].
  - rewrite lookup_insert_eq. intros [= <-]. set_solver.
  - rewrite lookup_insert_ne by done. apply Hmis.
Qed.

(** [exception] changes nothing, whether it returns or raises. *)
Lemma exception_frame (e : Exn) (msg : string) (args : list string) s :
  out_sys (exception e msg args s) = s.
Proof.
  destruct (pl (self s)) as [lg|] eqn:Hpl.
  - by rewrite (exception_attached e msg args s lg).
  - by rewrite exception_detached.
Qed.

(** [load] changes nothing of the loader but the Cache. *)
Lemma load_frame (path : Path) s :
  let o := load path s in
  pl (self (out_sys o)) = pl (self s) ∧
  interval (self (out_sys o)) = interval (self s) ∧
  watched (self (out_sys o)) = watched (self s) ∧
  missing (self (out_sys o)) = missing (self s).
Proof.
  cbn zeta. destruct (loaded (self s) !! path) as [v|] eqn:Hp.
  - rewrite (load_hit path v) by done. done.
  - rewrite load_miss by done. cbn.
    destruct (call_load path (world s)).1; [|done].
    destruct (interval (self s)) eqn:Hi; cbn; by rewrite ?Hi.
Qed.

(** X23: in every state that calls of the methods [set_pl],
    [set_interval], [register], [register_missing],
    [unregister_functions], [unregister_missing], [load], [run] and
    [exception] can reach from a new loader, whether the calls returned
    or raised, no path of the Registry has an empty callback set and no
    key of the MissingRegistry an empty pair set. *)
Theorem registries_ok_always (calls : list Call) (w : W) :
  registry_ok (self (history calls w)) ∧ missing_ok (self (history calls w)).
Proof.
  unfold history.
  apply (history_inv (λ s, registry_ok (self s) ∧ missing_ok (self s))).
  { split; intros k fs Hk; cbn in Hk; by rewrite lookup_empty in Hk. }
  intros call s _ [Hreg Hmis]. destruct call; cbn [perform].
  - done.
  - done.
  - split; [by apply register_ok|done].
  - split; [done|by apply register_missing_ok].
  - destruct (unregister_functions_spec removed_functions s)
      as (_ & _ & _ & _ & _ & Hm & Hwat & _).
    cbn zeta in *. split.
    + intros p fs. rewrite Hwat.
      destruct (watched (self s) !! p) as [fs0|]; [|done].
      destruct (decide (fs0 ∖ removed_functions = ∅)); [done|].
      by intros [= <-].
    + unfold missing_ok. by rewrite Hm.
  - destruct (unregister_missing_spec removed_functions s)
      as (_ & _ & _ & _ & _ & Hwat & _ & Hm).
    cbn zeta in *. split.
    + unfold registry_ok. by rewrite Hwat.
    + intros k ps. rewrite Hm.
      destruct (missing (self s) !! k) as [ps0|]; [|done].
      destruct (decide (ps0 ∖ removed_functions = ∅)); [done|].
      by intros [= <-].
  - destruct (load_frame path s) as (_ & _ & Hwat & Hm). cbn zeta in *.
    unfold registry_ok, missing_ok. by rewrite Hwat, Hm.
  - destruct (run_always fuel s) as (_ & _ & _ & _ & Hok & _). by apply Hok.
  - by rewrite exception_frame.
Qed.

(** X24: as long as [set_interval] has not been called with an
    interval, the Cache stays empty whatever else is called, [run]
    included: every [load] calls the loader and hands on its outcome,
    and nothing is stored. *)
Theorem no_interval_no_cache (calls : list Call) (w : W) :
  (∀ i, CallSetInterval (Some i) ∉ calls) →
  interval (self (history calls w)) = None ∧
  loaded (self (history calls w)) = ∅ ∧
  ∀ p, load p (history calls w) =
       Build_Out (call_load p (world (history calls w))).1
         (Build_Sys (self (history calls w))
                    (call_load p (world (history calls w))).2)
         [EvLoad p (call_load p (world (history calls w))).1].
Proof.
  intros Hnever.
  assert (interval (self (history calls w)) = None ∧
          loaded (self (history calls w)) = ∅) as [Hint Hld].
  { unfold history.
    apply (history_inv (λ s, interval (self s) = None ∧ loaded (self s) = ∅));
      [done|].
    intros call s Hin [Hint Hld]. destruct call; cbn [perform].
    - done.
    - destruct x as [i|]; [|done]. by destruct (Hnever i).
    - by rewrite register_unfold.
    - by rewrite register_missing_unfold.
    - destruct (unregister_functions_spec removed_functions s)
        as (_ & _ & _ & _ & Hint' & _ & _ & Hld').
      cbn zeta in *. split; [congruence|].
      apply map_eq. intros p. rewrite Hld', Hld, lookup_empty.
      destruct (watched (self s) !! p) as [fs|]; [|done].
      by destruct (decide (fs ∖ removed_functions = ∅)).
    - destruct (unregister_missing_spec removed_functions s)
        as (_ & _ & _ & _ & Hint' & _ & Hld' & _).
      cbn zeta in *. split; congruence.
    - rewrite load_miss by (by rewrite Hld, lookup_empty). cbn.
      rewrite Hint. by destruct (call_load path (world s)).1.
    - rewrite run_returns; [done|]. unfold running. by rewrite Hint.
    - by rewrite exception_frame. }
  split_and!; [done|done|]. intros p.
  rewrite load_miss by (by rewrite Hld, lookup_empty). cbn.
  rewrite Hint. by destruct (call_load p (world (history calls w))).1.
Qed.
(** [run] drops no cached value. *)
Lemma run_keeps_cached (fuel : nat) (p : Path) s :
  is_Some (loaded (self s) !! p) →
  is_Some (loaded (self (out_sys (run fuel s))) !! p).
Proof.
  revert s. induction fuel as [|fuel IH]; intros s Hp.
  { cbn. by destruct (running s). }
  destruct (running s) eqn:Hrun; [|by rewrite run_returns].
  rewrite run_step by done. rewrite bind_unfold.
  assert (is_Some (loaded (self (out_sys (cycle s))) !! p)) as Hp'.
  { destruct (cycle_always s) as (_ & _ & _ & _ & Hld & _). rewrite Hld.
    by destruct (last_loaded p (out_log (cycle s))). }
  destruct (out_res (cycle s)) as [[]|e]; cbn; [by apply IH|done].
Qed.

(** X25: a cached value is dropped by nothing but
    [unregister_functions]: when a path has a cached value before a
    call of a method and none after it, the call was
    [unregister_functions(R)], the path was in the Registry and [R]
    holds all its callbacks.  So a value cached for a path that was
    never registered stays for good. *)
Theorem cache_dropped_only_by_unregister (call : Call) (p : Path) s :
  is_Some (loaded (self s) !! p) →
  loaded (self (perform call s)) !! p = None →
  ∃ R fs, call = CallUnregisterFunctions R ∧
          watched (self s) !! p = Some fs ∧ fs ⊆ R.
Proof.
  intros Hp Hgone. destruct call; cbn [perform] in Hgone.
  - cbn in Hgone. rewrite Hgone in Hp. by destruct Hp.
  - cbn in Hgone. rewrite Hgone in Hp. by destruct Hp.
  - rewrite register_unfold in Hgone. cbn in Hgone.
    rewrite Hgone in Hp. by destruct Hp.
  - rewrite register_missing_unfold in Hgone. cbn in Hgone.
    rewrite Hgone in Hp. by destruct Hp.
  - destruct (unregister_functions_spec removed_functions s)
      as (_ & _ & _ & _ & _ & _ & _ & Hld).
    cbn zeta in Hld. rewrite Hld in Hgone.
    destruct (watched (self s) !! p) as [fs|];
      [|rewrite Hgone in Hp; by destruct Hp].
    destruct (decide (fs ∖ removed_functions = ∅)) as [He|Hn];
      [|rewrite Hgone in Hp; by destruct Hp].
    exists removed_functions, fs. split_and!; [done|done|set_solver].
  - destruct (unregister_missing_spec removed_functions s)
      as (_ & _ & _ & _ & _ & _ & Hld & _).
    cbn zeta in Hld. rewrite Hld in Hgone. rewrite Hgone in Hp.
    by destruct Hp.
  - exfalso. destruct (loaded (self s) !! path) as [v|] eqn:Hpath.
    + rewrite (load_hit path v) in Hgone by done. cbn in Hgone.
      rewrite Hgone in Hp. by destruct Hp.
    + rewrite load_miss in Hgone by done. cbn in Hgone.
      destruct (call_load path (world s)).1;
        [|rewrite Hgone in Hp; by destruct Hp].
      destruct (interval (self s));
        [|rewrite Hgone in Hp; by destruct Hp].
      cbn in Hgone. destruct (decide (path = p)) as [->|Hne].
      * by rewrite lookup_insert_eq in Hgone.
      * rewrite lookup_insert_ne in Hgone by done.
        rewrite Hgone in Hp. by destruct Hp.
  - pose proof (run_keeps_cached fuel p s Hp) as Hkept.
    rewrite Hgone in Hkept. by destruct Hkept.
  - rewrite exception_frame in Hgone. rewrite Hgone in Hp. by destruct Hp.
Qed.
End Histories.

Module CoverageFacts.
Import Scenario MoreScenarios.

Lemma cached_only_fresh :
  registry_ok (self cached_only) ∧
  ∀ q fs, watched (self cached_only) !! q = Some fs → "markDirty" ∉ fs.
Proof.
  assert (watched (self cached_only) = ∅) as Hw by (vm_compute; reflexivity).
  split.
  - apply registry_ok_check. vm_compute. reflexivity.
  - intros q fs. rewrite Hw, lookup_empty. done.
Qed.

(** The value cached for [theme.json] does not survive the round
    trip. *)
Example round_trip_evicts :
  loaded (self cached_only) !! "theme.json" = Some "dark" ∧
  loaded (self (then_ (then_ cached_only (register "markDirty" "theme.json"))
                      (unregister_functions {[ "markDirty" ]})))
    !! "theme.json" = None.
Proof. split; vm_compute; reflexivity. Qed.

Lemma register_then_unregister_witness :
  (registry_ok (self cached_only) ∧
   ∀ q fs, watched (self cached_only) !! q = Some fs → "markDirty" ∉ fs) ∧
  let s' := out_sys (unregister_functions {[ "markDirty" ]}
                       (out_sys (register "markDirty" "theme.json"
                                   cached_only))) in
  watched (self s') = watched (self cached_only) ∧
  loaded (self s') =
    (if watched (self cached_only) !! "theme.json" is Some _
     then loaded (self cached_only)
     else delete "theme.json" (loaded (self cached_only))) ∧
  missing (self s') = missing (self cached_only) ∧
  pl (self s') = pl (self cached_only) ∧
  interval (self s') = interval (self cached_only).
Proof.
  exact (conj cached_only_fresh
           (register_then_unregister "markDirty" "theme.json" cached_only
              (proj1 cached_only_fresh) (proj2 cached_only_fresh))).
Defined.

Lemma polling_logged_fresh :
  missing_ok (self polling_logged) ∧
  ∀ q ps, missing (self polling_logged) !! q = Some ps →
          ("find", "onFound") ∉ ps.
Proof.
  assert (missing (self polling_logged) = ∅) as Hm by (vm_compute; reflexivity).
  split.
  - apply missing_ok_check. vm_compute. reflexivity.
  - intros q ps. rewrite Hm, lookup_empty. done.
Qed.

Lemma register_missing_then_unregister_witness :
  (missing_ok (self polling_logged) ∧
   ∀ q ps, missing (self polling_logged) !! q = Some ps →
           ("find", "onFound") ∉ ps) ∧
  out_sys (unregister_missing {[ ("find", "onFound") ]}
             (out_sys (register_missing "find" "onFound" "colorscheme"
                         polling_logged)))
  = polling_logged.
Proof.
  exact (conj polling_logged_fresh
           (register_missing_then_unregister "find" "onFound" "colorscheme"
              polling_logged
              (proj1 polling_logged_fresh) (proj2 polling_logged_fresh))).
Defined.

Lemma load_caches_witness :
  (interval (self polling) = Some 5%Z ∧
   loaded (self polling) !! "theme.json" = None ∧
   (call_load "theme.json" (world polling)).1 = Ret "dark") ∧
  let o := load "theme.json" polling in
  out_res o = Ret "dark" ∧ out_log o = [EvLoad "theme.json" (Ret "dark")] ∧
  self (out_sys o)
  = with_loaded (<["theme.json" := "dark"]> (loaded (self polling)))
                (self polling) ∧
  ∀ w, load "theme.json" (Build_Sys (self (out_sys o)) w)
       = Build_Out (Ret "dark") (Build_Sys (self (out_sys o)) w) [].
Proof.
  assert (interval (self polling) = Some 5%Z) as Hint by reflexivity.
  assert (loaded (self polling) !! "theme.json" = None) as Hnone
    by (vm_compute; reflexivity).
  assert ((call_load "theme.json" (world polling)).1 = Ret "dark") as Hv
    by (vm_compute; reflexivity).
  exact (conj (conj Hint (conj Hnone Hv))
           (load_caches "theme.json" 5%Z "dark" polling Hint Hnone Hv)).
Defined.

Lemma load_failure_not_cached_witness :
  (loaded (self polling) !! "missing.json" = None ∧
   (call_load "missing.json" (world polling)).1 = Raise (Exception "No such file")) ∧
  let o := load "missing.json" polling in
  out_res o = Raise (Exception "No such file") ∧
  out_log o = [EvLoad "missing.json" (Raise (Exception "No such file"))] ∧
  self (out_sys o) = self polling ∧
  out_log (load "missing.json" (out_sys o))
  = [EvLoad "missing.json" (call_load "missing.json" (world (out_sys o))).1].
Proof.
  assert (loaded (self polling) !! "missing.json" = None) as Hnone
    by (vm_compute; reflexivity).
  assert ((call_load "missing.json" (world polling)).1 = Raise (Exception "No such file"))
    as He by (vm_compute; reflexivity).
  exact (conj (conj Hnone He)
           (load_failure_not_cached "missing.json" (Exception "No such file")
              polling
              Hnone He)).
Defined.

Lemma load_after_cycle_witness :
  last_loaded "theme.json" (out_log (cycle two_callbacks)) = Some "light" ∧
  load "theme.json" (out_sys (cycle two_callbacks))
  = Build_Out (Ret "light") (out_sys (cycle two_callbacks)) [].
Proof.
  assert (last_loaded "theme.json" (out_log (cycle two_callbacks))
          = Some "light") as Hlast by (vm_compute; reflexivity).
  exact (conj Hlast (load_after_cycle "theme.json" "light" two_callbacks Hlast)).
Defined.

Lemma two_callbacks_complete : completes cycle two_callbacks.
Proof. exists tt. vm_compute. reflexivity. Qed.

Lemma detector_asked_per_callback_witness :
  completes cycle two_callbacks ∧
  count (is_check "theme.json") (out_log (cycle two_callbacks))
  = callbacks "theme.json" (self two_callbacks).
Proof.
  pose proof (detector_asked_per_callback "theme.json" two_callbacks)
    as [_ Heq].
  exact (conj two_callbacks_complete (Heq two_callbacks_complete)).
Defined.

(** Two callbacks, so the detector is asked twice about the one path. *)
Example two_callbacks_two_checks :
  callbacks "theme.json" (self two_callbacks) = 2 ∧
  out_log (cycle two_callbacks)
  = [EvCheck "theme.json" true; EvNotify "markDirty" "theme.json";
     EvCheck "theme.json" false;
     EvLoad "theme.json" (Ret "light"); EvWait (Some 5%Z)].
Proof. split; vm_compute; reflexivity. Qed.

Lemma second_cycle_completes : completes cycle (after 1 colorscheme_missing).
Proof. exists tt. vm_compute. reflexivity. Qed.

Lemma recorded_paths_reloaded_witness :
  completes cycle (after 1 colorscheme_missing) ∧
  count (is_load "/etc/found.json")
        (out_log (cycle (after 1 colorscheme_missing)))
  = count (is_notify_at "/etc/found.json")
          (out_log (cycle (after 1 colorscheme_missing)))
    + count (is_found_at "/etc/found.json")
            (out_log (cycle (after 1 colorscheme_missing))).
Proof.
  pose proof (recorded_paths_reloaded "/etc/found.json"
                (after 1 colorscheme_missing)) as [_ Heq].
  exact (conj second_cycle_completes (Heq second_cycle_completes)).
Defined.

Lemma callbacks_precede_loads_witness :
  out_log (cycle (after 1 colorscheme_missing))
  = [EvPoll "colorscheme" "find" "onFound" (Ret (PyStr "/etc/found.json"));
     EvFound "colorscheme" "find" "onFound" "/etc/found.json";
     EvPoll "theme" "broken" "onTheme" (Raise (Exception "broken"));
     EvReport "Error while running condition function for key {0}: {1}"
              "config_loader" ["theme"; "broken"]]
    ++ EvLoad "/etc/found.json" (Ret "solarized") :: [EvWait (Some 5%Z)] ∧
  Forall from_reload_or_wait [EvWait (Some 5%Z) : Event string].
Proof.
  assert (out_log (cycle (after 1 colorscheme_missing))
    = [EvPoll "colorscheme" "find" "onFound" (Ret (PyStr "/etc/found.json"));
       EvFound "colorscheme" "find" "onFound" "/etc/found.json";
       EvPoll "theme" "broken" "onTheme" (Raise (Exception "broken"));
       EvReport "Error while running condition function for key {0}: {1}"
                "config_loader" ["theme"; "broken"]]
      ++ EvLoad "/etc/found.json" (Ret "solarized") :: [EvWait (Some 5%Z)])
    as Hlog by (vm_compute; reflexivity).
  exact (conj Hlog
           (callbacks_precede_loads "/etc/found.json" (Ret "solarized") _ _
              (after 1 colorscheme_missing) Hlog)).
Defined.

Lemma notify_failure_ends_cycle_witness :
  (out_res (@cycle _ _ crashing crash_watched) = Raise (Exception "crash") ∧
   out_log (@cycle _ _ crashing crash_watched)
   = [EvCheck "theme.json" true] ++ [EvNotify "crash" "theme.json"]) ∧
  registered "crash" "theme.json" (self crash_watched) ∧
  self (out_sys (@cycle _ _ crashing crash_watched)) = self crash_watched ∧
  Forall from_detection (out_log (@cycle _ _ crashing crash_watched)).
Proof.
  assert (out_res (@cycle _ _ crashing crash_watched) = Raise (Exception "crash")) as Hres
    by (vm_compute; reflexivity).
  assert (out_log (@cycle _ _ crashing crash_watched)
          = [EvCheck "theme.json" true] ++ [EvNotify "crash" "theme.json"])
    as Hlog by (vm_compute; reflexivity).
  exact (conj (conj Hres Hlog)
           (@notify_failure_ends_cycle _ _ crashing (Exception "crash") _ "crash"
              "theme.json" crash_watched Hres Hlog)).
Defined.

Lemma found_failure_keeps_pair_witness :
  (out_res (@cycle _ _ crashing (@after _ _ crashing 1 crash_pending))
   = Raise (Exception "crash") ∧
   out_log (@cycle _ _ crashing (@after _ _ crashing 1 crash_pending))
   = [EvPoll "colorscheme" "find" "crash" (Ret (PyStr "/etc/found.json"))]
     ++ [EvFound "colorscheme" "find" "crash" "/etc/found.json"]) ∧
  pending "colorscheme" ("find", "crash")
    (self (@after _ _ crashing 1 crash_pending)) ∧
  pending "colorscheme" ("find", "crash")
    (self (out_sys (@cycle _ _ crashing
                      (@after _ _ crashing 1 crash_pending)))) ∧
  loaded (self (out_sys (@cycle _ _ crashing
                           (@after _ _ crashing 1 crash_pending))))
  = loaded (self (@after _ _ crashing 1 crash_pending)) ∧
  Forall (λ ev, is_loading ev = false)
    (out_log (@cycle _ _ crashing (@after _ _ crashing 1 crash_pending))).
Proof.
  assert (out_res (@cycle _ _ crashing (@after _ _ crashing 1 crash_pending))
          = Raise (Exception "crash")) as Hres by (vm_compute; reflexivity).
  assert (out_log (@cycle _ _ crashing (@after _ _ crashing 1 crash_pending))
          = [EvPoll "colorscheme" "find" "crash"
               (Ret (PyStr "/etc/found.json"))]
            ++ [EvFound "colorscheme" "find" "crash" "/etc/found.json"])
    as Hlog by (vm_compute; reflexivity).
  exact (conj (conj Hres Hlog)
           (@found_failure_keeps_pair _ _ crashing (Exception "crash") _
              "colorscheme"
              "find" "crash" "/etc/found.json"
              (@after _ _ crashing 1 crash_pending) Hres Hlog)).
Defined.

Lemma stopping_ok :
  registry_ok (self stopping) ∧ missing_ok (self stopping).
Proof.
  split; [apply registry_ok_check|apply missing_ok_check];
    vm_compute; reflexivity.
Qed.

Lemma run_keeps_loader_witness :
  (registry_ok (self stopping) ∧ missing_ok (self stopping) ∧
   out_res (run 3 stopping) = Ret Returned) ∧
  (registry_ok (self (out_sys (run 3 stopping))) ∧
   missing_ok (self (out_sys (run 3 stopping)))) ∧
  (interval (self (out_sys (run 3 stopping))) = None ∨
   shutdown_is_set (world (out_sys (run 3 stopping))) = true).
Proof.
  assert (out_res (run 3 stopping) = Ret Returned) as Hres
    by (vm_compute; reflexivity).
  pose proof (run_keeps_loader 3 stopping) as (_ & _ & _ & _ & Hok & Hret).
  exact (conj (conj (proj1 stopping_ok) (conj (proj2 stopping_ok) Hres))
           (conj (Hok (proj1 stopping_ok) (proj2 stopping_ok)) (Hret Hres))).
Defined.

Lemma stopping_first_cycle (i : nat) :
  i < 1 →
  running (after i stopping) = true ∧ completes cycle (after i stopping).
Proof.
  intros Hi. assert (i = 0) as -> by lia.
  split; [vm_compute; reflexivity|]. exists tt. vm_compute. reflexivity.
Qed.

Lemma unlogged_no_cycle (i : nat) :
  i < 0 →
  running (after i colorscheme_unlogged) = true ∧
  completes cycle (after i colorscheme_unlogged).
Proof. lia. Qed.

Lemma run_iterates_witness :
  ((∀ i, i < 1 → running (after i stopping) = true ∧
                 completes cycle (after i stopping)) ∧
   running (after 1 stopping) = false ∧ 1 ≤ 3 ∧
   running (after 0 colorscheme_unlogged) = true ∧
   out_res (cycle (after 0 colorscheme_unlogged)) = Raise (Exception "broken") ∧ 0 < 3) ∧
  run 3 stopping
  = Build_Out (Ret Returned) (after 1 stopping) (cycle_logs 1 stopping) ∧
  run 3 colorscheme_unlogged
  = Build_Out (Raise (Exception "broken")) (after 1 colorscheme_unlogged)
      (cycle_logs 1 colorscheme_unlogged).
Proof.
  assert (running (after 1 stopping) = false) as Hstop
    by (vm_compute; reflexivity).
  assert (1 ≤ 3) as Hfuel by lia.
  assert (running (after 0 colorscheme_unlogged) = true) as Hrun
    by (vm_compute; reflexivity).
  assert (out_res (cycle (after 0 colorscheme_unlogged)) = Raise (Exception "broken"))
    as Hres by (vm_compute; reflexivity).
  assert (0 < 3) as Hfuel' by lia.
  pose proof (run_iterates 1 3 stopping stopping_first_cycle) as [Hreturns _].
  pose proof (run_iterates 0 3 colorscheme_unlogged unlogged_no_cycle)
    as [_ Hraises].
  exact (conj
    (conj stopping_first_cycle
       (conj Hstop (conj Hfuel (conj Hrun (conj Hres Hfuel')))))
    (conj (Hreturns Hstop Hfuel) (Hraises (Exception "broken") Hrun Hres Hfuel'))).
Defined.

Lemma idle_cycle_witness :
  (watched (self polling) = ∅ ∧ missing (self polling) = ∅) ∧
  cycle polling
  = Build_Out (Ret tt) (out_sys (wait polling))
      [EvWait (interval (self polling))].
Proof.
  assert (watched (self polling) = ∅) as Hw by reflexivity.
  assert (missing (self polling) = ∅) as Hm by reflexivity.
  exact (conj (conj Hw Hm) (idle_cycle polling Hw Hm)).
Defined.

Lemma calls_never_set_interval (i : Interval) :
  CallSetInterval (Some i) ∉ calls_without_interval.
Proof.
  unfold calls_without_interval. intros Hin.
  repeat (apply elem_of_cons in Hin as [Hin|Hin]; [discriminate|]).
  by apply elem_of_nil in Hin.
Qed.

Lemma no_interval_no_cache_witness :
  (∀ i, CallSetInterval (Some i) ∉ calls_without_interval) ∧
  interval (self (history calls_without_interval world0)) = None ∧
  loaded (self (history calls_without_interval world0)) = ∅ ∧
  ∀ p, load p (history calls_without_interval world0) =
       Build_Out (call_load p (world (history calls_without_interval world0))).1
         (Build_Sys (self (history calls_without_interval world0))
            (call_load p (world (history calls_without_interval world0))).2)
         [EvLoad p
            (call_load p (world (history calls_without_interval world0))).1].
Proof.
  exact (conj calls_never_set_interval
           (no_interval_no_cache calls_without_interval world0
              calls_never_set_interval)).
Defined.
Lemma cache_dropped_only_by_unregister_witness :
  (is_Some (loaded (self theme_loaded) !! "theme.json") ∧
   loaded (self (perform (CallUnregisterFunctions {[ "markDirty" ]})
                   theme_loaded)) !! "theme.json" = None) ∧
  ∃ R fs, CallUnregisterFunctions {[ "markDirty" ]} = CallUnregisterFunctions R ∧
          watched (self theme_loaded) !! "theme.json" = Some fs ∧ fs ⊆ R.
Proof.
  assert (is_Some (loaded (self theme_loaded) !! "theme.json")) as Hp.
  { exists "dark". vm_compute. reflexivity. }
  assert (loaded (self (perform (CallUnregisterFunctions {[ "markDirty" ]})
                          theme_loaded)) !! "theme.json" = None) as Hgone
    by (vm_compute; reflexivity).
  exact (conj (conj Hp Hgone)
           (cache_dropped_only_by_unregister
              (CallUnregisterFunctions {[ "markDirty" ]}) "theme.json"
              theme_loaded Hp Hgone)).
Defined.
Lemma unregistered_path_not_refreshed_witness :
  (watched (self (meanwhile (write_file "theme.json" "light") cached_only))
     !! "theme.json" = None ∧
   count (is_found_at "theme.json")
     (out_log (cycle (meanwhile (write_file "theme.json" "light")
                        cached_only))) = 0) ∧
  count (is_load "theme.json")
    (out_log (cycle (meanwhile (write_file "theme.json" "light")
                       cached_only))) = 0 ∧
  loaded (self (out_sys (cycle (meanwhile (write_file "theme.json" "light")
                                  cached_only)))) !! "theme.json"
  = loaded (self (meanwhile (write_file "theme.json" "light") cached_only))
      !! "theme.json".
Proof.
  assert (watched (self (meanwhile (write_file "theme.json" "light")
                           cached_only)) !! "theme.json" = None) as Hp
    by (vm_compute; reflexivity).
  assert (count (is_found_at "theme.json")
            (out_log (cycle (meanwhile (write_file "theme.json" "light")
                               cached_only))) = 0) as Hfound
    by (vm_compute; reflexivity).
  exact (conj (conj Hp Hfound)
           (unregistered_path_not_refreshed "theme.json"
              (meanwhile (write_file "theme.json" "light") cached_only)
              Hp Hfound)).
Defined.

(** The file says [light], the Cache still says [dark]. *)
Example stale_forever :
  (call_load "theme.json"
     (world (meanwhile (write_file "theme.json" "light") cached_only))).1
  = Ret "light" ∧
  out_res (load "theme.json"
             (out_sys (cycle (meanwhile (write_file "theme.json" "light")
                                cached_only)))) = Ret "dark".
Proof. split; vm_compute; reflexivity. Qed.

Lemma pending_after_cycle_witness :
  completes cycle (after 1 colorscheme_missing) ∧
  (pending "colorscheme" ("find", "onFound")
     (self (out_sys (cycle (after 1 colorscheme_missing))))
   ↔ pending "colorscheme" ("find", "onFound")
       (self (after 1 colorscheme_missing)) ∧
     count (is_found "colorscheme" "find" "onFound")
       (out_log (cycle (after 1 colorscheme_missing))) = 0).
Proof.
  exact (conj second_cycle_completes
           (pending_after_cycle "colorscheme" "find" "onFound"
              (after 1 colorscheme_missing) second_cycle_completes)).
Defined.
Lemma reports_have_causes_witness :
  pl (self colorscheme_unlogged) = None ∧
  ∀ msg pfx args,
    EvReport msg pfx args ∉ out_log (cycle colorscheme_unlogged).
Proof.
  assert (pl (self colorscheme_unlogged) = None) as Hpl by reflexivity.
  pose proof (reports_have_causes colorscheme_unlogged) as [_ Hsilent].
  exact (conj Hpl (Hsilent Hpl)).
Defined.
End CoverageFacts.
